(** * Quantum circuit designer: diagram-to-circuit compiler

    A shallow embedding of the non-GUI core of [app.py]
    (class [QuantumCircuitDesigner]): the geometry helpers, the wire
    connectivity resolver, the circuit compiler, the result aggregator and
    the simulate cycle, together with the properties stated about them.

    Modelling conventions.
    - Diagram positions are [Tuple[int, int]] in the source: pairs of [Z].
    - [math.sqrt] and the float arithmetic around it are modelled in the
      real numbers [R]; [float("inf")] is a separate constructor.
    - The aggregator divides integer counts; it is modelled in [Q].
    - The qiskit circuit object is modelled by the widths of its two
      registers and the sequence of calls made on it ([reset], [h], [x],
      [y], [z], [cx], [measure], [measure_all]).
    - Python exceptions are values of an error monad.
    - A Python [set] of wire indices is a duplicate-free list; the order
      in which a [for] loop visits a set is a parameter [iter] of the code
      that iterates over sets, and the results hold for every such order.
    - The [while] loop of [get_connected_wires] runs on fuel, and is shown
      never to exhaust it. *)

From Stdlib Require Import ZArith List Bool Lia Arith.
From Stdlib Require Import Reals Lra Psatz.
From Stdlib Require Import QArith Qfield Qround.
From Stdlib Require Import String Ascii.
From Stdlib Require Import Permutation Sorted.
Import ListNotations.

Set Implicit Arguments.

(** ** Exceptions *)

Inductive exn : Type :=
| IndexError           (* [wire.points[0]] on an empty point list *)
| ZeroDivisionError    (* float division by a zero total length *)
| KeyError             (* [connections[current]] on a missing key *)
| AttributeError       (* a method call on [self.circuit] when it is [None] *)
| OSError (msg : string)       (* raised by the file system or by [Popen] *)
| EngineError (msg : string)   (* raised by the execution engine *)
| OutOfFuel.           (* not a Python exception: a loop of the model that
                          has not finished within its fuel *)

Inductive result (A : Type) : Type :=
| Ok (a : A)
| Raise (e : exn).

Arguments Ok {A} a.
Arguments Raise {A} e.

Definition bind {A B : Type} (m : result A) (k : A -> result B) : result B :=
  match m with
  | Ok a => k a
  | Raise e => Raise e
  end.

Notation "x <- m ;; k" := (bind m (fun x => k))
  (at level 61, m at next level, right associativity).

(** [for x in xs: body], where the body may raise. *)
Fixpoint for_each {A S : Type} (xs : list A) (body : A -> S -> result S)
  (s : S) : result S :=
  match xs with
  | [] => Ok s
  | x :: rest => s' <- body x s ;; for_each rest body s'
  end.

(** ** Geometry utilities *)

Module Geometry.

Definition point : Type := (Z * Z)%type.

Definition point_eqb (a b : point) : bool :=
  (Z.eqb (fst a) (fst b) && Z.eqb (snd a) (snd b))%bool.

(** [self.grid_size = 20] *)
Definition grid_size : Z := 20.

(** A Python float as returned by [point_to_line_distance]: a finite real
    or [float("inf")]. *)
Inductive fdist : Type :=
| Finite (r : R)
| PosInf.

(** [zip(wire.points, wire.points[1:])] *)
Fixpoint segments (pts : list point) : list (point * point) :=
  match pts with
  | p1 :: ((p2 :: _) as rest) => (p1, p2) :: segments rest
  | _ => []
  end.

Local Open Scope R_scope.

(** [math.sqrt((b[0] - a[0]) ** 2 + (b[1] - a[1]) ** 2)]: the squares and
    the sum are integer operations, the root is taken on the result. *)
Definition euclid (a b : point) : R :=
  sqrt (IZR ((fst b - fst a) ^ 2 + (snd b - snd a) ^ 2)).

Definition point_to_line_distance (p line_start line_end : point) : fdist :=
  let '(x0, y0) := p in
  let '(x1, y1) := line_start in
  let '(x2, y2) := line_end in
  if point_eqb (x1, y1) (x2, y2) then
    Finite (sqrt (IZR ((x0 - x1) ^ 2 + (y0 - y1) ^ 2)))
  else
    let numerator := IZR ((x0 - x1) * (x2 - x1) + (y0 - y1) * (y2 - y1)) in
    let denominator := sqrt (IZR ((y2 - y1) ^ 2 + (x2 - x1) ^ 2)) in
    if Req_dec_T denominator 0 then PosInf
    else
      let t := Rmax 0 (Rmin 1 (numerator / (denominator ^ 2))) in
      let proj_x := IZR x1 + t * IZR (x2 - x1) in
      let proj_y := IZR y1 + t * IZR (y2 - y1) in
      Finite (sqrt ((IZR x0 - proj_x) ^ 2 + (IZR y0 - proj_y) ^ 2)).

(** [min(x1, x2) <= x <= max(x1, x2) and min(y1, y2) <= y <= max(y1, y2)] *)
Definition in_bounding_box (p a b : point) : bool :=
  ((Z.min (fst a) (fst b) <=? fst p)%Z && (fst p <=? Z.max (fst a) (fst b))%Z
   && (Z.min (snd a) (snd b) <=? snd p)%Z
   && (snd p <=? Z.max (snd a) (snd b))%Z)%bool.

Definition point_on_line_segment (p line_start line_end : point) : bool :=
  match point_to_line_distance p line_start line_end with
  | PosInf => false
  | Finite d =>
      if Rgt_dec d (IZR grid_size / 2) then false
      else in_bounding_box p line_start line_end
  end.

(** [point_near_pos(pos1, pos2, threshold=20)] *)
Definition point_near_pos (pos1 pos2 : point) (threshold : Z) : bool :=
  let dx := (fst pos1 - fst pos2)%Z in
  let dy := (snd pos1 - snd pos2)%Z in
  (dx * dx + dy * dy <=? threshold * threshold)%Z.

(** The dataclass [Wire]; [connected_gates] and [sensors] are reset to
    empty lists by [__post_init__] and never written afterwards. *)
Record Wire : Type := mkWire { points : list point }.

(** The loop variables of [get_position_along_wire]. *)
Record pos_state : Type := mkPos {
  total_length : R;
  current_length : R;
  target_segment : option (point * point);
  segment_start : R
}.

Definition pos_init : pos_state := mkPos 0 0 None 0.

(** One iteration of [for p1, p2 in zip(wire.points, wire.points[1:])]. *)
Definition pos_step (pt : point) (st : pos_state) (seg : point * point)
  : pos_state :=
  let '(p1, p2) := seg in
  let segment_length := euclid p1 p2 in
  let total := total_length st + segment_length in
  if point_on_line_segment pt p1 p2 then
    mkPos total (current_length st + segment_length)
          (Some (p1, p2)) (current_length st)
  else
    mkPos total (current_length st + segment_length)
          (target_segment st) (segment_start st).

Definition pos_loop (pt : point) (w : Wire) : pos_state :=
  fold_left (pos_step pt) (segments (points w)) pos_init.

Definition get_position_along_wire (pt : point) (w : Wire) : result R :=
  let st := pos_loop pt w in
  match target_segment st with
  | Some (p1, p2) =>
      let point_distance := euclid p1 pt in
      if Req_dec_T (total_length st) 0 then Raise ZeroDivisionError
      else Ok ((segment_start st + point_distance) / total_length st)
  | None => Ok 0
  end.

End Geometry.

(** ** Python containers used by the compiler *)

(** [enumerate(xs)] *)
Definition enumerate {A : Type} (xs : list A) : list (nat * A) :=
  combine (seq 0 (List.length xs)) xs.

(** A [set] of wire indices is a duplicate-free list; [x in s] and
    [s.add(x)] are as below.  The order in which [for x in s] visits a set
    is not fixed by the language: it is the parameter [iter] of the code
    that iterates over sets. *)
Definition mem (x : nat) (s : list nat) : bool := existsb (Nat.eqb x) s.

Definition set_add (x : nat) (s : list nat) : list nat :=
  if mem x s then s else s ++ [x].

(** Ascending iteration, which is what the text of the specification
    assumes of [for x in s]. *)
Fixpoint insert_asc (x : nat) (l : list nat) : list nat :=
  match l with
  | [] => [x]
  | y :: t => if (x <=? y)%nat then x :: y :: t else y :: insert_asc x t
  end.

Definition ascending (l : list nat) : list nat := fold_right insert_asc [] l.

(** ** Wire connectivity resolver *)

Module Connectivity.
Import Geometry.

(** [[wire.points[0], wire.points[-1]]] *)
Definition endpoints (w : Wire) : result (list point) :=
  match points w with
  | [] => Raise IndexError
  | p :: rest => Ok [p; last rest p]
  end.

(** The two nested [for p1 in ...: for p2 in ...:] loops for one pair of
    wires; [s] is [connections[i]]. *)
Definition connect_pair (wire1 wire2 : Wire) (j : nat) (s : list nat)
  : result (list nat) :=
  e1 <- endpoints wire1 ;;
  for_each e1 (fun p1 s1 =>
    e2 <- endpoints wire2 ;;
    for_each e2 (fun p2 s2 =>
      Ok (if point_near_pos p1 p2 10 then set_add j s2 else s2)) s1) s.

(** [connections] is a dict with keys [0..n-1] inserted in this order: the
    list of its values. *)
Definition find_wire_connections (wires : list Wire)
  : result (list (list nat)) :=
  for_each (enumerate wires) (fun iw connections =>
    s <- for_each (enumerate wires) (fun jw s =>
           if (fst iw =? fst jw)%nat then Ok s
           else connect_pair (snd iw) (snd jw) (fst jw) s) [] ;;
    Ok (connections ++ [s])) [].

Section SetIteration.

Variable iter : list nat -> list nat.

(** The body of [for neighbor in connections[current]]; the state is
    [(connected, stack)], the stack with its top at the head. *)
Definition visit_neighbor (st : list nat * list nat) (neighbor : nat)
  : list nat * list nat :=
  if mem neighbor (fst st) then st
  else (set_add neighbor (fst st), neighbor :: snd st).

(** The [while stack:] loop.  [visited] is not in the source: it records
    the nodes popped so far, oldest first.  [OutOfFuel] is returned when
    the loop has not finished after [fuel] iterations. *)
Fixpoint dfs_loop (fuel : nat) (connections : list (list nat))
  (connected stack visited : list nat) : result (list nat * list nat) :=
  match fuel with
  | O => Raise OutOfFuel
  | S fuel' =>
      match stack with
      | [] => Ok (connected, visited)
      | current :: rest =>
          match nth_error connections current with
          | None => Raise KeyError
          | Some neighbors =>
              let st := fold_left visit_neighbor (iter neighbors)
                                  (connected, rest) in
              dfs_loop fuel' connections (fst st) (snd st)
                       (visited ++ [current])
          end
      end
  end.

(** [get_connected_wires] together with the order of visits; one more
    iteration than there are keys is always enough (see
    [get_connected_wires_total]). *)
Definition get_connected_wires_log (start_wire : nat)
  (connections : list (list nat)) : result (list nat * list nat) :=
  dfs_loop (S (List.length connections)) connections
           [start_wire] [start_wire] [].

Definition get_connected_wires (start_wire : nat)
  (connections : list (list nat)) : result (list nat) :=
  r <- get_connected_wires_log start_wire connections ;; Ok (fst r).

End SetIteration.

End Connectivity.

(** ** Circuit compiler *)

Module Compiler.
Import Geometry Connectivity.

(** The dataclass [Gate]; [connected_wires] is always the empty list. *)
Record Gate : Type := mkGate { gate_type : string; pos : point }.

(** The calls made on the qiskit circuit object. *)
Inductive op : Type :=
| Reset (q : nat)
| Hgate (q : nat)
| Xgate (q : nat)
| Ygate (q : nat)
| Zgate (q : nat)
| CX (control target : nat)
| Measure (qubit clbit : nat)
| MeasureAll.

(** [QuantumCircuit(qr, cr)]: the sizes of the registers [qr] and [cr] the
    circuit was built with, and the calls made on it since, in order. *)
Record QuantumCircuit : Type := mkCircuit {
  qr : nat;
  cr : nat;
  data : list op
}.

(** [initialize_circuit]; [old] is [self.circuit] before the call, left as
    it is when there is no wire.  The register constructors do not fail. *)
Definition initialize_circuit (wires : list Wire)
  (old : option QuantumCircuit) : option QuantumCircuit :=
  match wires with
  | [] => old
  | _ => Some (mkCircuit (Nat.max (List.length wires) 1)
                         (Nat.max (List.length wires) 1) [])
  end.

(** A call leaves [qr] and [cr] as they are and is entered in [data];
    what it does to the bits of the circuit is read off [data] below. *)
Definition append_op (o : op) (c : QuantumCircuit) : QuantumCircuit :=
  mkCircuit (qr c) (cr c) (data c ++ [o]).

(** [self.circuit.num_qubits]: no call adds a qubit. *)
Definition num_qubits (c : QuantumCircuit) : nat := qr c.

(** The classical bits of a circuit of [n] qubits that had [clbits] of
    them before the calls [ops].  [measure_all()] is called without
    arguments: the library method then adds a classical register [meas]
    with one bit for each qubit, behind the bits the circuit has, and
    measures qubit [i] into bit [i] of [meas] (after a barrier).  No other
    call adds a bit. *)
Fixpoint clbits_after (n clbits : nat) (ops : list op) : nat :=
  match ops with
  | [] => clbits
  | MeasureAll :: rest => clbits_after n (clbits + n)%nat rest
  | _ :: rest => clbits_after n clbits rest
  end.

(** The measurements the calls [ops] put into the circuit, each as the
    pair of the qubit and of the index of the classical bit among all the
    classical bits of the circuit, [cr] first. *)
Fixpoint measured (n clbits : nat) (ops : list op) : list (nat * nat) :=
  match ops with
  | [] => []
  | Measure q c :: rest => (q, c) :: measured n clbits rest
  | MeasureAll :: rest =>
      map (fun i => (i, (clbits + i)%nat)) (seq 0 n)
      ++ measured n (clbits + n)%nat rest
  | _ :: rest => measured n clbits rest
  end.

(** [self.circuit.num_clbits] *)
Definition num_clbits (c : QuantumCircuit) : nat :=
  clbits_after (qr c) (cr c) (data c).

Definition measurements (c : QuantumCircuit) : list (nat * nat) :=
  measured (qr c) (cr c) (data c).

(** A method call [self.circuit.m(...)]. *)
Definition emit (o : op) (c : option QuantumCircuit)
  : result (option QuantumCircuit) :=
  match c with
  | None => Raise AttributeError
  | Some qc => Ok (Some (append_op o qc))
  end.

(** [not self.circuit]: [None] is falsy, and so is a circuit object of
    length zero ([QuantumCircuit.__len__] is its number of operations). *)
Definition falsy (c : option QuantumCircuit) : bool :=
  match c with
  | None => true
  | Some qc => match data qc with [] => true | _ => false end
  end.

(** [add_gate_to_circuit(gate_type, wire_idx)], with [n_wires] for
    [len(self.wires)].  A call in its [try] block raises only for a qubit
    index outside [qr], and the handler then leaves the circuit as it is;
    [simulate_circuit] passes indices of wires to a circuit built with one
    qubit for each wire, where no call raises. *)
Definition add_gate_to_circuit (n_wires : nat) (gate_type : string)
  (wire_idx : nat) (c : option QuantumCircuit) : option QuantumCircuit :=
  if falsy c then c
  else
    let add o := option_map (append_op o) c in
    if String.eqb gate_type "H" then add (Hgate wire_idx)
    else if String.eqb gate_type "X" then add (Xgate wire_idx)
    else if String.eqb gate_type "Y" then add (Ygate wire_idx)
    else if String.eqb gate_type "Z" then add (Zgate wire_idx)
    else if (String.eqb gate_type "CNOT"
             && (Z.of_nat wire_idx <? Z.of_nat n_wires - 1)%Z)%bool
         then add (CX wire_idx (wire_idx + 1))
    else c.

(** The [for p1, p2 in zip(...)] loop under [for gate in self.gates]. *)
Definition collect_on_wire (wire : Wire) (gate : Gate)
  (wire_gates : list (Gate * R)) : result (list (Gate * R)) :=
  for_each (segments (points wire)) (fun seg acc =>
    if point_on_line_segment (pos gate) (fst seg) (snd seg) then
      r <- get_position_along_wire (pos gate) wire ;;
      Ok (acc ++ [(gate, r)])
    else Ok acc) wire_gates.

Definition collect_wire_gates (gates : list Gate) (wire : Wire)
  : result (list (Gate * R)) :=
  for_each gates (collect_on_wire wire) [].

(** [wire_gates.sort(key=lambda x: x[1])]: a stable sort. *)
Fixpoint insert_by_key (x : Gate * R) (l : list (Gate * R))
  : list (Gate * R) :=
  match l with
  | [] => [x]
  | y :: t => if Rle_dec (snd x) (snd y) then x :: y :: t
              else y :: insert_by_key x t
  end.

Definition sort_by_key (l : list (Gate * R)) : list (Gate * R) :=
  fold_right insert_by_key [] l.

(** Compiler state: [self.circuit] and [processed_wires]. *)
Definition cstate : Type := (option QuantumCircuit * list nat)%type.

(** The body of [for connected_wire_idx in connected_group]. *)
Definition process_wire (wires : list Wire) (gates : list Gate)
  (connected_wire_idx : nat) (st : cstate) : result cstate :=
  c1 <- emit (Reset connected_wire_idx) (fst st) ;;
  wire <- match nth_error wires connected_wire_idx with
          | Some w => Ok w
          | None => Raise IndexError
          end ;;
  wire_gates <- collect_wire_gates gates wire ;;
  let c2 := fold_left (fun c g =>
              add_gate_to_circuit (List.length wires) (gate_type (fst g))
                                  connected_wire_idx c)
              (sort_by_key wire_gates) c1 in
  Ok (c2, set_add connected_wire_idx (snd st)).

(** The segment loop of measurement attachment, with its [break]; the
    state is [(self.circuit, measurements_added)]. *)
Fixpoint attach_on_wire (sensor_pos : point) (wire_idx : nat)
  (segs : list (point * point)) (st : option QuantumCircuit * bool)
  : result (option QuantumCircuit * bool) :=
  match segs with
  | [] => Ok st
  | (p1, p2) :: rest =>
      if point_on_line_segment sensor_pos p1 p2 then
        c <- emit (Measure wire_idx wire_idx) (fst st) ;;
        Ok (c, true)
      else attach_on_wire sensor_pos wire_idx rest st
  end.

(** [for sensor_idx, sensor_pos in enumerate(self.sensors)] and the wire
    loop under it. *)
Definition attach_measurements (wires : list Wire) (sensors : list point)
  (c : option QuantumCircuit) : result (option QuantumCircuit * bool) :=
  for_each sensors (fun sensor_pos st =>
    for_each (enumerate wires) (fun iw st' =>
      attach_on_wire sensor_pos (fst iw) (segments (points (snd iw))) st')
      st) (c, false).

Section SetIteration.

Variable iter : list nat -> list nat.

(** The wire loop of [simulate_circuit]. *)
Definition process_groups (wires : list Wire) (gates : list Gate)
  (connections : list (list nat)) (c : option QuantumCircuit)
  : result cstate :=
  for_each (enumerate wires) (fun iw st =>
    if mem (fst iw) (snd st) then Ok st
    else
      connected_group <- get_connected_wires iter (fst iw) connections ;;
      for_each (iter connected_group) (process_wire wires gates) st)
    (c, []).

(** The part of the [try] block of [simulate_circuit] that builds the
    circuit, up to and including the [measure_all] fallback; [old] is
    [self.circuit] on entry. *)
Definition compile (old : option QuantumCircuit) (wires : list Wire)
  (gates : list Gate) (sensors : list point)
  : result (option QuantumCircuit) :=
  let c0 := initialize_circuit wires old in
  wire_connections <- find_wire_connections wires ;;
  st <- process_groups wires gates wire_connections c0 ;;
  m <- attach_measurements wires sensors (fst st) ;;
  if negb (snd m) then emit MeasureAll (fst m) else Ok (fst m).

End SetIteration.

End Compiler.

(** ** Result aggregator *)

Module Aggregator.

Local Open Scope Q_scope.

(** The characters [str.split()] removes, among the code points below 256. *)
Definition is_space (c : ascii) : bool :=
  let n := nat_of_ascii c in
  ((9 <=? n)%nat && (n <=? 13)%nat || (28 <=? n)%nat && (n <=? 32)%nat
   || (n =? 133)%nat || (n =? 160)%nat)%bool.

(** ["".join(bitstring.split())] *)
Definition bits_of (bitstring : string) : list ascii :=
  filter (fun c => negb (is_space c)) (list_ascii_of_string bitstring).

(** [processed_data]: the key ["Sensor i"] is [i], the value
    [{"0": a, "1": b}] is [(a, b)]; entries in insertion order. *)
Definition table : Type := list (nat * (Q * Q)).

Definition has_key (k : nat) (t : table) : bool :=
  existsb (fun e => Nat.eqb (fst e) k) t.

Fixpoint lookup (k : nat) (t : table) : option (Q * Q) :=
  match t with
  | [] => None
  | (k', v) :: rest => if Nat.eqb k' k then Some v else lookup k rest
  end.

Fixpoint update (k : nat) (f : Q * Q -> Q * Q) (t : table) : table :=
  match t with
  | [] => []
  | (k', v) :: rest =>
      if Nat.eqb k' k then (k', f v) :: rest else (k', v) :: update k f rest
  end.

(** The body of [for sensor_idx, bit in enumerate(bits)]. *)
Definition add_bit (probability : Q) (t : table) (ib : nat * ascii) : table :=
  let '(sensor_idx, bit) := ib in
  let t1 := if has_key sensor_idx t then t
            else t ++ [(sensor_idx, (0, 0))] in
  if Ascii.eqb bit "0"%char
  then update sensor_idx (fun v => (fst v + probability, snd v)) t1
  else if Ascii.eqb bit "1"%char
  then update sensor_idx (fun v => (fst v, snd v + probability)) t1
  else t1.

(** [sum(counts.values())] *)
Definition total_of (counts : list (string * Z)) : Z :=
  fold_left Z.add (map snd counts) 0%Z.

(** [counts] is a dict from bitstring to integer count, in its insertion
    order. *)
Definition process_measurement_results (counts : list (string * Z)) : table :=
  let total_shots := total_of counts in
  match counts with
  | [] => []
  | _ =>
      if (total_shots =? 0)%Z then []
      else
        fold_left (fun t bc =>
          let probability := inject_Z (snd bc) / inject_Z total_shots in
          fold_left (add_bit probability) (enumerate (bits_of (fst bc))) t)
          counts []
  end.

End Aggregator.

(** ** The simulate cycle *)

Module Session.
Import Geometry Compiler Aggregator.

(** The diagram: [self.wires], [self.gates], [self.sensors]. *)
Record diagram : Type := mkDiagram {
  wires : list Wire;
  gates : list Gate;
  sensors : list point
}.

(** What the user sees and what is kept between runs: the text of the
    [circuit_info] widget, the text of the [sensor_text] widget and
    [self.sensor_data].  [self.circuit] is overwritten by
    [initialize_circuit] on every run that has a wire. *)
Record display : Type := mkDisplay {
  circuit_info : string;
  sensor_text : string;
  sensor_data : table
}.

Section Engine.

Variable iter : list nat -> list nat.

(** [str(e)] *)
Variable exn_message : exn -> string.

(** [str(self.circuit)] after the glyph substitutions. *)
Variable render : option QuantumCircuit -> string.

(** Writing the drawing to a temporary file and opening a terminal on it
    ([tempfile.NamedTemporaryFile], [subprocess.Popen]). *)
Variable open_viewer : option QuantumCircuit -> result unit.

(** [self.simulator.run(self.circuit, shots=1000).result().get_counts()] *)
Variable run : option QuantumCircuit -> result (list (string * Z)).

(** The text [update_sensor_table] builds from a non-empty table. *)
Variable format_report : table -> string.

Definition update_sensor_table (v : display) : display :=
  match sensor_data v with
  | [] => mkDisplay (circuit_info v) "No measurements available"
                    (sensor_data v)
  | _ => mkDisplay (circuit_info v) (format_report (sensor_data v))
                   (sensor_data v)
  end.

(** The [try] block up to [get_counts()]: the statements that can raise. *)
Definition simulate_try (old : option QuantumCircuit) (d : diagram)
  : result (option QuantumCircuit * list (string * Z)) :=
  c <- compile iter old (wires d) (gates d) (sensors d) ;;
  _ <- open_viewer c ;;
  counts <- run c ;;
  Ok (c, counts).

Definition simulate_circuit (old : option QuantumCircuit) (d : diagram)
  (v : display) : display :=
  match wires d with
  | [] => v
  | _ =>
      match simulate_try old d with
      | Ok (c, counts) =>
          update_sensor_table
            (mkDisplay (render c) (sensor_text v)
                       (process_measurement_results counts))
      | Raise e =>
          mkDisplay ("Simulation error: " ++ exn_message e)
                    (sensor_text v) (sensor_data v)
      end
  end.

End Engine.

End Session.

(** ** The diagram editor *)

Module Editor.
Import Geometry Compiler.

(** Python's [round] on a float: to the nearest integer, a tie going to
    the even one.  The quotient is taken exactly. *)
Definition py_round (q : Q) : Z :=
  let f := Qfloor q in
  match Qcompare (q - inject_Z f) (1 # 2) with
  | Lt => f
  | Gt => (f + 1)%Z
  | Eq => if Z.even f then f else (f + 1)%Z
  end.

(** [snap_to_grid(pos)] *)
Definition snap_to_grid (pos : point) : point :=
  let x := (py_round (inject_Z (fst pos) / inject_Z grid_size)
            * grid_size)%Z in
  let y := (py_round (inject_Z (snd pos) / inject_Z grid_size)
            * grid_size)%Z in
  (x, y).

(** What the editing handlers can raise. *)
Inductive edit_error : Type :=
| RemoveValueError      (* [list.remove(x)]: x not in list *)
| LastIndexError.       (* [xs[-1]] on an empty list *)

Inductive outcome (A : Type) : Type :=
| Returned (a : A)
| Raised (e : edit_error).

Arguments Returned {A} a.
Arguments Raised {A} e.

Definition and_then {A B : Type} (m : outcome A) (k : A -> outcome B)
  : outcome B :=
  match m with
  | Returned a => k a
  | Raised e => Raised e
  end.

(** [==] on the dataclasses: field by field; the list fields of [Wire] and
    [Gate] that are always empty are left out. *)
Definition points_eqb (l1 l2 : list point) : bool :=
  (Nat.eqb (List.length l1) (List.length l2)
   && forallb (fun ab => point_eqb (fst ab) (snd ab)) (combine l1 l2))%bool.

Definition wire_eqb (w1 w2 : Wire) : bool :=
  points_eqb (points w1) (points w2).

Definition gate_eqb (g1 g2 : Gate) : bool :=
  (String.eqb (gate_type g1) (gate_type g2)
   && point_eqb (pos g1) (pos g2))%bool.

(** [xs.remove(x)]: the first item equal to [x] is taken out. *)
Fixpoint list_remove {A : Type} (eqb : A -> A -> bool) (x : A) (xs : list A)
  : outcome (list A) :=
  match xs with
  | [] => Raised RemoveValueError
  | y :: rest =>
      if eqb y x then Returned rest
      else and_then (list_remove eqb x rest) (fun r => Returned (y :: r))
  end.

(** [for x in xs[:]: if test(x): xs.remove(x)]; [copy] is what is left of
    the copy, [xs] the list being edited. *)
Fixpoint remove_where {A : Type} (eqb : A -> A -> bool) (test : A -> bool)
  (copy xs : list A) : outcome (list A) :=
  match copy with
  | [] => Returned xs
  | x :: rest =>
      if test x
      then and_then (list_remove eqb x xs) (remove_where eqb test rest)
      else remove_where eqb test rest xs
  end.

(** The editing state of [QuantumCircuitDesigner]. *)
Record state : Type := mkState {
  wires : list Wire;
  gates : list Gate;
  sensors : list point;
  drawing_wire : bool;
  current_wire_points : list point;
  selected_tool : option string
}.

(** The state [__init__] leaves. *)
Definition initial : state := mkState [] [] [] false [] None.

(** The keys of [self.GATE_COLORS]. *)
Definition GATE_COLORS : list string :=
  ["H"; "X"; "Y"; "Z"; "CNOT"; "SENSOR"]%string.

Definition tool_is (s : state) (name : string) : bool :=
  match selected_tool s with
  | Some t => String.eqb t name
  | None => false
  end.

Definition tool_in_gate_colors (s : state) : bool :=
  match selected_tool s with
  | Some t => existsb (String.eqb t) GATE_COLORS
  | None => false
  end.

(** The test of the wire loop of the delete tool: some segment of the wire
    has the position on it. *)
Definition wire_hit (grid_pos : point) (w : Wire) : bool :=
  existsb (fun seg => point_on_line_segment grid_pos (fst seg) (snd seg))
          (segments (points w)).

Definition handle_mouse_down (pos : point) (s : state) : outcome state :=
  let grid_pos := snap_to_grid pos in
  if tool_is s "DELETE" then
    and_then (remove_where gate_eqb
                (fun g => point_near_pos (Compiler.pos g) grid_pos 20)
                (gates s) (gates s)) (fun gates' =>
    and_then (remove_where point_eqb
                (fun p => point_near_pos p grid_pos 20)
                (sensors s) (sensors s)) (fun sensors' =>
    and_then (remove_where wire_eqb (wire_hit grid_pos)
                (wires s) (wires s)) (fun wires' =>
    Returned (mkState wires' gates' sensors' (drawing_wire s)
                      (current_wire_points s) (selected_tool s)))))
  else if tool_is s "WIRE" then
    Returned (mkState (wires s) (gates s) (sensors s) true [grid_pos]
                      (selected_tool s))
  else if tool_in_gate_colors s then
    match selected_tool s with
    | Some t =>
        Returned (mkState (wires s) (gates s ++ [mkGate t grid_pos])
                          (sensors s) (drawing_wire s)
                          (current_wire_points s) (selected_tool s))
    | None => Returned s
    end
  else if tool_is s "SENSOR" then
    Returned (mkState (wires s) (gates s) (sensors s ++ [grid_pos])
                      (drawing_wire s) (current_wire_points s)
                      (selected_tool s))
  else Returned s.

Definition handle_mouse_up (pos : point) (s : state) : outcome state :=
  if drawing_wire s then
    let wires' :=
      if (1 <? List.length (current_wire_points s))%nat
      then wires s ++ [mkWire (current_wire_points s)]
      else wires s in
    Returned (mkState wires' (gates s) (sensors s) false []
                      (selected_tool s))
  else Returned s.

Definition handle_mouse_motion (pos : point) (s : state) : outcome state :=
  if drawing_wire s then
    let grid_pos := snap_to_grid pos in
    match rev (current_wire_points s) with
    | [] => Raised LastIndexError
    | last_point :: _ =>
        if negb (point_eqb grid_pos last_point)
        then Returned (mkState (wires s) (gates s) (sensors s)
                               (drawing_wire s)
                               (current_wire_points s ++ [grid_pos])
                               (selected_tool s))
        else Returned s
    end
  else Returned s.

Definition select_tool (tool : string) (s : state) : state :=
  mkState (wires s) (gates s) (sensors s) false [] (Some tool).

(** The diagram part of [clear_board]. *)
Definition clear_board (s : state) : state :=
  mkState [] [] [] (drawing_wire s) (current_wire_points s)
          (selected_tool s).

(** The pygame events [run] reacts to, and the two callbacks of the tool
    panel that change the editing state. *)
Inductive event : Type :=
| MouseButtonDown (button : Z) (pos : point)
| MouseButtonUp (button : Z) (pos : point)
| MouseMotion (pos : point)
| ToolSelected (tool : string)
| ClearAll.

(** The body of the event loop of [run] for one event. *)
Definition dispatch (e : event) (s : state) : outcome state :=
  match e with
  | MouseButtonDown button pos =>
      if (button =? 1)%Z then handle_mouse_down pos s else Returned s
  | MouseButtonUp button pos =>
      if (button =? 1)%Z then handle_mouse_up pos s else Returned s
  | MouseMotion pos => handle_mouse_motion pos s
  | ToolSelected tool => Returned (select_tool tool s)
  | ClearAll => Returned (clear_board s)
  end.

Fixpoint run_events (es : list event) (s : state) : outcome state :=
  match es with
  | [] => Returned s
  | e :: rest => and_then (dispatch e s) (run_events rest)
  end.

End Editor.

(** ** Decision procedures and reference definitions used in the statements *)

Module Reference.
Import Geometry.

(** [point_to_line_distance p a b <= grid_size / 2], decided on the integer
    coordinates (see [distance_within_tolerance]). *)
Definition within_tolerance (p a b : point) : bool :=
  let '(x0, y0) := p in
  let '(x1, y1) := a in
  let '(x2, y2) := b in
  let n := ((x0 - x1) * (x2 - x1) + (y0 - y1) * (y2 - y1))%Z in
  let l := ((y2 - y1) ^ 2 + (x2 - x1) ^ 2)%Z in
  let da := ((x0 - x1) ^ 2 + (y0 - y1) ^ 2)%Z in
  let db := ((x0 - x2) ^ 2 + (y0 - y2) ^ 2)%Z in
  if point_eqb a b then (da <=? 100)%Z
  else if (n <=? 0)%Z then (da <=? 100)%Z
  else if (l <=? n)%Z then (db <=? 100)%Z
  else (l * da - n * n <=? 100 * l)%Z.

(** [point_on_line_segment], decided on the integer coordinates (see
    [point_on_line_segment_decide]). *)
Definition on_segment (p a b : point) : bool :=
  (within_tolerance p a b && in_bounding_box p a b)%bool.

(** The sum of the lengths of a list of segments. *)
Fixpoint length_sum (segs : list (point * point)) : R :=
  match segs with
  | [] => 0%R
  | s :: rest => (euclid (fst s) (snd s) + length_sum rest)%R
  end.

(** Index of the last segment a point lies on, if any. *)
Fixpoint last_match (pt : point) (segs : list (point * point)) : option nat :=
  match segs with
  | [] => None
  | s :: rest =>
      match last_match pt rest with
      | Some i => Some (S i)
      | None => if on_segment pt (fst s) (snd s) then Some O else None
      end
  end.

(** Index of the first segment a point lies on, if any. *)
Fixpoint first_match (pt : point) (segs : list (point * point)) : option nat :=
  match segs with
  | [] => None
  | s :: rest =>
      if on_segment pt (fst s) (snd s) then Some O
      else option_map S (first_match pt rest)
  end.

(** The arc-length fraction measured on segment [i] of the polyline: the
    lengths of the segments before it, plus the distance from its start to
    the point, over the total length. *)
Definition fraction_at (pt : point) (segs : list (point * point)) (i : nat)
  : R :=
  ((length_sum (firstn i segs)
    + euclid (fst (nth i segs ((0, 0), (0, 0))%Z)) pt)
   / length_sum segs)%R.

(** The position along the wire as the specification words it: measured on
    the first segment, in point order, that the point lies on. *)
Definition position_first_match (pt : point) (w : Wire) : option R :=
  option_map (fraction_at pt (segments (points w)))
             (first_match pt (segments (points w))).

Definition origin_seg : point * point := ((0, 0), (0, 0))%Z.

(** The invariant of the [while stack:] loop of [get_connected_wires]:
    no node is twice among the visited and the stacked ones, [connected]
    holds exactly those, every visited node is a key, and the neighbours
    of a visited node are all in [connected]. *)
Definition dfs_inv (connections : list (list nat))
  (connected stack visited : list nat) : Prop :=
  NoDup (visited ++ stack) /\
  (forall x, In x connected <-> In x (visited ++ stack)) /\
  (forall x, In x visited -> (x < List.length connections)%nat) /\
  (forall x nb y, In x visited -> nth_error connections x = Some nb ->
                  In y nb -> In y connected).

(** Every neighbour recorded in [connections] is one of its keys. *)
Definition well_keyed (connections : list (list nat)) : Prop :=
  forall i nb y, nth_error connections i = Some nb -> In y nb ->
                 (y < List.length connections)%nat.

(** [[wire.points[0], wire.points[-1]]] when the wire has a point. *)
Definition ends (w : Wire) : list point :=
  match points w with
  | [] => []
  | p :: rest => [p; last rest p]
  end.

(** Some end point of [w1] is within 10 of some end point of [w2]. *)
Definition coincide (w1 w2 : Wire) : bool :=
  existsb (fun p1 => existsb (fun p2 => point_near_pos p1 p2 10) (ends w2))
          (ends w1).

(** *** The compiler's output, read off the diagram *)

(** Some segment of the wire has the point on it. *)
Definition lies_on (p : point) (w : Wire) : bool :=
  existsb (fun seg => on_segment p (fst seg) (snd seg))
          (segments (points w)).

(** The value of [get_position_along_wire] on a wire of nonzero length. *)
Definition position_on (pt : point) (w : Wire) : R :=
  match last_match pt (segments (points w)) with
  | Some i => fraction_at pt (segments (points w)) i
  | None => 0%R
  end.

(** The entries of [wire_gates] for one wire: one per gate and per segment
    of the wire the gate lies on. *)
Definition matched_gates (gates : list Compiler.Gate) (w : Wire)
  : list (Compiler.Gate * R) :=
  flat_map (fun g =>
    flat_map (fun seg =>
      if on_segment (Compiler.pos g) (fst seg) (snd seg)
      then [(g, position_on (Compiler.pos g) w)] else [])
      (segments (points w))) gates.

(** What [add_gate_to_circuit] appends to a circuit that is not empty. *)
Definition gate_ops (n_wires : nat) (wire_idx : nat) (gate_type : string)
  : list Compiler.op :=
  if String.eqb gate_type "H" then [Compiler.Hgate wire_idx]
  else if String.eqb gate_type "X" then [Compiler.Xgate wire_idx]
  else if String.eqb gate_type "Y" then [Compiler.Ygate wire_idx]
  else if String.eqb gate_type "Z" then [Compiler.Zgate wire_idx]
  else if (String.eqb gate_type "CNOT" && (wire_idx + 1 <? n_wires)%nat)%bool
       then [Compiler.CX wire_idx (wire_idx + 1)]
  else [].

(** The operations emitted while one wire is processed: its reset, then
    the operations of its gates in sorted order. *)
Definition wire_block (wires : list Wire) (gates : list Compiler.Gate)
  (wire_idx : nat) : list Compiler.op :=
  Compiler.Reset wire_idx ::
  flat_map (fun g => gate_ops (List.length wires) wire_idx
                              (Compiler.gate_type (fst g)))
           (Compiler.sort_by_key
              (matched_gates gates (nth wire_idx wires (mkWire [])))).

(** The measurements emitted for one sensor: one per wire it lies on, in
    collection order. *)
Definition sensor_measurements (wires : list Wire) (sensor_pos : point)
  : list Compiler.op :=
  flat_map (fun iw =>
    if lies_on sensor_pos (snd iw)
    then [Compiler.Measure (fst iw) (fst iw)] else [])
    (enumerate wires).

Definition measure_ops (wires : list Wire) (sensors : list point)
  : list Compiler.op :=
  flat_map (sensor_measurements wires) sensors.

(** The measurement a sensor would get if it were bound to the first wire
    it lies on only, as the specification words it. *)
Definition first_wire_measurement (wires : list Wire) (sensor_pos : point)
  : list Compiler.op :=
  match find (fun iw => lies_on sensor_pos (snd iw)) (enumerate wires) with
  | Some iw => [Compiler.Measure (fst iw) (fst iw)]
  | None => []
  end.

(** A wire as the editor stores it has a polyline of nonzero length. *)
Definition wire_ok (w : Wire) : Prop :=
  length_sum (segments (points w)) <> 0%R.

(** The group [get_connected_wires] returns for a seed, in the order in
    which [for x in group] visits it. *)
Definition group_order (iter : list nat -> list nat)
  (connections : list (list nat)) (seed : nat) : list nat :=
  match Connectivity.get_connected_wires iter seed connections with
  | Ok group => iter group
  | Raise _ => []
  end.

(** Some wire of the list has the sensor on it. *)
Definition touches (wires : list (nat * Wire)) (s : point) : bool :=
  existsb (fun iw => lies_on s (snd iw)) wires.

(** The gates of [wire_gates], without their keys. *)
Definition gates_on (gates : list Compiler.Gate) (w : Wire)
  : list Compiler.Gate :=
  flat_map (fun g =>
    flat_map (fun seg =>
      if on_segment (Compiler.pos g) (fst seg) (snd seg) then [g] else [])
      (segments (points w))) gates.

(** The measurements at the end of the circuit, with the [measure_all]
    fallback. *)
Definition measurement_part (wires : list Wire) (sensors : list point)
  : list Compiler.op :=
  match measure_ops wires sensors with
  | [] => [Compiler.MeasureAll]
  | m => m
  end.

(** A circuit with more operations appended. *)
Definition append_ops (ops : list Compiler.op) (c : Compiler.QuantumCircuit)
  : Compiler.QuantumCircuit :=
  Compiler.mkCircuit (Compiler.qr c) (Compiler.cr c)
                     (Compiler.data c ++ ops).

Definition is_measurement (o : Compiler.op) : bool :=
  match o with
  | Compiler.Measure _ _ | Compiler.MeasureAll => true
  | _ => false
  end.

(** *** The aggregator's buckets *)

(** The sum of the two probabilities of a bucket; 0 for a missing key. *)
Definition bucket_total (t : Aggregator.table) (k : nat) : Q :=
  match Aggregator.lookup k t with
  | Some v => (fst v + snd v)%Q
  | None => 0%Q
  end.

(** The characters of a bitstring are bits. *)
Definition is_bit (c : ascii) : Prop := c = "0"%char \/ c = "1"%char.

(** A bitstring of [width] measured bits, white space apart. *)
Definition bitstring_ok (width : nat) (bc : string * Z) : Prop :=
  List.length (Aggregator.bits_of (fst bc)) = width /\
  Forall is_bit (Aggregator.bits_of (fst bc)).

(** A key of the counts as the engine writes it: the characters '0' and
    '1', one for each measured bit, and blanks between the registers. *)
Definition key_char (c : ascii) : Prop :=
  c = "0"%char \/ c = "1"%char \/ c = " "%char.

(** The number of characters '0' and '1' of a key. *)
Fixpoint count_bits (key : string) : nat :=
  match key with
  | EmptyString => 0%nat
  | String c rest =>
      if (Ascii.eqb c "0" || Ascii.eqb c "1")%bool then S (count_bits rest)
      else count_bits rest
  end.

(** A key of [width] measured bits. *)
Definition key_ok (width : nat) (bc : string * Z) : Prop :=
  Forall key_char (list_ascii_of_string (fst bc)) /\
  count_bits (fst bc) = width.

End Reference.

(** ** Diagrams used as examples *)

Module Examples.
Import Geometry.

(** A wire drawn one cell to the right, back to its start, then one cell
    down: [handle_mouse_motion] appends every new grid position. *)
Definition retraced_wire : Wire :=
  mkWire [(0, 0); (20, 0); (0, 0); (0, 20)]%Z.

(** Three wires in a chain: each starts where the previous one ends. *)
Definition chain_wires : list Wire :=
  [mkWire [(0, 0); (100, 100)]%Z;
   mkWire [(100, 100); (200, 100)]%Z;
   mkWire [(200, 100); (300, 100)]%Z].

(** Two wires meeting at (100,100), and a CNOT in the middle of the
    first. *)
Definition junction_wires : list Wire :=
  [mkWire [(20, 100); (100, 100)]%Z;
   mkWire [(100, 100); (180, 100)]%Z].

Definition cnot_gate : Compiler.Gate := Compiler.mkGate "CNOT" (60, 100)%Z.

(** Two wires that do not meet, the first with two segments, and a CNOT
    on the middle point of the first. *)
Definition vertex_wires : list Wire :=
  [mkWire [(0, 0); (20, 0); (40, 0)]%Z;
   mkWire [(0, 40); (20, 40)]%Z].

Definition vertex_cnot : Compiler.Gate := Compiler.mkGate "CNOT" (20, 0)%Z.

(** A Hadamard gate on the start point of [retraced_wire]. *)
Definition h_gate : Compiler.Gate := Compiler.mkGate "H" (0, 0)%Z.

(** An execution engine that raises on every circuit. *)
Definition failing_engine (c : option Compiler.QuantumCircuit)
  : result (list (string * Z)) :=
  Raise (EngineError "engine failure").

Definition junction_diagram : Session.diagram :=
  Session.mkDiagram junction_wires [cnot_gate] [].

(** The text of an exception, for those that carry one. *)
Definition message_of (e : exn) : string :=
  match e with
  | OSError msg | EngineError msg => msg
  | _ => ""
  end.

(** What a successful earlier run has left on display. *)
Definition previous_display : Session.display :=
  Session.mkDisplay "previous circuit" "previous report"
                    [(0%nat, ((1 # 2)%Q, (1 # 2)%Q))].

End Examples.

(** ** Invariants of the editing state *)

Module Invariants.
Import Geometry Compiler.

(** Both coordinates are multiples of the cell size. *)
Definition on_grid (p : point) : Prop :=
  (fst p mod grid_size = 0)%Z /\ (snd p mod grid_size = 0)%Z.

(** No two consecutive points of the polyline are equal. *)
Fixpoint chain_distinct (pts : list point) : Prop :=
  match pts with
  | p1 :: ((p2 :: _) as rest) =>
      point_eqb p1 p2 = false /\ chain_distinct rest
  | _ => True
  end.

(** A wire as the editor stores it. *)
Definition wire_wf (w : Wire) : Prop :=
  (2 <= List.length (points w))%nat /\
  chain_distinct (points w) /\
  Forall on_grid (points w).

Definition editor_inv (s : Editor.state) : Prop :=
  Forall wire_wf (Editor.wires s) /\
  Forall (fun g => on_grid (pos g)) (Editor.gates s) /\
  Editor.sensors s = [] /\
  chain_distinct (Editor.current_wire_points s) /\
  Forall on_grid (Editor.current_wire_points s) /\
  (Editor.drawing_wire s = true -> Editor.current_wire_points s <> []).

End Invariants.

(** ** Reachability in the adjacency of the wires *)

Module Graph.

(** [y] is recorded as a neighbour of [x]. *)
Definition edge (connections : list (list nat)) (x y : nat) : Prop :=
  exists nb, nth_error connections x = Some nb /\ In y nb.

(** [y] is reached from [x] through a chain of neighbours. *)
Inductive reach (connections : list (list nat)) (x : nat) : nat -> Prop :=
| reach_refl : reach connections x x
| reach_step (y z : nat) :
    reach connections x y -> edge connections y z -> reach connections x z.

(** The entries of [wire_gates] whose key is [r]. *)
Definition key_is (r : R) (x : Compiler.Gate * R) : bool :=
  if Req_dec_T (snd x) r then true else false.

(** An operation that only names qubits and classical bits below [n]. *)
Definition op_in_range (n : nat) (o : Compiler.op) : bool :=
  match o with
  | Compiler.Reset q | Compiler.Hgate q | Compiler.Xgate q
  | Compiler.Ygate q | Compiler.Zgate q => (q <? n)%nat
  | Compiler.CX c t => ((c <? n)%nat && (t <? n)%nat && negb (c =? t)%nat)%bool
  | Compiler.Measure q c => ((q <? n)%nat && (c <? n)%nat)%bool
  | Compiler.MeasureAll => true
  end.

End Graph.

(** ** The keys of the aggregator's table *)

Module Tables.

(** The largest number of bits of a bitstring of [counts]. *)
Definition max_width (counts : list (string * Z)) : nat :=
  fold_right Nat.max 0%nat
    (map (fun bc => List.length (Aggregator.bits_of (fst bc))) counts).

End Tables.

(** ** The nearest wire *)

Module Nearest.
Import Geometry.

(** [dist < min_dist] on Python floats: nothing is below itself, and every
    finite number is below [float("inf")]. *)
Definition float_lt (a b : fdist) : bool :=
  match a, b with
  | Finite x, Finite y => if Rlt_dec x y then true else false
  | Finite _, PosInf => true
  | PosInf, _ => false
  end.

(** The body of the inner loop of [find_nearest_wire_index], on the pair
    [(min_dist, nearest_idx)]. *)
Definition scan_segment (pt : point) (idx : nat) (st : fdist * option nat)
  (seg : point * point) : fdist * option nat :=
  let dist := point_to_line_distance pt (fst seg) (snd seg) in
  if float_lt dist (fst st) then (dist, Some idx) else st.

(** [for p1, p2 in zip(wire.points, wire.points[1:])] *)
Definition scan_wire (pt : point) (st : fdist * option nat)
  (iw : nat * Wire) : fdist * option nat :=
  fold_left (scan_segment pt (fst iw)) (segments (points (snd iw))) st.

Definition find_nearest_wire_index (wires : list Wire) (pt : point)
  : option nat :=
  let st := fold_left (scan_wire pt) (enumerate wires) (PosInf, None) in
  if float_lt (fst st) (Finite (IZR grid_size)) then snd st else None.

(** The distance from [pt] to a segment, as a real number. *)
Definition segment_distance (pt : point) (seg : point * point) : R :=
  match point_to_line_distance pt (fst seg) (snd seg) with
  | Finite d => d
  | PosInf => 0%R
  end.

(** [d] is the distance from [pt] to some segment of the wire of index
    [i]. *)
Definition distance_of (wires : list Wire) (pt : point) (i : nat) (d : R)
  : Prop :=
  exists w seg,
    nth_error wires i = Some w /\ In seg (segments (points w)) /\
    point_to_line_distance pt (fst seg) (snd seg) = Finite d.

(** The segments of the wires, each with the index of its wire, in the
    order in which the two loops visit them. *)
Definition scanned (iws : list (nat * Wire)) : list (nat * (point * point)) :=
  flat_map (fun iw => map (pair (fst iw)) (segments (points (snd iw)))) iws.

(** The segments scanned so far, each with the index of its wire, and the
    pair [(min_dist, nearest_idx)]: the pair holds the least distance and
    the index of the first wire that has it. *)
Definition first_least (pt : point) (l : list (nat * (point * point)))
  (st : fdist * option nat) : Prop :=
  match l with
  | [] => st = (PosInf, None)
  | _ :: _ =>
      exists i seg,
        In (i, seg) l /\
        st = (Finite (segment_distance pt seg), Some i) /\
        (forall j s, In (j, s) l ->
                     (segment_distance pt seg <= segment_distance pt s)%R) /\
        (forall j s, In (j, s) l -> (j < i)%nat ->
                     (segment_distance pt seg < segment_distance pt s)%R)
  end.

End Nearest.

(** ** The text of the circuit drawing *)

Module Glyphs.

(** A Python [str] as the list of its code points. *)
Definition text : Type := list N.

Definition newline : N := 10%N.

(** [s.replace(old, new)] for an [old] and a [new] of one character. *)
Definition replace (old new : N) (s : text) : text :=
  map (fun c => if N.eqb c old then new else c) s.

(** [s.split("\n")] *)
Fixpoint split_lines (s : text) : list text :=
  match s with
  | [] => [[]]
  | c :: rest =>
      if N.eqb c newline then [] :: split_lines rest
      else
        match split_lines rest with
        | [] => [[c]]
        | line :: lines => (c :: line) :: lines
        end
  end.

(** ["\n".join(lines)] *)
Fixpoint join_lines (lines : list text) : text :=
  match lines with
  | [] => []
  | line :: rest =>
      match rest with
      | [] => line
      | _ :: _ => line ++ newline :: join_lines rest
      end
  end.

(** The chain of [replace] calls of [simulate_circuit], first call
    innermost. *)
Definition simplify_line (line : text) : text :=
  replace 9632 37 (replace 9573 45 (replace 9577 124 (replace 9617 47
  (replace 9580 124 (replace 9553 124 (replace 9552 61 (replace 9584 41
  (replace 9581 40 (replace 9508 43 (replace 9500 43 (replace 9496 43
  (replace 9492 43 (replace 9488 43 (replace 9484 43 (replace 9474 124
  (replace 9472 45 line)))))))))))))))).

(** The text given to the [circuit_info] widget for the drawing
    [circuit_str]. *)
Definition simplified_circuit (circuit_str : text) : text :=
  join_lines (map simplify_line (split_lines circuit_str)).

(** The box-drawing characters of the chain with their replacements. *)
Definition glyph_table : list (N * N) :=
  [(9472, 45); (9474, 124); (9484, 43); (9488, 43); (9492, 43); (9496, 43);
   (9500, 43); (9508, 43); (9581, 40); (9584, 41); (9552, 61); (9553, 124);
   (9580, 124); (9617, 47); (9577, 124); (9573, 45); (9632, 37)]%N.

(** One look-up in the table; a character that is not in it is kept. *)
Definition plain_of (c : N) : N :=
  match find (fun e => N.eqb (fst e) c) glyph_table with
  | Some e => snd e
  | None => c
  end.

End Glyphs.

(** * Properties *)

Module GeometryFacts.
Import Geometry Reference Examples.
Local Open Scope R_scope.

Lemma point_eqb_eq (a b : point) : point_eqb a b = true <-> a = b.
Proof.
  destruct a as [xa ya], b as [xb yb]; unfold point_eqb; simpl.
  rewrite andb_true_iff, !Z.eqb_eq. split.
  - intros [-> ->]; reflexivity.
  - intros H; inversion H; auto.
Qed.

Lemma sq_sum_zero (u v : Z) : (u ^ 2 + v ^ 2 = 0)%Z -> u = 0%Z /\ v = 0%Z.
Proof. intros H; nia. Qed.

(** The denominator of [point_to_line_distance] vanishes only for equal
    end points. *)
Lemma denominator_nonzero (x1 y1 x2 y2 : Z) :
  point_eqb (x1, y1) (x2, y2) = false ->
  sqrt (IZR ((y2 - y1) ^ 2 + (x2 - x1) ^ 2)) <> 0.
Proof.
  intros Hne Hz.
  assert (Hpos : (0 <= (y2 - y1) ^ 2 + (x2 - x1) ^ 2)%Z) by nia.
  apply sqrt_eq_0 in Hz; [| apply IZR_le; exact Hpos].
  apply eq_IZR in Hz. apply sq_sum_zero in Hz. destruct Hz as [Hy Hx].
  assert (Heq : (x1, y1) = (x2, y2)) by (f_equal; lia).
  apply point_eqb_eq in Heq. congruence.
Qed.

(** C10: [point_to_line_distance] never returns [float("inf")]: for equal
    end points it is the Euclidean distance to that point, for distinct
    end points the denominator is not zero, and in both cases the result
    is a finite number that is not negative. *)
Theorem point_to_line_distance_finite (p a b : point) :
  (exists r : R, point_to_line_distance p a b = Finite r /\ 0 <= r) /\
  (a = b ->
   point_to_line_distance p a b =
   Finite (sqrt (IZR ((fst p - fst a) ^ 2 + (snd p - snd a) ^ 2)))) /\
  (a <> b ->
   sqrt (IZR ((snd b - snd a) ^ 2 + (fst b - fst a) ^ 2)) <> 0) /\
  point_to_line_distance p a b <> PosInf.
Proof.
  destruct p as [x0 y0], a as [x1 y1], b as [x2 y2].
  unfold point_to_line_distance; simpl fst; simpl snd.
  destruct (point_eqb (x1, y1) (x2, y2)) eqn:E.
  - repeat split.
    + eexists; split; [reflexivity | apply sqrt_pos].
    + intros H. contradict H. now apply point_eqb_eq.
    + discriminate.
  - pose proof (denominator_nonzero _ _ _ _ E) as Hd.
    destruct (Req_dec_T _ 0) as [Hz | Hnz]; [contradiction |].
    repeat split.
    + eexists; split; [reflexivity | apply sqrt_pos].
    + intros H. apply point_eqb_eq in H. congruence.
    + intros _. exact Hd.
    + discriminate.
Qed.

Lemma sqrt_le_10 (u : R) : 0 <= u -> (sqrt u <= 10 <-> u <= 100).
Proof.
  intros Hu. replace 10 with (sqrt 100) at 1.
  - split; intros H.
    + apply sqrt_le_0 in H; lra.
    + apply sqrt_le_1; lra.
  - replace 100 with (10 * 10) by lra. apply sqrt_square; lra.
Qed.

Lemma clamp_low (q : R) : q <= 0 -> Rmax 0 (Rmin 1 q) = 0.
Proof. intros H. rewrite Rmin_right by lra. apply Rmax_left; lra. Qed.

Lemma clamp_high (q : R) : 1 <= q -> Rmax 0 (Rmin 1 q) = 1.
Proof. intros H. rewrite Rmin_left by lra. apply Rmax_right; lra. Qed.

Lemma clamp_mid (q : R) : 0 <= q <= 1 -> Rmax 0 (Rmin 1 q) = q.
Proof. intros H. rewrite Rmin_right by lra. apply Rmax_right; lra. Qed.

Ltac push_IZR :=
  repeat rewrite ?Z.pow_2_r, ?plus_IZR, ?minus_IZR, ?mult_IZR.

Lemma gt_dec_le_bool (d : R) (P : bool) (B : bool) :
  (d <= IZR grid_size / 2 <-> P = true) ->
  (if Rgt_dec d (IZR grid_size / 2) then false else B) = (P && B)%bool.
Proof.
  intros H. destruct (Rgt_dec d (IZR grid_size / 2)) as [Hg | Hg].
  - destruct P; [| reflexivity]. exfalso. assert (d <= IZR grid_size / 2) by (apply H; reflexivity). lra.
  - assert (HP : P = true) by (apply H; lra). rewrite HP. reflexivity.
Qed.

Lemma point_on_line_segment_decide (p a b : point) :
  point_on_line_segment p a b = on_segment p a b.
Proof.
  unfold point_on_line_segment, on_segment.
  generalize (in_bounding_box p a b); intros B.
  destruct p as [x0 y0], a as [x1 y1], b as [x2 y2].
  unfold point_to_line_distance, within_tolerance.
  assert (Hg : IZR grid_size / 2 = 10) by (unfold grid_size; lra).
  destruct (point_eqb (x1, y1) (x2, y2)) eqn:E.
  - apply gt_dec_le_bool. rewrite Hg, Z.leb_le.
    rewrite sqrt_le_10 by (apply IZR_le; nia).
    split; intros H; [apply le_IZR | apply IZR_le]; exact H.
  - pose proof (denominator_nonzero _ _ _ _ E) as Hd.
    destruct (Req_dec_T _ 0) as [Hz | _]; [contradiction |].
    set (n := ((x0 - x1) * (x2 - x1) + (y0 - y1) * (y2 - y1))%Z).
    set (l := ((y2 - y1) ^ 2 + (x2 - x1) ^ 2)%Z).
    assert (Hl0 : (0 <= l)%Z) by (unfold l; nia).
    assert (Hlpos : 0 < IZR l).
    { destruct (Z.eq_dec l 0) as [H0 | H0].
      - exfalso. apply Hd. fold l. rewrite H0. apply sqrt_0.
      - apply IZR_lt. lia. }
    assert (Hsq : sqrt (IZR l) ^ 2 = IZR l).
    { simpl. rewrite Rmult_1_r. apply sqrt_sqrt. lra. }
    rewrite Hsq.
    apply gt_dec_le_bool. rewrite Hg.
    rewrite sqrt_le_10 by (apply Rplus_le_le_0_compat; apply pow2_ge_0).
    destruct (n <=? 0)%Z eqn:En.
    + apply Z.leb_le in En. apply IZR_le in En.
      rewrite clamp_low.
      2:{ unfold Rdiv. assert (0 < / IZR l) by (apply Rinv_0_lt_compat; lra). nra. }
      rewrite Z.leb_le. split; intros H.
      * apply le_IZR. revert H. push_IZR. simpl. intros H. lra.
      * apply IZR_le in H. revert H. push_IZR. simpl. intros H. lra.
    + apply Z.leb_gt in En. apply IZR_lt in En.
      destruct (l <=? n)%Z eqn:Eln.
      * apply Z.leb_le in Eln. apply IZR_le in Eln.
        rewrite clamp_high.
        2:{ apply Rmult_le_reg_r with (IZR l); [lra |]. unfold Rdiv. rewrite Rmult_assoc, Rinv_l by lra. lra. }
        rewrite Z.leb_le. split; intros H.
        -- apply le_IZR. revert H. push_IZR. simpl. intros H. lra.
        -- apply IZR_le in H. revert H. push_IZR. simpl. intros H. lra.
      * apply Z.leb_gt in Eln. apply IZR_lt in Eln.
        rewrite clamp_mid.
        2:{ split.
            - unfold Rdiv. assert (0 < / IZR l) by (apply Rinv_0_lt_compat; lra). nra.
            - apply Rmult_le_reg_r with (IZR l); [lra |]. unfold Rdiv. rewrite Rmult_assoc, Rinv_l by lra. lra. }
        rewrite Z.leb_le.
        assert (Hexp : (IZR x0 - (IZR x1 + IZR n / IZR l * IZR (x2 - x1))) ^ 2 +
                       (IZR y0 - (IZR y1 + IZR n / IZR l * IZR (y2 - y1))) ^ 2
                       = (IZR l * IZR ((x0 - x1) ^ 2 + (y0 - y1) ^ 2) - IZR n * IZR n) / IZR l).
        { unfold n, l. push_IZR. field. fold l. revert Hlpos. unfold l. push_IZR. lra. }
        rewrite Hexp.
        split; intros H.
        -- apply le_IZR. push_IZR.
           apply Rmult_le_compat_r with (r := IZR l) in H; [| lra].
           unfold Rdiv in H. rewrite Rmult_assoc, Rinv_l, Rmult_1_r in H by lra.
           revert H. push_IZR. lra.
        -- apply IZR_le in H. revert H. push_IZR. intros H.
           apply Rmult_le_reg_r with (IZR l); [lra |].
           unfold Rdiv. rewrite Rmult_assoc, Rinv_l, Rmult_1_r by lra.
           revert H. push_IZR. lra.
Qed.

Lemma euclid_nonneg (a b : point) : 0 <= euclid a b.
Proof. apply sqrt_pos. Qed.

Lemma length_sum_nonneg segs : 0 <= length_sum segs.
Proof.
  induction segs as [| s rest IH]; simpl; [lra |].
  pose proof (euclid_nonneg (fst s) (snd s)). lra.
Qed.

Lemma length_sum_app s1 s2 :
  length_sum (s1 ++ s2) = length_sum s1 + length_sum s2.
Proof. induction s1 as [| s rest IH]; simpl; [lra | rewrite IH; lra]. Qed.

(** The loop of [get_position_along_wire], from any loop state. *)
Lemma pos_loop_from (pt : point) segs : forall st,
  total_length (fold_left (pos_step pt) segs st)
    = total_length st + length_sum segs /\
  current_length (fold_left (pos_step pt) segs st)
    = current_length st + length_sum segs /\
  target_segment (fold_left (pos_step pt) segs st) =
    match last_match pt segs with
    | Some i => nth_error segs i
    | None => target_segment st
    end /\
  segment_start (fold_left (pos_step pt) segs st) =
    match last_match pt segs with
    | Some i => current_length st + length_sum (firstn i segs)
    | None => segment_start st
    end.
Proof.
  induction segs as [| [p1 p2] rest IH]; intros st;
    cbn [fold_left last_match length_sum fst snd].
  - repeat split; lra.
  - specialize (IH (pos_step pt st (p1, p2))).
    destruct IH as (Ht & Hc & Hs & Hb).
    assert (Hstep_t : total_length (pos_step pt st (p1, p2)) = total_length st + euclid p1 p2)
      by (unfold pos_step; destruct (point_on_line_segment pt p1 p2); reflexivity).
    assert (Hstep_c : current_length (pos_step pt st (p1, p2)) = current_length st + euclid p1 p2)
      by (unfold pos_step; destruct (point_on_line_segment pt p1 p2); reflexivity).
    rewrite Ht, Hc, Hs, Hb, Hstep_t, Hstep_c.
    repeat split; try lra.
    + destruct (last_match pt rest); [reflexivity |].
      unfold pos_step. rewrite point_on_line_segment_decide.
      destruct (on_segment pt p1 p2); reflexivity.
    + destruct (last_match pt rest); [simpl; lra |].
      unfold pos_step. rewrite point_on_line_segment_decide.
      destruct (on_segment pt p1 p2); simpl; lra.
Qed.

Lemma last_match_lt pt segs i : last_match pt segs = Some i -> (i < List.length segs)%nat.
Proof.
  revert i; induction segs as [| s rest IH]; intros i; simpl; [discriminate |].
  destruct (last_match pt rest) as [j |].
  - intros H; inversion H; subst. specialize (IH j eq_refl). lia.
  - destruct (on_segment pt (fst s) (snd s)); [| discriminate].
    intros H; inversion H; lia.
Qed.

(** [get_position_along_wire] measures on the last segment the point lies
    on. *)
Lemma get_position_along_wire_last_match (pt : point) (w : Wire) :
  get_position_along_wire pt w =
  match last_match pt (segments (points w)) with
  | None => Ok 0
  | Some i =>
      if Req_dec_T (length_sum (segments (points w))) 0
      then Raise ZeroDivisionError
      else Ok (fraction_at pt (segments (points w)) i)
  end.
Proof.
  unfold get_position_along_wire, pos_loop.
  destruct (pos_loop_from pt (segments (points w)) pos_init) as (Ht & _ & Hs & Hb).
  rewrite Hs.
  destruct (last_match pt (segments (points w))) as [i |] eqn:E.
  - pose proof (last_match_lt _ _ E) as Hi.
    destruct (nth_error (segments (points w)) i) as [[p1 p2] |] eqn:En.
    + rewrite Ht, Hb. simpl total_length. simpl current_length.
      rewrite !Rplus_0_l.
      destruct (Req_dec_T _ 0); [reflexivity |].
      unfold fraction_at. rewrite (nth_error_nth _ _ _ En). reflexivity.
    + apply nth_error_None in En. lia.
  - reflexivity.
Qed.

Lemma on_segment_start (a b : point) : on_segment a a b = true.
Proof.
  destruct a as [x1 y1], b as [x2 y2].
  unfold on_segment, within_tolerance, in_bounding_box; simpl fst; simpl snd.
  apply andb_true_iff; split.
  - replace ((x1 - x1) * (x2 - x1) + (y1 - y1) * (y2 - y1))%Z with 0%Z by ring.
    replace ((x1 - x1) ^ 2 + (y1 - y1) ^ 2)%Z with 0%Z by ring.
    destruct (point_eqb (x1, y1) (x2, y2)); reflexivity.
  - rewrite !andb_true_iff, !Z.leb_le. lia.
Qed.

Lemma on_segment_end (a b : point) : on_segment b a b = true.
Proof.
  destruct a as [x1 y1], b as [x2 y2].
  unfold on_segment, within_tolerance, in_bounding_box; simpl fst; simpl snd.
  apply andb_true_iff; split.
  - replace ((x2 - x2) ^ 2 + (y2 - y2) ^ 2)%Z with 0%Z by ring.
    destruct (point_eqb (x1, y1) (x2, y2)) eqn:E.
    + apply point_eqb_eq in E. inversion E; subst.
      replace ((x2 - x2) ^ 2 + (y2 - y2) ^ 2)%Z with 0%Z by ring. reflexivity.
    + pose proof (Z.square_nonneg (x2 - x1)) as Sx.
      pose proof (Z.square_nonneg (y2 - y1)) as Sy.
      destruct (Z.leb_spec ((x2 - x1) * (x2 - x1) + (y2 - y1) * (y2 - y1)) 0)
        as [E1 | E1].
      * assert (Hx : ((x2 - x1) * (x2 - x1) = 0)%Z) by lia.
        assert (Hy : ((y2 - y1) * (y2 - y1) = 0)%Z) by lia.
        apply Z.mul_eq_0 in Hx, Hy.
        assert (x1 = x2 /\ y1 = y2) as [-> ->] by lia.
        exfalso.
        assert (H : point_eqb (x2, y2) (x2, y2) = true)
          by (now apply point_eqb_eq).
        congruence.
      * destruct (Z.leb_spec ((y2 - y1) ^ 2 + (x2 - x1) ^ 2)
                    ((x2 - x1) * (x2 - x1) + (y2 - y1) * (y2 - y1)))
          as [E2 | E2]; [reflexivity |].
        exfalso. rewrite !Z.pow_2_r in E2. lia.
  - rewrite !andb_true_iff, !Z.leb_le. lia.
Qed.

Lemma bbox_euclid (p a b : point) :
  in_bounding_box p a b = true -> euclid a p <= euclid a b.
Proof.
  destruct p as [x y], a as [x1 y1], b as [x2 y2].
  unfold in_bounding_box, euclid; simpl fst; simpl snd.
  rewrite !andb_true_iff, !Z.leb_le. intros [[[H1 H2] H3] H4].
  apply sqrt_le_1_alt. apply IZR_le.
  assert ((x - x1) ^ 2 <= (x2 - x1) ^ 2)%Z by nia.
  assert ((y - y1) ^ 2 <= (y2 - y1) ^ 2)%Z by nia.
  lia.
Qed.

Lemma last_match_on pt segs i :
  last_match pt segs = Some i ->
  exists s, nth_error segs i = Some s /\ on_segment pt (fst s) (snd s) = true.
Proof.
  revert i; induction segs as [| s rest IH]; intros i; simpl; [discriminate |].
  destruct (last_match pt rest) as [j |].
  - intros H; inversion H; subst. simpl. apply IH; reflexivity.
  - destruct (on_segment pt (fst s) (snd s)) eqn:E; [| discriminate].
    intros H; inversion H; subst. exists s; split; [reflexivity | exact E].
Qed.

Lemma length_sum_firstn_S segs : forall i s,
  nth_error segs i = Some s ->
  length_sum (firstn (S i) segs)
  = length_sum (firstn i segs) + euclid (fst s) (snd s).
Proof.
  induction segs as [| s0 rest IH]; intros [| i] s H; try discriminate.
  - inversion H; subst. simpl. lra.
  - simpl in H. specialize (IH _ _ H).
    change (firstn (S (S i)) (s0 :: rest)) with (s0 :: firstn (S i) rest).
    change (firstn (S i) (s0 :: rest)) with (s0 :: firstn i rest).
    cbn [length_sum]. rewrite IH. lra.
Qed.

Lemma length_sum_firstn_le segs i :
  length_sum (firstn i segs) <= length_sum segs.
Proof.
  rewrite <- (firstn_skipn i segs) at 2. rewrite length_sum_app.
  pose proof (length_sum_nonneg (skipn i segs)). lra.
Qed.

Lemma length_sum_firstn_mono segs i j :
  (i <= j)%nat -> length_sum (firstn i segs) <= length_sum (firstn j segs).
Proof.
  intros H. replace i with (Nat.min i j) by lia.
  rewrite <- firstn_firstn. apply length_sum_firstn_le.
Qed.

(** Numerator bounds of the fraction on a matched segment. *)
Lemma numerator_bounds pt segs i :
  last_match pt segs = Some i ->
  length_sum (firstn i segs)
    <= length_sum (firstn i segs) + euclid (fst (nth i segs ((0, 0), (0, 0))%Z)) pt
    <= length_sum (firstn (S i) segs).
Proof.
  intros H. destruct (last_match_on _ _ H) as (s & Hn & Hon).
  rewrite (nth_error_nth _ _ _ Hn), (length_sum_firstn_S _ _ Hn).
  unfold on_segment in Hon. apply andb_true_iff in Hon. destruct Hon as [_ Hb].
  pose proof (bbox_euclid _ _ _ Hb). pose proof (euclid_nonneg (fst s) pt). lra.
Qed.


Lemma euclid_self (a : point) : euclid a a = 0.
Proof.
  unfold euclid. replace ((fst a - fst a) ^ 2 + (snd a - snd a) ^ 2)%Z with 0%Z by ring.
  apply sqrt_0.
Qed.

(** The length of a segment whose squared length is a perfect square. *)
Lemma euclid_int (a b : point) (k : Z) :
  (0 <= k)%Z ->
  ((fst b - fst a) ^ 2 + (snd b - snd a) ^ 2 = k * k)%Z ->
  euclid a b = IZR k.
Proof.
  intros Hk H. unfold euclid. rewrite H, mult_IZR.
  apply sqrt_square. apply IZR_le. exact Hk.
Qed.

Lemma segments_last (d : point) (pts : list point) :
  segments pts <> [] ->
  snd (last (segments pts) (d, d)) = last pts d.
Proof.
  induction pts as [| p1 [| p2 rest] IH]; intros H; try (simpl in H; congruence).
  destruct rest as [| p3 rest'].
  - reflexivity.
  - change (segments (p1 :: p2 :: p3 :: rest'))
      with ((p1, p2) :: segments (p2 :: p3 :: rest')).
    change (last (p1 :: p2 :: p3 :: rest') d) with (last (p2 :: p3 :: rest') d).
    rewrite <- IH by (simpl; discriminate).
    reflexivity.
Qed.

Lemma last_match_last pt segs d :
  segs <> [] ->
  on_segment pt (fst (last segs d)) (snd (last segs d)) = true ->
  last_match pt segs = Some (pred (List.length segs)).
Proof.
  induction segs as [| s [| s' rest] IH]; intros Hne Hon; [congruence | |].
  - simpl in *. rewrite Hon. reflexivity.
  - change (last (s :: s' :: rest) d) with (last (s' :: rest) d) in Hon.
    cbn [last_match]. cbn [last_match] in IH. rewrite IH; [reflexivity | discriminate | exact Hon].
Qed.

Lemma nth_pred_last {A} (l : list A) (d : A) : nth (pred (List.length l)) l d = last l d.
Proof.
  induction l as [| a [| b rest] IH]; try reflexivity.
  change (last (a :: b :: rest) d) with (last (b :: rest) d). rewrite <- IH. reflexivity.
Qed.

Lemma fraction_at_last (segs : list (point * point)) :
  length_sum segs <> 0 ->
  fraction_at (snd (last segs origin_seg)) segs (pred (List.length segs)) = 1.
Proof.
  intros Hne. unfold fraction_at.
  assert (Hs : segs <> []) by (intros ->; apply Hne; reflexivity).
  assert (Hn : nth_error segs (pred (List.length segs)) = Some (last segs origin_seg)).
  { rewrite <- nth_pred_last. apply nth_error_nth'. destruct segs; [congruence | simpl; lia]. }
  fold origin_seg. rewrite nth_pred_last.
  rewrite <- (length_sum_firstn_S _ _ Hn).
  replace (S (pred (List.length segs))) with (List.length segs)
    by (destruct segs; [congruence | simpl; lia]).
  rewrite firstn_all. field. exact Hne.
Qed.

Lemma total_length_is_length_sum (pt : point) (w : Wire) :
  total_length (pos_loop pt w) = length_sum (segments (points w)).
Proof.
  unfold pos_loop.
  destruct (pos_loop_from pt (segments (points w)) pos_init) as (Ht & _).
  rewrite Ht. simpl. lra.
Qed.

Lemma position_at_last_point (w : Wire) :
  length_sum (segments (points w)) <> 0 ->
  get_position_along_wire (last (points w) (0, 0)%Z) w = Ok 1.
Proof.
  intros Hne. rewrite get_position_along_wire_last_match.
  assert (Hs : segments (points w) <> []) by (intros E; apply Hne; rewrite E; reflexivity).
  rewrite <- (segments_last (0, 0)%Z _ Hs). fold origin_seg.
  rewrite (@last_match_last _ _ origin_seg Hs) by apply on_segment_end.
  destruct (Req_dec_T _ 0); [contradiction |].
  rewrite fraction_at_last by assumption. reflexivity.
Qed.

Lemma segments_hd (pts : list point) s rest :
  segments pts = s :: rest -> fst s = hd (0, 0)%Z pts.
Proof.
  destruct pts as [| p1 [| p2 r]]; simpl; try discriminate.
  intros H; inversion H; reflexivity.
Qed.

Lemma last_match_none pt segs :
  Forall (fun s => point_on_line_segment pt (fst s) (snd s) = false) segs ->
  last_match pt segs = None.
Proof.
  induction 1 as [| s rest Hs _ IH]; [reflexivity |].
  simpl. rewrite IH. rewrite point_on_line_segment_decide in Hs. rewrite Hs. reflexivity.
Qed.

Lemma position_at_first_point (w : Wire) :
  length_sum (segments (points w)) <> 0 ->
  Forall (fun s => point_on_line_segment (hd (0, 0)%Z (points w)) (fst s) (snd s) = false)
         (tl (segments (points w))) ->
  get_position_along_wire (hd (0, 0)%Z (points w)) w = Ok 0.
Proof.
  intros Hne Hrest. rewrite get_position_along_wire_last_match.
  destruct (segments (points w)) as [| s rest] eqn:E.
  - reflexivity.
  - simpl in Hrest. cbn [last_match]. rewrite (@last_match_none _ _ Hrest).
    rewrite <- (segments_hd _ E). rewrite on_segment_start.
    destruct (Req_dec_T _ 0); [contradiction |].
    f_equal. unfold fraction_at. cbn [firstn nth length_sum].
    rewrite euclid_self. field. exact Hne.
Qed.

Lemma position_order (w : Wire) (p q : point) (i j : nat) :
  length_sum (segments (points w)) <> 0 ->
  last_match p (segments (points w)) = Some i ->
  last_match q (segments (points w)) = Some j ->
  (i < j)%nat \/
  (i = j /\ euclid (fst (nth i (segments (points w)) origin_seg)) p
            <= euclid (fst (nth i (segments (points w)) origin_seg)) q) ->
  exists rp rq : R,
    get_position_along_wire p w = Ok rp /\
    get_position_along_wire q w = Ok rq /\
    0 <= rp /\ rp <= rq /\ rq <= 1.
Proof.
  intros Hne Hp Hq Hord.
  rewrite !get_position_along_wire_last_match, Hp, Hq.
  destruct (Req_dec_T _ 0); [contradiction |].
  set (segs := segments (points w)) in *.
  assert (HT : 0 < length_sum segs)
    by (pose proof (length_sum_nonneg segs); lra).
  pose proof (numerator_bounds _ _ Hp) as [Hp1 Hp2].
  pose proof (numerator_bounds _ _ Hq) as [Hq1 Hq2].
  pose proof (length_sum_nonneg (firstn i segs)) as Hi0.
  pose proof (length_sum_firstn_le segs (S j)) as Hj1.
  eexists; eexists; split; [reflexivity | split; [reflexivity |]].
  unfold fraction_at. unfold origin_seg in *.
  assert (Hinv : 0 < / length_sum segs) by (apply Rinv_0_lt_compat; exact HT).
  unfold Rdiv. repeat split.
  - apply Rmult_le_pos; lra.
  - apply Rmult_le_compat_r; [lra |].
    destruct Hord as [Hlt | [-> Hle]].
    + pose proof (@length_sum_firstn_mono segs (S i) j ltac:(lia)). lra.
    + lra.
  - apply Rmult_le_reg_r with (length_sum segs); [exact HT |].
    rewrite Rmult_assoc, Rinv_l by lra. lra.
Qed.

(** Rewrites the lengths of segments with integer length. *)
Ltac eval_euclid :=
  repeat match goal with
  | |- context [euclid ?a ?b] =>
      let k := eval vm_compute in
        (Z.sqrt ((fst b - fst a) ^ 2 + (snd b - snd a) ^ 2)) in
      rewrite (@euclid_int a b k) by (vm_compute; congruence)
  end.

(** C6, as amended: on a wire of nonzero total length the position of the
    last point is exactly 1; the position of the first point is exactly 0
    when the first point lies on no segment after the first; and the
    position does not decrease when the point moves to a later last
    matching segment, or further from the start point of the same one,
    staying between 0 and 1. *)
Theorem position_along_wire_ends_and_order (w : Wire) :
  length_sum (segments (points w)) <> 0 ->
  get_position_along_wire (last (points w) (0, 0)%Z) w = Ok 1 /\
  (Forall (fun s => point_on_line_segment (hd (0, 0)%Z (points w))
                      (fst s) (snd s) = false)
          (tl (segments (points w))) ->
   get_position_along_wire (hd (0, 0)%Z (points w)) w = Ok 0) /\
  (forall (p q : point) (i j : nat),
     last_match p (segments (points w)) = Some i ->
     last_match q (segments (points w)) = Some j ->
     (i < j)%nat \/
     (i = j /\ euclid (fst (nth i (segments (points w)) origin_seg)) p
               <= euclid (fst (nth i (segments (points w)) origin_seg)) q) ->
     exists rp rq : R,
       get_position_along_wire p w = Ok rp /\
       get_position_along_wire q w = Ok rq /\
       0 <= rp /\ rp <= rq /\ rq <= 1).
Proof.
  intros Hne. split; [| split].
  - apply position_at_last_point; exact Hne.
  - apply position_at_first_point; exact Hne.
  - intros p q i j. apply position_order; exact Hne.
Qed.

Lemma retraced_length : length_sum (segments (points retraced_wire)) = 60.
Proof.
  unfold retraced_wire. cbn [points segments length_sum fst snd].
  eval_euclid. lra.
Qed.

(** On the wire (0,0), (20,0), (0,0), (0,20) the start point is measured
    on the third segment. *)
Lemma retraced_start_position :
  get_position_along_wire (0, 0)%Z retraced_wire = Ok (2 / 3).
Proof.
  rewrite get_position_along_wire_last_match.
  replace (last_match (0, 0)%Z (segments (points retraced_wire)))
    with (Some 2%nat) by (vm_compute; reflexivity).
  destruct (Req_dec_T _ 0) as [Hz | _];
    [rewrite retraced_length in Hz; lra |].
  f_equal. unfold fraction_at. rewrite retraced_length.
  unfold retraced_wire. cbn [points segments firstn nth length_sum fst snd].
  eval_euclid. lra.
Qed.

(** C6 fails as stated: on the wire (0,0), (20,0), (0,0), (0,20), of total
    length 60, the position of the first point is 2/3 and not 0. *)
Lemma position_first_point_counterexample :
  length_sum (segments (points retraced_wire)) <> 0 /\
  hd (0, 0)%Z (points retraced_wire) = (0, 0)%Z /\
  get_position_along_wire (0, 0)%Z retraced_wire = Ok (2 / 3) /\
  get_position_along_wire (hd (0, 0)%Z (points retraced_wire)) retraced_wire
    <> Ok 0.
Proof.
  repeat split.
  - rewrite retraced_length. lra.
  - exact retraced_start_position.
  - change (hd (0, 0)%Z (points retraced_wire)) with (0, 0)%Z.
    rewrite retraced_start_position. intros H. inversion H. lra.
Qed.

(** The amended statement applied to a straight wire of two points. *)
Lemma position_along_wire_ends_and_order_witness :
  get_position_along_wire (20, 0)%Z (mkWire [(0, 0); (20, 0)]%Z) = Ok 1.
Proof.
  apply (position_along_wire_ends_and_order (mkWire [(0, 0); (20, 0)]%Z)).
  cbn [points segments length_sum fst snd]. eval_euclid. lra.
Defined.

(** The statement of C10 applied to a degenerate segment. *)
Lemma point_to_line_distance_finite_witness :
  point_to_line_distance (3, 4)%Z (0, 0)%Z (0, 0)%Z
  = Finite (sqrt (IZR ((3 - 0) ^ 2 + (4 - 0) ^ 2))).
Proof.
  apply (proj1 (proj2 (point_to_line_distance_finite
                         (3, 4)%Z (0, 0)%Z (0, 0)%Z))).
  reflexivity.
Defined.

End GeometryFacts.

Module ConnectivityFacts.
Import Geometry Reference Examples Connectivity.
Local Open Scope nat_scope.

Lemma mem_In (x : nat) (s : list nat) : mem x s = true <-> In x s.
Proof.
  unfold mem. rewrite existsb_exists. split.
  - intros (y & Hy & E). apply Nat.eqb_eq in E. subst. exact Hy.
  - intros H. exists x. split; [exact H | apply Nat.eqb_refl].
Qed.

Lemma mem_false (x : nat) (s : list nat) : mem x s = false <-> ~ In x s.
Proof.
  rewrite <- mem_In. destruct (mem x s); split; congruence.
Qed.

Lemma set_add_In (x y : nat) (s : list nat) :
  In y (set_add x s) <-> y = x \/ In y s.
Proof.
  unfold set_add. destruct (mem x s) eqn:E.
  - apply mem_In in E. split; [auto | intros [-> | H]; assumption].
  - rewrite in_app_iff. simpl. split; intros H; intuition auto.
Qed.

Lemma bounded_NoDup_length (n : nat) (l : list nat) :
  NoDup l -> (forall x, In x l -> x < n) -> List.length l <= n.
Proof.
  intros Hnd Hb. rewrite <- (length_seq n 0).
  apply NoDup_incl_length; [exact Hnd |].
  intros x Hx. apply in_seq. specialize (Hb x Hx). lia.
Qed.

Section Search.

Variable iter : list nat -> list nat.
Hypothesis iter_perm : forall l, Permutation (iter l) l.

(** The [for neighbor in connections[current]] loop: it pushes the
    neighbours not yet in [connected], each once. *)
Lemma visit_neighbors (ns : list nat) : forall connected stack,
  exists new,
    snd (fold_left visit_neighbor ns (connected, stack)) = new ++ stack /\
    NoDup new /\
    (forall x, In x new -> In x ns /\ ~ In x connected) /\
    (forall x, In x (fst (fold_left visit_neighbor ns (connected, stack)))
               <-> In x connected \/ In x new) /\
    (forall y, In y ns ->
               In y (fst (fold_left visit_neighbor ns (connected, stack)))).
Proof.
  induction ns as [| n ns IH]; intros connected stack.
  - exists []. simpl. refine (conj eq_refl (conj _ (conj _ (conj _ _)))).
    + constructor.
    + intros x [].
    + intros x. tauto.
    + intros y [].
  - cbn [fold_left]. unfold visit_neighbor at 2 4 6. cbn [fst snd].
    destruct (mem n connected) eqn:E.
    + destruct (IH connected stack) as (new & Hs & Hnd & Hnew & Hc & Hall).
      exists new. refine (conj Hs (conj Hnd (conj _ (conj Hc _)))).
      * intros x Hx. destruct (Hnew x Hx) as [H1 H2].
        split; [right; exact H1 | exact H2].
      * intros y [<- | Hy]; [| apply Hall; exact Hy].
        apply Hc. left. apply mem_In. exact E.
    + apply mem_false in E.
      destruct (IH (set_add n connected) (n :: stack))
        as (new & Hs & Hnd & Hnew & Hc & Hall).
      exists (new ++ [n]). rewrite Hs, <- app_assoc.
      refine (conj eq_refl (conj _ (conj _ (conj _ _)))).
      * apply NoDup_app; [exact Hnd | repeat constructor; intros [] |].
        intros a Ha [<- | []]. apply Hnew in Ha. destruct Ha as [_ Ha].
        apply Ha. apply set_add_In. left; reflexivity.
      * intros x H. apply in_app_iff in H. destruct H as [H | [<- | []]].
        -- destruct (Hnew x H) as [H1 H2]. split; [right; exact H1 |].
           intros Hx. apply H2. apply set_add_In. right; exact Hx.
        -- split; [left; reflexivity | exact E].
      * intros x. rewrite Hc, set_add_In, in_app_iff. simpl.
        intuition (subst; auto).
      * intros y [<- | Hy]; [| apply Hall; exact Hy].
        apply Hc. left. apply set_add_In. left; reflexivity.
Qed.

(** One iteration of the loop keeps the invariant. *)
Lemma dfs_step_inv (connections : list (list nat))
  (connected rest visited : list nat) (current : nat) (nb : list nat) :
  dfs_inv connections connected (current :: rest) visited ->
  nth_error connections current = Some nb ->
  let st := fold_left visit_neighbor (iter nb) (connected, rest) in
  dfs_inv connections (fst st) (snd st) (visited ++ [current]) /\
  incl connected (fst st) /\
  (forall x, In x (snd st) -> In x rest \/ In x nb).
Proof.
  intros (Hnd & Hc & Hkey & Hcl) Hnb st.
  destruct (visit_neighbors (iter nb) connected rest)
    as (new & Hs & Hndn & Hnew & Hf & Hall).
  fold st in Hs, Hf, Hall.
  assert (Hin_nb : forall y, In y (iter nb) <-> In y nb).
  { intros y; split; apply Permutation_in;
      [apply iter_perm | apply Permutation_sym, iter_perm]. }
  split; [| split].
  - unfold dfs_inv. rewrite Hs.
    refine (conj _ (conj _ (conj _ _))).
    + apply Permutation_NoDup with (new ++ (visited ++ current :: rest)).
      * rewrite <- !app_assoc. simpl.
        rewrite (Permutation_app_comm new (visited ++ current :: rest)).
        rewrite <- app_assoc. apply Permutation_app_head. simpl.
        apply perm_skip. apply Permutation_app_comm.
      * apply NoDup_app; [exact Hndn | exact Hnd |].
        intros a Ha Hold. apply Hnew in Ha. destruct Ha as [_ Ha].
        apply Ha. apply Hc. exact Hold.
    + intros x. rewrite Hf, Hc, !in_app_iff. simpl.
      intuition (subst; auto).
    + intros x Hx. apply in_app_iff in Hx. destruct Hx as [Hx | [<- | []]].
      * apply Hkey; exact Hx.
      * apply nth_error_Some. congruence.
    + intros x nb' y Hx Hn Hy. apply in_app_iff in Hx.
      destruct Hx as [Hx | [<- | []]].
      * apply Hf. left. eapply Hcl; eassumption.
      * assert (nb' = nb) by congruence. subst nb'.
        apply Hall. apply Hin_nb. exact Hy.
  - intros x Hx. apply Hf. left; exact Hx.
  - intros x Hx. rewrite Hs in Hx. apply in_app_iff in Hx.
    destruct Hx as [Hx | Hx]; [right | left; exact Hx].
    apply Hin_nb. apply Hnew. exact Hx.
Qed.

(** The loop ends within its fuel.  It returns a closed set containing the
    initial one, or raises [KeyError] when some stacked or recorded
    neighbour is not a key. *)
Lemma dfs_loop_correct (connections : list (list nat)) : forall fuel
  connected stack visited,
  dfs_inv connections connected stack visited ->
  List.length connections - List.length visited < fuel ->
  match dfs_loop iter fuel connections connected stack visited with
  | Ok (c, v) => dfs_inv connections c [] v /\ incl connected c
  | Raise KeyError =>
      ~ (well_keyed connections /\
         forall x, In x stack -> x < List.length connections)
  | Raise _ => False
  end.
Proof.
  induction fuel as [| fuel IH]; intros connected stack visited Hinv Hfuel;
    [lia |].
  cbn [dfs_loop]. destruct stack as [| current rest].
  - split; [exact Hinv | apply incl_refl].
  - destruct (nth_error connections current) as [nb |] eqn:Hnb.
    + destruct (dfs_step_inv Hinv Hnb) as (Hinv' & Hincl & Hstack).
      cbv zeta in Hinv', Hincl, Hstack.
      assert (Hlen : List.length (visited ++ [current])
                     <= List.length connections).
      { destruct Hinv' as (Hnd' & _ & Hkey' & _).
        apply bounded_NoDup_length; [| exact Hkey'].
        apply NoDup_app_remove_r in Hnd'. exact Hnd'. }
      rewrite length_app in Hlen. simpl in Hlen.
      specialize (IH _ _ _ Hinv').
      rewrite length_app in IH. simpl in IH.
      specialize (IH ltac:(lia)).
      destruct (dfs_loop iter fuel connections _ _ _) as [[c v] | e].
      * destruct IH as [Hi Hc]. split; [exact Hi |].
        intros x Hx. apply Hc, Hincl, Hx.
      * destruct e; try exact IH.
        intros [Hwk Hst]. apply IH. split; [exact Hwk |].
        intros x Hx. apply Hstack in Hx. destruct Hx as [Hx | Hx].
        -- apply Hst. right; exact Hx.
        -- eapply Hwk; eassumption.
    + intros [_ Hst]. apply nth_error_None in Hnb.
      specialize (Hst current (or_introl eq_refl)). lia.
Qed.

Lemma dfs_inv_init (connections : list (list nat)) (start_wire : nat) :
  dfs_inv connections [start_wire] [start_wire] [].
Proof.
  unfold dfs_inv. simpl. refine (conj _ (conj _ (conj _ _))).
  - repeat constructor. intros [].
  - intros x. tauto.
  - intros x [].
  - intros x nb y [].
Qed.

(** [get_connected_wires] never runs out of fuel. *)
Lemma get_connected_wires_total (start_wire : nat)
  (connections : list (list nat)) :
  get_connected_wires iter start_wire connections <> Raise OutOfFuel.
Proof.
  unfold get_connected_wires, get_connected_wires_log.
  pose proof (@dfs_loop_correct connections (S (List.length connections))
                _ _ _ (dfs_inv_init connections start_wire)) as H.
  simpl List.length in H. specialize (H ltac:(lia)).
  destruct (dfs_loop iter _ connections _ _ _) as [[c v] | e]; simpl.
  - discriminate.
  - destruct e; try contradiction; discriminate.
Qed.

(** On a well-keyed adjacency and a start node that is a key, the search
    returns a set that contains the start node and is closed under
    adjacency, and it visits no node twice. *)
Lemma get_connected_wires_closed (start_wire : nat)
  (connections : list (list nat)) :
  well_keyed connections ->
  start_wire < List.length connections ->
  exists group visited,
    get_connected_wires_log iter start_wire connections
      = Ok (group, visited) /\
    get_connected_wires iter start_wire connections = Ok group /\
    In start_wire group /\
    NoDup visited /\
    (forall x, In x group <-> In x visited) /\
    (forall x, In x group -> x < List.length connections) /\
    (forall x nb y, In x group -> nth_error connections x = Some nb ->
                    In y nb -> In y group).
Proof.
  intros Hwk Hstart.
  unfold get_connected_wires, get_connected_wires_log.
  pose proof (@dfs_loop_correct connections (S (List.length connections))
                _ _ _ (dfs_inv_init connections start_wire)) as H.
  simpl List.length in H. specialize (H ltac:(lia)).
  destruct (dfs_loop iter _ connections _ _ _) as [[c v] | e].
  - destruct H as [(Hnd & Hc & Hkey & Hcl) Hincl].
    rewrite app_nil_r in Hnd, Hc.
    exists c, v.
    refine (conj eq_refl (conj eq_refl (conj _ (conj Hnd (conj Hc
             (conj _ _)))))).
    + apply Hincl. left; reflexivity.
    + intros x Hx. apply Hkey. apply Hc. exact Hx.
    + intros x nb y Hx. apply Hcl. apply Hc. exact Hx.
  - exfalso. destruct e; try contradiction.
    apply H. split; [exact Hwk |].
    intros x [<- | []]. exact Hstart.
Qed.

End Search.

Lemma enumerate_from_nth {A : Type} (ws : list A) : forall a k,
  nth_error (combine (seq a (List.length ws)) ws) k
  = option_map (fun w => (a + k, w)) (nth_error ws k).
Proof.
  induction ws as [| w ws IH]; intros a k; simpl.
  - destruct k; reflexivity.
  - destruct k as [| k]; simpl.
    + rewrite Nat.add_0_r. reflexivity.
    + rewrite IH. replace (S a + k) with (a + S k) by lia. reflexivity.
Qed.

Lemma enumerate_nth {A : Type} (ws : list A) (k : nat) :
  nth_error (enumerate ws) k = option_map (fun w => (k, w)) (nth_error ws k).
Proof. unfold enumerate. rewrite enumerate_from_nth. reflexivity. Qed.

Lemma enumerate_In {A : Type} (ws : list A) (j : nat) (w : A) :
  In (j, w) (enumerate ws) <-> nth_error ws j = Some w.
Proof.
  split.
  - intros H. apply In_nth_error in H. destruct H as [k Hk].
    rewrite enumerate_nth in Hk. destruct (nth_error ws k) eqn:E; [| discriminate].
    simpl in Hk. inversion Hk; subst. exact E.
  - intros H. apply nth_error_In with j. rewrite enumerate_nth, H. reflexivity.
Qed.

Lemma enumerate_length {A : Type} (ws : list A) :
  List.length (enumerate ws) = List.length ws.
Proof. unfold enumerate. rewrite length_combine, length_seq. lia. Qed.

Lemma endpoints_ends (w : Wire) :
  points w <> [] -> endpoints w = Ok (ends w).
Proof. unfold endpoints, ends. destruct (points w); [congruence | reflexivity]. Qed.

Lemma ends_two (w : Wire) :
  points w <> [] -> exists p q, ends w = [p; q].
Proof.
  unfold ends. destruct (points w) as [| p r]; [congruence |].
  intros _. eauto.
Qed.

(** The four tests made for one ordered pair of wires. *)
Lemma connect_pair_In (w1 w2 : Wire) (j : nat) (s : list nat) :
  points w1 <> [] -> points w2 <> [] ->
  exists s', connect_pair w1 w2 j s = Ok s' /\
    forall y, In y s' <-> In y s \/ (y = j /\ coincide w1 w2 = true).
Proof.
  intros H1 H2. unfold connect_pair, coincide.
  rewrite (@endpoints_ends w1 H1).
  destruct (@ends_two w1 H1) as (a & b & ->).
  destruct (@ends_two w2 H2) as (c & d & E2).
  cbn [bind for_each]. rewrite (@endpoints_ends w2 H2), E2. cbn [bind for_each existsb].
  eexists; split; [reflexivity |].
  intros y.
  destruct (point_near_pos a c 10), (point_near_pos a d 10),
           (point_near_pos b c 10), (point_near_pos b d 10);
    cbn [orb]; rewrite ?set_add_In; intuition (auto; discriminate).
Qed.

(** The inner [for j, wire2 in enumerate(self.wires)] loop for wire [i]. *)
Lemma connections_row (i : nat) (wi : Wire) (l : list (nat * Wire)) :
  points wi <> [] ->
  Forall (fun jw => points (snd jw) <> []) l ->
  forall s, exists s',
    for_each l (fun jw s =>
      if (i =? fst jw)%nat then Ok s
      else connect_pair wi (snd jw) (fst jw) s) s = Ok s' /\
    forall y, In y s' <->
      In y s \/ exists w, In (y, w) l /\ i <> y /\ coincide wi w = true.
Proof.
  intros Hi. induction 1 as [| [j wj] l Hj _ IH]; intros s.
  - exists s. split; [reflexivity |]. intros y. split; [auto |].
    intros [H | (w & [] & _)]; exact H.
  - cbn [for_each fst snd]. destruct (Nat.eqb_spec i j) as [E | E].
    + cbn [bind]. destruct (IH s) as (s' & Hs' & Hin). exists s'.
      split; [exact Hs' |]. intros y. rewrite Hin. split.
      * intros [H | (w & Hw & Hne & Hc)]; [left; exact H |].
        right. exists w. split; [right; exact Hw | auto].
      * intros [H | (w & [Hw | Hw] & Hne & Hc)]; [left; exact H | |].
        -- inversion Hw; subst. congruence.
        -- right. exists w. auto.
    + destruct (@connect_pair_In wi wj j s Hi Hj) as (s1 & Hs1 & Hin1).
      rewrite Hs1. cbn [bind].
      destruct (IH s1) as (s' & Hs' & Hin). exists s'.
      split; [exact Hs' |]. intros y. rewrite Hin, Hin1. split.
      * intros [[H | [-> Hc]] | (w & Hw & Hne & Hc)].
        -- left; exact H.
        -- right. exists wj. split; [left; reflexivity | auto].
        -- right. exists w. split; [right; exact Hw | auto].
      * intros [H | (w & [Hw | Hw] & Hne & Hc)].
        -- left; left; exact H.
        -- inversion Hw; subst. left; right. auto.
        -- right. exists w. auto.
Qed.

(** The outer loop appends one row per wire. *)
Lemma connections_rows (wires : list Wire) (l : list (nat * Wire)) :
  Forall (fun w => points w <> []) wires ->
  Forall (fun iw => points (snd iw) <> []) l ->
  forall acc, exists rows,
    for_each l (fun iw connections =>
      s <- for_each (enumerate wires) (fun jw s =>
             if (fst iw =? fst jw)%nat then Ok s
             else connect_pair (snd iw) (snd jw) (fst jw) s) [] ;;
      Ok (connections ++ [s])) acc = Ok (acc ++ rows) /\
    List.length rows = List.length l /\
    forall k i wi row, nth_error l k = Some (i, wi) ->
      nth_error rows k = Some row ->
      forall y, In y row <->
        exists w, nth_error wires y = Some w /\ i <> y /\ coincide wi w = true.
Proof.
  intros Hw. assert (Hall : Forall (fun jw : nat * Wire => points (snd jw) <> [])
                             (enumerate wires)).
  { apply Forall_forall. intros [j w] Hin. apply enumerate_In in Hin.
    apply nth_error_In in Hin. rewrite Forall_forall in Hw. apply Hw. exact Hin. }
  induction 1 as [| [i wi] l Hi _ IH]; intros acc.
  - exists []. rewrite app_nil_r. split; [reflexivity | split; [reflexivity |]].
    intros [| k]; discriminate.
  - cbn [for_each fst snd].
    destruct (@connections_row i wi (enumerate wires) Hi Hall [])
      as (row & Hrow & Hin).
    cbn [fst snd] in Hrow. rewrite Hrow. cbn [bind].
    destruct (IH (acc ++ [row])) as (rows & Hrows & Hlen & Hnth).
    exists (row :: rows). rewrite Hrows, <- app_assoc.
    split; [reflexivity | split; [simpl; lia |]].
    intros [| k] i' wi' row' Hk Hr; simpl in Hk, Hr.
    + inversion Hk; inversion Hr; subst. intros y. rewrite Hin. split.
      * intros [[] | (w & Hw' & Hne & Hc)]. exists w.
        apply enumerate_In in Hw'. auto.
      * intros (w & Hw' & Hne & Hc). right. exists w.
        split; [apply enumerate_In; exact Hw' | auto].
    + eapply Hnth; eassumption.
Qed.

Lemma point_near_pos_sym (p q : point) (t : Z) :
  point_near_pos p q t = point_near_pos q p t.
Proof.
  unfold point_near_pos. f_equal. ring.
Qed.

Lemma coincide_sym (w1 w2 : Wire) : coincide w1 w2 = coincide w2 w1.
Proof.
  unfold coincide. apply eq_true_iff_eq.
  rewrite !existsb_exists. split.
  - intros (p & Hp & H). apply existsb_exists in H. destruct H as (q & Hq & H).
    exists q. split; [exact Hq |]. apply existsb_exists. exists p.
    split; [exact Hp |]. rewrite point_near_pos_sym. exact H.
  - intros (p & Hp & H). apply existsb_exists in H. destruct H as (q & Hq & H).
    exists q. split; [exact Hq |]. apply existsb_exists. exists p.
    split; [exact Hp |]. rewrite point_near_pos_sym. exact H.
Qed.

(** What [find_wire_connections] returns on wires that all have a point:
    one row per wire, row [i] holding the other wires with an end point
    within 10 of an end point of wire [i]. *)
Lemma find_wire_connections_spec (wires : list Wire) :
  Forall (fun w => points w <> []) wires ->
  exists connections,
    find_wire_connections wires = Ok connections /\
    List.length connections = List.length wires /\
    forall i row, nth_error connections i = Some row ->
      forall j, In j row <->
        exists wi wj, nth_error wires i = Some wi /\
                      nth_error wires j = Some wj /\
                      i <> j /\ coincide wi wj = true.
Proof.
  intros Hw. unfold find_wire_connections.
  assert (Hall : Forall (fun jw : nat * Wire => points (snd jw) <> [])
                             (enumerate wires)).
  { apply Forall_forall. intros [j w] Hin. apply enumerate_In in Hin.
    apply nth_error_In in Hin. rewrite Forall_forall in Hw. apply Hw. exact Hin. }
  destruct (@connections_rows wires (enumerate wires) Hw Hall [])
    as (rows & Hrows & Hlen & Hnth).
  exists rows. simpl in Hrows.
  split; [exact Hrows | split; [rewrite Hlen; apply enumerate_length |]].
  intros i row Hrow j.
  assert (Hi : i < List.length wires).
  { rewrite <- enumerate_length, <- Hlen. apply nth_error_Some. congruence. }
  destruct (nth_error wires i) as [wi |] eqn:Ewi;
    [| apply nth_error_None in Ewi; lia].
  assert (Hk : nth_error (enumerate wires) i = Some (i, wi))
    by (rewrite enumerate_nth, Ewi; reflexivity).
  rewrite (Hnth _ _ _ _ Hk Hrow j). split.
  - intros (w & Hj & Hne & Hc). exists wi, w. auto.
  - intros (wi' & wj & Hi' & Hj & Hne & Hc). inversion Hi'; subst.
    exists wj. auto.
Qed.

Lemma insert_asc_perm (x : nat) (l : list nat) :
  Permutation (insert_asc x l) (x :: l).
Proof.
  induction l as [| y t IH]; simpl; [apply Permutation_refl |].
  destruct (x <=? y); [apply Permutation_refl |].
  rewrite IH. apply perm_swap.
Qed.

Lemma ascending_perm (l : list nat) : Permutation (ascending l) l.
Proof.
  induction l as [| x t IH]; simpl; [constructor |].
  rewrite insert_asc_perm. apply perm_skip. exact IH.
Qed.

Lemma find_wire_connections_well_keyed (wires : list Wire) connections :
  Forall (fun w => points w <> []) wires ->
  find_wire_connections wires = Ok connections ->
  well_keyed connections /\ List.length connections = List.length wires.
Proof.
  intros Hw Hc. destruct (find_wire_connections_spec Hw) as (c' & Hc' & Hlen & Hrow).
  assert (c' = connections) by congruence. subst c'.
  split; [| exact Hlen].
  intros i nb y Hi Hy. apply (Hrow _ _ Hi) in Hy.
  destruct Hy as (wi & wj & _ & Hj & _). rewrite Hlen.
  apply nth_error_Some. congruence.
Qed.

(** C7: on wires that all have a point, the adjacency computed by
    [find_wire_connections] is symmetric; and when an end point of wire A
    is within 10 of an end point of wire B, and one of B within 10 of one
    of C, the group computed for A by [get_connected_wires] contains A, B
    and C, the search having popped each node of the group exactly once. *)
Theorem connectivity_symmetric_transitive
  (iter : list nat -> list nat)
  (iter_perm : forall l, Permutation (iter l) l)
  (wires : list Wire) (a b c : nat) (wa wb wc : Wire) :
  Forall (fun w => points w <> []) wires ->
  nth_error wires a = Some wa ->
  nth_error wires b = Some wb ->
  nth_error wires c = Some wc ->
  coincide wa wb = true ->
  coincide wb wc = true ->
  exists connections group visited,
    find_wire_connections wires = Ok connections /\
    (forall i j ri rj, nth_error connections i = Some ri ->
                       nth_error connections j = Some rj ->
                       (In j ri <-> In i rj)) /\
    get_connected_wires_log iter a connections = Ok (group, visited) /\
    get_connected_wires iter a connections = Ok group /\
    In a group /\ In b group /\ In c group /\
    NoDup visited /\
    (forall x, In x group <-> In x visited).
Proof.
  intros Hw Ha Hb Hc Hab Hbc.
  destruct (find_wire_connections_spec Hw) as (conns & Hconns & Hlen & Hrow).
  destruct (find_wire_connections_well_keyed Hw Hconns) as [Hwk _].
  assert (Hlt : forall k w, nth_error wires k = Some w ->
                            k < List.length conns).
  { intros k w Hk. rewrite Hlen. apply nth_error_Some. congruence. }
  destruct (@get_connected_wires_closed iter iter_perm a conns Hwk
              (Hlt _ _ Ha))
    as (group & visited & Hlog & Hget & Hstart & Hnd & Hgv & _ & Hclosed).
  assert (Hedge : forall i j wi wj, nth_error wires i = Some wi ->
            nth_error wires j = Some wj -> coincide wi wj = true ->
            In i group -> In j group).
  { intros i j wi wj Hi Hj Hcoin Hin.
    destruct (Nat.eq_dec i j) as [-> | Hne]; [exact Hin |].
    destruct (nth_error conns i) as [ri |] eqn:Eri.
    - apply (Hclosed i ri j Hin Eri). apply (Hrow _ _ Eri).
      exists wi, wj. auto.
    - apply nth_error_None in Eri. specialize (Hlt _ _ Hi). lia. }
  exists conns, group, visited.
  split; [exact Hconns |]. split.
  - intros i j ri rj Hi Hj. rewrite (Hrow _ _ Hi j), (Hrow _ _ Hj i).
    split; intros (w1 & w2 & H1 & H2 & Hne & Hcoin); exists w2, w1;
      rewrite coincide_sym; auto.
  - assert (Hinb : In b group) by (eapply (Hedge a b); eassumption).
    assert (Hinc : In c group) by (eapply (Hedge b c); eassumption).
    auto 10.
Qed.

(** C7 on a chain of three wires, with sets iterated in ascending order. *)
Lemma connectivity_symmetric_transitive_witness :
  exists connections group visited,
    find_wire_connections chain_wires = Ok connections /\
    (forall i j ri rj, nth_error connections i = Some ri ->
                       nth_error connections j = Some rj ->
                       (In j ri <-> In i rj)) /\
    get_connected_wires_log ascending 0 connections = Ok (group, visited) /\
    get_connected_wires ascending 0 connections = Ok group /\
    In 0 group /\ In 1 group /\ In 2 group /\
    NoDup visited /\
    (forall x, In x group <-> In x visited).
Proof.
  apply (@connectivity_symmetric_transitive ascending ascending_perm
           chain_wires 0 1 2
           (mkWire [(0, 0); (100, 100)]%Z)
           (mkWire [(100, 100); (200, 100)]%Z)
           (mkWire [(200, 100); (300, 100)]%Z)).
  - repeat constructor; discriminate.
  - reflexivity.
  - reflexivity.
  - reflexivity.
  - reflexivity.
  - reflexivity.
Defined.

End ConnectivityFacts.

Module CompilerFacts.
Import Geometry Reference Examples Connectivity Compiler.
Import GeometryFacts ConnectivityFacts.
Local Open Scope nat_scope.

Lemma append_ops_nil (c : QuantumCircuit) : append_ops [] c = c.
Proof. destruct c; unfold append_ops; simpl. rewrite app_nil_r. reflexivity. Qed.

Lemma append_ops_app (o1 o2 : list op) (c : QuantumCircuit) :
  append_ops o2 (append_ops o1 c) = append_ops (o1 ++ o2) c.
Proof. unfold append_ops; simpl. rewrite app_assoc. reflexivity. Qed.

Lemma append_op_ops (o : op) (c : QuantumCircuit) :
  append_op o c = append_ops [o] c.
Proof. reflexivity. Qed.

(** [add_gate_to_circuit] on a circuit that holds an operation already. *)
Lemma add_gate_to_circuit_ops (n_wires : nat) (ty : string) (idx : nat)
  (c : QuantumCircuit) :
  data c <> [] ->
  add_gate_to_circuit n_wires ty idx (Some c)
  = Some (append_ops (gate_ops n_wires idx ty) c).
Proof.
  intros Hne. unfold add_gate_to_circuit, gate_ops, falsy.
  destruct (data c) eqn:E; [congruence |]. clear E Hne.
  cbn [option_map].
  replace (Z.of_nat idx <? Z.of_nat n_wires - 1)%Z with (idx + 1 <? n_wires).
  2:{ destruct (Nat.ltb_spec (idx + 1) n_wires);
      destruct (Z.ltb_spec (Z.of_nat idx) (Z.of_nat n_wires - 1)); lia || reflexivity. }
  repeat match goal with
         | |- context [if ?b then _ else _] => destruct b
         end; rewrite ?append_ops_nil; reflexivity.
Qed.

Lemma append_ops_data_nonempty (ops : list op) (c : QuantumCircuit) :
  data c <> [] -> data (append_ops ops c) <> [].
Proof.
  unfold append_ops; simpl. destruct (data c); [congruence | discriminate].
Qed.

(** The loop [for gate, _ in wire_gates]. *)
Lemma add_gates_ops (n_wires idx : nat) (l : list (Gate * R)) :
  forall c, data c <> [] ->
  fold_left (fun c g => add_gate_to_circuit n_wires (gate_type (fst g)) idx c)
            l (Some c)
  = Some (append_ops
            (flat_map (fun g => gate_ops n_wires idx (gate_type (fst g))) l) c).
Proof.
  induction l as [| g l IH]; intros c Hne; cbn [fold_left flat_map].
  - rewrite append_ops_nil. reflexivity.
  - rewrite add_gate_to_circuit_ops by exact Hne.
    rewrite IH by (apply append_ops_data_nonempty; exact Hne).
    rewrite append_ops_app. reflexivity.
Qed.

Lemma get_position_along_wire_ok (pt : point) (w : Wire) :
  wire_ok w -> get_position_along_wire pt w = Ok (position_on pt w).
Proof.
  intros Hw. rewrite get_position_along_wire_last_match. unfold position_on.
  destruct (last_match pt (segments (points w))); [| reflexivity].
  destruct (Req_dec_T _ 0); [contradiction | reflexivity].
Qed.

Lemma collect_on_wire_ok (w : Wire) (g : Gate) :
  wire_ok w ->
  forall segs acc,
  for_each segs (fun seg acc =>
    if point_on_line_segment (pos g) (fst seg) (snd seg) then
      r <- get_position_along_wire (pos g) w ;;
      Ok (acc ++ [(g, r)])
    else Ok acc) acc
  = Ok (acc ++ flat_map (fun seg =>
          if on_segment (pos g) (fst seg) (snd seg)
          then [(g, position_on (pos g) w)] else []) segs).
Proof.
  intros Hw.
  set (body := fun (seg : point * point) (acc : list (Gate * R)) => _).
  induction segs as [| seg segs IH]; intros acc; cbn [for_each flat_map].
  - rewrite app_nil_r. reflexivity.
  - unfold body at 1. rewrite point_on_line_segment_decide.
    destruct (on_segment (pos g) (fst seg) (snd seg)).
    + rewrite (get_position_along_wire_ok _ Hw). cbn [bind].
      rewrite IH, <- app_assoc. reflexivity.
    + cbn [bind]. rewrite IH. reflexivity.
Qed.

Lemma collect_wire_gates_from (gates : list Gate) (w : Wire) :
  wire_ok w ->
  forall acc, for_each gates (collect_on_wire w) acc
              = Ok (acc ++ matched_gates gates w).
Proof.
  intros Hw. unfold matched_gates.
  induction gates as [| g gates IH]; intros acc; cbn [for_each flat_map].
  - rewrite app_nil_r. reflexivity.
  - unfold collect_on_wire at 1. rewrite (collect_on_wire_ok g Hw).
    cbn [bind]. rewrite IH, <- app_assoc. reflexivity.
Qed.

(** [wire_gates] after the gate loop, on a wire of nonzero length. *)
Lemma collect_wire_gates_ok (gates : list Gate) (w : Wire) :
  wire_ok w -> collect_wire_gates gates w = Ok (matched_gates gates w).
Proof.
  intros Hw. unfold collect_wire_gates.
  rewrite (collect_wire_gates_from gates Hw). reflexivity.
Qed.

Lemma wire_ok_nth (wires : list Wire) (idx : nat) :
  Forall wire_ok wires -> idx < List.length wires ->
  exists w, nth_error wires idx = Some w /\ nth idx wires (mkWire []) = w /\
            wire_ok w.
Proof.
  intros Hall Hlt. destruct (nth_error wires idx) as [w |] eqn:E.
  - exists w. split; [reflexivity |]. split.
    + apply nth_error_nth. exact E.
    + rewrite Forall_forall in Hall. apply Hall. eapply nth_error_In; eauto.
  - apply nth_error_None in E. lia.
Qed.

(** One wire processed: its block of operations is appended. *)
Lemma process_wire_ok (wires : list Wire) (gates : list Gate) (idx : nat)
  (c : QuantumCircuit) (processed : list nat) :
  Forall wire_ok wires -> idx < List.length wires ->
  process_wire wires gates idx (Some c, processed)
  = Ok (Some (append_ops (wire_block wires gates idx) c),
        set_add idx processed).
Proof.
  intros Hall Hlt. destruct (wire_ok_nth Hall Hlt) as (w & Hn & Hd & Hw).
  unfold process_wire, wire_block. cbn [fst snd emit bind].
  rewrite Hn. cbn [bind]. rewrite (collect_wire_gates_ok gates Hw). cbn [bind].
  rewrite add_gates_ops.
  - rewrite append_op_ops, append_ops_app, Hd. reflexivity.
  - unfold append_op; simpl. destruct (data c); discriminate.
Qed.

(** A whole group processed, in the order given. *)
Lemma process_group_ok (wires : list Wire) (gates : list Gate)
  (order : list nat) :
  Forall wire_ok wires ->
  Forall (fun i => i < List.length wires) order ->
  forall c processed, exists processed',
    for_each order (process_wire wires gates) (Some c, processed)
    = Ok (Some (append_ops (flat_map (wire_block wires gates) order) c),
          processed') /\
    forall x, In x processed' <-> In x processed \/ In x order.
Proof.
  intros Hall. induction 1 as [| i order Hi _ IH]; intros c processed.
  - exists processed. cbn [for_each flat_map]. rewrite append_ops_nil.
    split; [reflexivity |]. intros x. simpl. tauto.
  - cbn [for_each flat_map]. rewrite (process_wire_ok gates c processed Hall Hi).
    cbn [bind].
    destruct (IH (append_ops (wire_block wires gates i) c) (set_add i processed))
      as (p' & Hp' & Hin).
    exists p'. rewrite Hp', append_ops_app. split; [reflexivity |].
    intros x. rewrite Hin, set_add_In. simpl. intuition (subst; auto).
Qed.

Lemma wire_ok_points (w : Wire) : wire_ok w -> points w <> [].
Proof.
  unfold wire_ok. intros H E. apply H. rewrite E. reflexivity.
Qed.

Section Groups.

Variable iter : list nat -> list nat.
Hypothesis iter_perm : forall l, Permutation (iter l) l.

Lemma iter_In (l : list nat) (x : nat) : In x (iter l) <-> In x l.
Proof.
  split; apply Permutation_in;
    [apply iter_perm | apply Permutation_sym, iter_perm].
Qed.

(** The wire loop of [simulate_circuit], from any point of the wire list:
    the blocks of the groups of the seeds met, one group after the other. *)
Lemma process_groups_from (wires : list Wire) (gates : list Gate)
  (connections : list (list nat)) (l : list (nat * Wire)) :
  Forall wire_ok wires ->
  well_keyed connections ->
  List.length connections = List.length wires ->
  Forall (fun iw => fst iw < List.length wires) l ->
  forall c processed, exists seeds processed',
    for_each l (fun iw st =>
      if mem (fst iw) (snd st) then Ok st
      else
        connected_group <- get_connected_wires iter (fst iw) connections ;;
        for_each (iter connected_group) (process_wire wires gates) st)
      (Some c, processed)
    = Ok (Some (append_ops
                  (flat_map (wire_block wires gates)
                     (flat_map (group_order iter connections) seeds)) c),
          processed') /\
    incl seeds (map fst l) /\
    (forall x, In x processed' <->
               In x processed \/
               In x (flat_map (group_order iter connections) seeds)) /\
    (forall iw, In iw l -> In (fst iw) processed').
Proof.
  intros Hall Hwk Hlen. induction 1 as [| [i w] l Hi _ IH]; intros c processed.
  - exists [], processed. cbn [for_each flat_map]. rewrite append_ops_nil.
    split; [reflexivity |]. split; [apply incl_refl |]. split.
    + intros x. simpl. tauto.
    + intros iw [].
  - cbn [for_each fst snd]. cbn [fst] in Hi.
    destruct (mem i processed) eqn:E.
    + cbn [bind]. destruct (IH c processed) as (seeds & p' & Hrun & Hincl & Hin & Hdone).
      exists seeds, p'. split; [exact Hrun |]. split.
      * intros x Hx. right. apply Hincl. exact Hx.
      * split; [exact Hin |].
        intros iw [<- | Hiw]; [| apply Hdone; exact Hiw].
        cbn [fst]. apply Hin. left. apply mem_In. exact E.
    + destruct (@get_connected_wires_closed iter iter_perm i connections Hwk
                  ltac:(lia))
        as (group & visited & _ & Hget & Hstart & _ & _ & Hbound & _).
      rewrite Hget. cbn [bind].
      assert (Hord : Forall (fun k => k < List.length wires) (iter group)).
      { apply Forall_forall. intros x Hx. apply (proj1 (iter_In _ _)) in Hx.
        rewrite <- Hlen. apply Hbound. exact Hx. }
      destruct (@process_group_ok wires gates (iter group) Hall Hord c processed)
        as (p1 & Hp1 & Hin1).
      rewrite Hp1. cbn [bind].
      destruct (IH (append_ops (flat_map (wire_block wires gates) (iter group)) c) p1)
        as (seeds & p' & Hrun & Hincl & Hin & Hdone).
      exists (i :: seeds), p'.
      assert (Hgo : group_order iter connections i = iter group)
        by (unfold group_order; rewrite Hget; reflexivity).
      cbn [flat_map]. rewrite Hgo, Hrun, append_ops_app, <- flat_map_app.
      split; [reflexivity |]. split.
      * intros x [<- | Hx]; [left; reflexivity | right; apply Hincl; exact Hx].
      * split.
        -- intros x. rewrite Hin, Hin1, in_app_iff. tauto.
        -- intros iw [<- | Hiw]; [| apply Hdone; exact Hiw].
           cbn [fst]. apply Hin. left. apply Hin1. right.
           apply iter_In. exact Hstart.
Qed.

End Groups.

(** The segment loop of measurement attachment for one wire. *)
Lemma attach_on_wire_ok (s : point) (idx : nat) (segs : list (point * point))
  (c : QuantumCircuit) (added : bool) :
  attach_on_wire s idx segs (Some c, added)
  = Ok (if existsb (fun seg => on_segment s (fst seg) (snd seg)) segs
        then (Some (append_ops [Measure idx idx] c), true)
        else (Some c, added)).
Proof.
  induction segs as [| [p1 p2] segs IH]; cbn [attach_on_wire existsb fst snd].
  - reflexivity.
  - rewrite point_on_line_segment_decide.
    destruct (on_segment s p1 p2); cbn [orb]; [reflexivity | exact IH].
Qed.

(** The wire loop of measurement attachment for one sensor. *)
Lemma attach_sensor_ok (s : point) (l : list (nat * Wire)) :
  forall c added,
  for_each l (fun iw st' =>
    attach_on_wire s (fst iw) (segments (points (snd iw))) st')
    (Some c, added)
  = Ok (Some (append_ops
                (flat_map (fun iw =>
                   if lies_on s (snd iw) then [Measure (fst iw) (fst iw)]
                   else []) l) c),
        (added || touches l s)%bool).
Proof.
  induction l as [| [i w] l IH]; intros c added; cbn [for_each flat_map].
  - rewrite append_ops_nil. unfold touches; simpl. rewrite orb_false_r. reflexivity.
  - rewrite attach_on_wire_ok. cbn [fst snd]. fold (lies_on s w).
    unfold touches. cbn [existsb snd].
    destruct (lies_on s w); cbn [bind]; rewrite IH.
    + rewrite append_ops_app. unfold touches. rewrite orb_true_r. reflexivity.
    + reflexivity.
Qed.

(** The sensor loop: the measurements of all sensors, and the flag
    [measurements_added]. *)
Lemma attach_sensors_from (wires : list Wire) (sensors : list point) :
  forall c added,
  for_each sensors (fun sensor_pos st =>
    for_each (enumerate wires) (fun iw st' =>
      attach_on_wire sensor_pos (fst iw) (segments (points (snd iw))) st')
      st) (Some c, added)
  = Ok (Some (append_ops (measure_ops wires sensors) c),
        (added || existsb (touches (enumerate wires)) sensors)%bool).
Proof.
  unfold measure_ops.
  induction sensors as [| s sensors IH]; intros c added; cbn [for_each flat_map existsb].
  - rewrite append_ops_nil, orb_false_r. reflexivity.
  - rewrite attach_sensor_ok. cbn [bind]. rewrite IH, append_ops_app.
    unfold sensor_measurements. rewrite orb_assoc. reflexivity.
Qed.

Lemma attach_measurements_ok (wires : list Wire) (sensors : list point)
  (c : QuantumCircuit) :
  attach_measurements wires sensors (Some c)
  = Ok (Some (append_ops (measure_ops wires sensors) c),
        existsb (touches (enumerate wires)) sensors).
Proof. unfold attach_measurements. rewrite attach_sensors_from. reflexivity. Qed.

Lemma sensor_measurements_nil (wires : list Wire) (s : point) :
  sensor_measurements wires s = [] <-> touches (enumerate wires) s = false.
Proof.
  unfold sensor_measurements, touches.
  induction (enumerate wires) as [| [i w] l IH]; cbn [flat_map existsb snd fst].
  - tauto.
  - destruct (lies_on s w); cbn [orb app].
    + split; discriminate.
    + exact IH.
Qed.

Lemma measure_ops_nil (wires : list Wire) (sensors : list point) :
  measure_ops wires sensors = [] <->
  existsb (touches (enumerate wires)) sensors = false.
Proof.
  unfold measure_ops.
  induction sensors as [| s sensors IH]; cbn [flat_map existsb].
  - tauto.
  - rewrite orb_false_iff, <- IH, <- sensor_measurements_nil.
    split.
    + intros H. apply app_eq_nil in H. exact H.
    + intros [-> ->]. reflexivity.
Qed.

Lemma initialize_circuit_nonempty (wires : list Wire)
  (old : option QuantumCircuit) :
  wires <> [] ->
  initialize_circuit wires old
  = Some (mkCircuit (Nat.max (List.length wires) 1)
                    (Nat.max (List.length wires) 1) []).
Proof. destruct wires; [congruence | reflexivity]. Qed.

Lemma wires_have_points (wires : list Wire) :
  Forall wire_ok wires -> Forall (fun w => points w <> []) wires.
Proof.
  intros H. eapply Forall_impl; [| exact H]. intros w. apply wire_ok_points.
Qed.


(** The circuit [compile] builds for a diagram whose wires have nonzero
    length: the blocks of the wires, group after group, then the
    measurements. *)
Lemma compile_ok (iter : list nat -> list nat)
  (iter_perm : forall l, Permutation (iter l) l)
  (old : option QuantumCircuit) (wires : list Wire) (gates : list Gate)
  (sensors : list point) :
  wires <> [] -> Forall wire_ok wires ->
  exists connections seeds,
    find_wire_connections wires = Ok connections /\
    compile iter old wires gates sensors
    = Ok (Some (mkCircuit (Nat.max (List.length wires) 1)
                  (Nat.max (List.length wires) 1)
                  (flat_map (wire_block wires gates)
                     (flat_map (group_order iter connections) seeds)
                   ++ measurement_part wires sensors))) /\
    incl seeds (seq 0 (List.length wires)) /\
    (forall i, i < List.length wires ->
               In i (flat_map (group_order iter connections) seeds)).
Proof.
  intros Hne Hall.
  destruct (find_wire_connections_spec (wires_have_points Hall))
    as (conns & Hconns & Hlen & Hrow).
  destruct (find_wire_connections_well_keyed (wires_have_points Hall) Hconns)
    as [Hwk _].
  assert (Hfst : Forall (fun iw : nat * Wire => fst iw < List.length wires)
                        (enumerate wires)).
  { apply Forall_forall. intros [i w] Hin. apply enumerate_In in Hin.
    cbn [fst]. apply nth_error_Some. congruence. }
  destruct (@process_groups_from iter iter_perm wires gates conns
              (enumerate wires) Hall Hwk Hlen Hfst
              (mkCircuit (Nat.max (List.length wires) 1)
                         (Nat.max (List.length wires) 1) []) [])
    as (seeds & p' & Hrun & Hincl & Hin & Hdone).
  exists conns, seeds. split; [exact Hconns |]. split; [| split].
  - unfold compile. rewrite Hconns. cbn [bind]. unfold process_groups.
    rewrite (initialize_circuit_nonempty old Hne), Hrun. cbn [bind fst].
    rewrite attach_measurements_ok. cbn [bind fst snd].
    unfold measurement_part.
    destruct (existsb (touches (enumerate wires)) sensors) eqn:E; cbn [negb].
    + destruct (measure_ops wires sensors) eqn:Em.
      * apply measure_ops_nil in Em. congruence.
      * reflexivity.
    + apply measure_ops_nil in E. rewrite E. cbn [emit].
      rewrite append_ops_nil. reflexivity.
  - intros x Hx. apply Hincl in Hx. apply in_map_iff in Hx.
    destruct Hx as ([i w] & <- & Hiw). apply enumerate_In in Hiw.
    apply in_seq. cbn [fst]. split; [lia |]. simpl.
    apply nth_error_Some. congruence.
  - intros i Hi. destruct (nth_error wires i) as [w |] eqn:E;
      [| apply nth_error_None in E; lia].
    assert (Hiw : In (i, w) (enumerate wires)) by (apply enumerate_In; exact E).
    specialize (Hdone _ Hiw). cbn [fst] in Hdone. apply Hin in Hdone.
    destruct Hdone as [[] | H]; exact H.
Qed.

Lemma matched_on_segments (g : Gate) (k : R) (segs : list (point * point)) :
  flat_map (fun seg => if on_segment (pos g) (fst seg) (snd seg)
                       then [(g, k)] else []) segs
  = map (fun g' => (g', k))
        (flat_map (fun seg => if on_segment (pos g) (fst seg) (snd seg)
                              then [g] else []) segs).
Proof.
  induction segs as [| seg segs IH]; cbn [flat_map map]; [reflexivity |].
  rewrite map_app, IH.
  destruct (on_segment (pos g) (fst seg) (snd seg)); reflexivity.
Qed.

Lemma gates_on_same (g g' : Gate) (segs : list (point * point)) :
  In g' (flat_map (fun seg => if on_segment (pos g) (fst seg) (snd seg)
                              then [g] else []) segs) -> g' = g.
Proof.
  rewrite in_flat_map. intros (seg & _ & H).
  destruct (on_segment (pos g) (fst seg) (snd seg)); [| contradiction].
  destruct H as [<- | []]. reflexivity.
Qed.

Lemma matched_gates_keys (gates : list Gate) (w : Wire) :
  matched_gates gates w
  = map (fun g => (g, position_on (pos g) w)) (gates_on gates w).
Proof.
  unfold matched_gates, gates_on.
  induction gates as [| g gates IH]; cbn [flat_map map]; [reflexivity |].
  rewrite map_app, IH. f_equal.
  rewrite matched_on_segments. apply map_ext_in.
  intros g' Hg'. apply gates_on_same in Hg'. subst g'. reflexivity.
Qed.

Lemma junction_wires_ok : Forall wire_ok junction_wires.
Proof.
  unfold junction_wires, wire_ok.
  repeat constructor; cbn [points segments length_sum fst snd];
    eval_euclid; lra.
Qed.

Lemma finish_measurements (wires : list Wire) (sensors : list point)
  (c : QuantumCircuit) :
  (m <- attach_measurements wires sensors (Some c) ;;
   if negb (snd m) then emit MeasureAll (fst m) else Ok (fst m))
  = Ok (Some (append_ops (measurement_part wires sensors) c)).
Proof.
  rewrite attach_measurements_ok. cbn [bind fst snd].
  unfold measurement_part.
  destruct (existsb (touches (enumerate wires)) sensors) eqn:E; cbn [negb].
  - destruct (measure_ops wires sensors) eqn:Em; [| reflexivity].
    apply measure_ops_nil in Em. congruence.
  - apply measure_ops_nil in E. rewrite E. cbn [emit].
    rewrite append_ops_nil. reflexivity.
Qed.

(** The circuit compiled for two joined wires, sets iterated in ascending
    order: the block of wire 0, the block of wire 1, the measurements. *)
Lemma compile_junction (gates : list Gate) (sensors : list point) :
  compile ascending None junction_wires gates sensors
  = Ok (Some (mkCircuit 2 2
                (wire_block junction_wires gates 0
                 ++ wire_block junction_wires gates 1
                 ++ measurement_part junction_wires sensors))).
Proof.
  unfold compile.
  replace (find_wire_connections junction_wires) with (Ok [[1]; [0]])
    by (vm_compute; reflexivity).
  cbn [bind]. unfold process_groups.
  change (enumerate junction_wires)
    with [(0, nth 0 junction_wires (mkWire []));
          (1, nth 1 junction_wires (mkWire []))].
  cbn [for_each fst snd mem existsb].
  replace (get_connected_wires ascending 0 [[1]; [0]]) with (Ok [0; 1])
    by (vm_compute; reflexivity).
  cbn [bind]. change (ascending [0; 1]) with [0; 1]. cbn [for_each].
  rewrite (@initialize_circuit_nonempty junction_wires None) by discriminate.
  rewrite process_wire_ok by (apply junction_wires_ok || (simpl; lia)).
  cbn [bind].
  rewrite process_wire_ok by (apply junction_wires_ok || (simpl; lia)).
  cbn [bind fst snd].
  replace (mem 1 (set_add 1 (set_add 0 []))) with true by reflexivity.
  cbn [bind fst snd for_each].
  rewrite finish_measurements, !append_ops_app. reflexivity.
Qed.

(** [lies_on] is the test of the source: [point_on_line_segment] holds on
    some segment of the wire. *)
Lemma lies_on_code (p : point) (w : Wire) :
  lies_on p w
  = existsb (fun seg => point_on_line_segment p (fst seg) (snd seg))
            (segments (points w)).
Proof.
  unfold lies_on. induction (segments (points w)) as [| seg segs IH];
    cbn [existsb]; [reflexivity |].
  rewrite IH, point_on_line_segment_decide. reflexivity.
Qed.

Lemma sensor_measurements_from (s : point) (ws : list Wire) : forall a,
  flat_map (fun iw : nat * Wire =>
              if lies_on s (snd iw) then [Measure (fst iw) (fst iw)] else [])
           (combine (seq a (List.length ws)) ws)
  = map (fun i => Measure i i)
        (filter (fun i => lies_on s (nth (i - a) ws (mkWire [])))
                (seq a (List.length ws))).
Proof.
  induction ws as [| w ws IH]; intros a; [reflexivity |].
  cbn [List.length seq combine flat_map filter fst snd].
  rewrite Nat.sub_diag. cbn [nth]. rewrite IH.
  rewrite (@filter_ext_in _
             (fun i => lies_on s (nth (i - a) (w :: ws) (mkWire [])))
             (fun i => lies_on s (nth (i - S a) ws (mkWire [])))).
  - destruct (lies_on s w); reflexivity.
  - intros i Hi. apply in_seq in Hi.
    replace (i - a) with (S (i - S a)) by lia. reflexivity.
Qed.

Lemma sensor_measurements_filter (wires : list Wire) (s : point) :
  sensor_measurements wires s
  = map (fun i => Measure i i)
        (filter (fun i => lies_on s (nth i wires (mkWire [])))
                (seq 0 (List.length wires))).
Proof.
  unfold sensor_measurements, enumerate. rewrite sensor_measurements_from.
  f_equal. apply filter_ext. intros i. rewrite Nat.sub_0_r. reflexivity.
Qed.

Lemma touches_enumerate (wires : list Wire) (s : point) :
  touches (enumerate wires) s = existsb (lies_on s) wires.
Proof.
  unfold touches, enumerate. generalize 0.
  induction wires as [| w ws IH]; intros a; [reflexivity |].
  cbn [List.length seq combine existsb snd]. rewrite IH. reflexivity.
Qed.

(** C1, as amended: for every sensor, in the order of the sensor list, the
    compiler appends one measurement [measure(i, i)] for EVERY wire [i] the
    sensor lies on, in collection order (only the scan of the segments of
    one wire stops at the first match); [measurements_added] is set when
    some sensor lies on some wire. *)
Theorem measurement_attachment (wires : list Wire) (sensors : list point)
  (c : QuantumCircuit) :
  attach_measurements wires sensors (Some c)
  = Ok (Some (append_ops
                (flat_map (fun s =>
                   map (fun i => Measure i i)
                       (filter (fun i =>
                          existsb (fun seg =>
                            point_on_line_segment s (fst seg) (snd seg))
                            (segments (points (nth i wires (mkWire [])))))
                          (seq 0 (List.length wires)))) sensors) c),
        existsb (fun s =>
          existsb (fun w =>
            existsb (fun seg => point_on_line_segment s (fst seg) (snd seg))
                    (segments (points w))) wires) sensors).
Proof.
  rewrite attach_measurements_ok.
  assert (Hs : forall s, touches (enumerate wires) s
               = existsb (fun w =>
                   existsb (fun seg =>
                     point_on_line_segment s (fst seg) (snd seg))
                     (segments (points w))) wires).
  { intros s. rewrite touches_enumerate.
    induction wires as [| w ws IHw]; cbn [existsb]; [reflexivity |].
    rewrite IHw, lies_on_code. reflexivity. }
  assert (Hflag : existsb (touches (enumerate wires)) sensors
                  = existsb (fun s =>
                      existsb (fun w =>
                        existsb (fun seg =>
                          point_on_line_segment s (fst seg) (snd seg))
                          (segments (points w))) wires) sensors).
  { induction sensors as [| s sensors IH]; cbn [existsb]; [reflexivity |].
    rewrite IH, Hs. reflexivity. }
  assert (Hops : measure_ops wires sensors
                 = flat_map (fun s =>
                     map (fun i => Measure i i)
                       (filter (fun i =>
                          existsb (fun seg =>
                            point_on_line_segment s (fst seg) (snd seg))
                            (segments (points (nth i wires (mkWire [])))))
                          (seq 0 (List.length wires)))) sensors).
  { unfold measure_ops. apply flat_map_ext. intros s.
    rewrite sensor_measurements_filter. f_equal. apply filter_ext.
    intros i. apply lies_on_code. }
  rewrite Hflag, Hops. reflexivity.
Qed.

(** C1 fails as stated: a sensor on the point where two wires meet gets
    two measurements, one per wire, where binding it to the first wire
    only would give one. *)
Lemma sensor_on_two_wires_counterexample :
  compile ascending None junction_wires [] [(100, 100)%Z]
  = Ok (Some (mkCircuit 2 2 [Reset 0; Reset 1; Measure 0 0; Measure 1 1])) /\
  first_wire_measurement junction_wires (100, 100)%Z = [Measure 0 0] /\
  sensor_measurements junction_wires (100, 100)%Z
  <> first_wire_measurement junction_wires (100, 100)%Z.
Proof.
  split; [| split].
  - rewrite compile_junction.
    replace (measurement_part junction_wires [(100, 100)%Z])
      with [Measure 0 0; Measure 1 1] by (vm_compute; reflexivity).
    reflexivity.
  - vm_compute. reflexivity.
  - vm_compute. discriminate.
Qed.

(** C3 fails as stated: for two wires joined at (100,100) and a CNOT in
    the middle of wire 0, the circuit is reset(0), cx(0,1), reset(1): the
    gate of wire 0 comes before the reset of wire 1. *)
Lemma reset_order_counterexample :
  compile ascending None junction_wires [cnot_gate] []
  = Ok (Some (mkCircuit 2 2 [Reset 0; CX 0 1; Reset 1; MeasureAll])) /\
  compile ascending None junction_wires [cnot_gate] []
  <> Ok (Some (mkCircuit 2 2 [Reset 0; Reset 1; CX 0 1; MeasureAll])).
Proof.
  assert (H : compile ascending None junction_wires [cnot_gate] []
              = Ok (Some (mkCircuit 2 2
                            [Reset 0; CX 0 1; Reset 1; MeasureAll]))).
  { rewrite compile_junction. unfold wire_block.
    rewrite !matched_gates_keys.
    replace (gates_on [cnot_gate] (nth 0 junction_wires (mkWire [])))
      with [cnot_gate] by (vm_compute; reflexivity).
    replace (gates_on [cnot_gate] (nth 1 junction_wires (mkWire [])))
      with (@nil Gate) by (vm_compute; reflexivity).
    reflexivity. }
  split; [exact H |]. rewrite H. discriminate.
Qed.

(** C3, as amended: the wires are processed group after group, the group
    of each seed in the order in which its set is iterated (which the code
    does not fix), and each wire as one block: its reset immediately
    followed by its own gate operations; every wire is processed, and the
    measurements come last. *)
Theorem compile_emits_blocks (iter : list nat -> list nat)
  (iter_perm : forall l, Permutation (iter l) l)
  (old : option QuantumCircuit) (wires : list Wire) (gates : list Gate)
  (sensors : list point) :
  wires <> [] -> Forall wire_ok wires ->
  exists connections seeds,
    find_wire_connections wires = Ok connections /\
    compile iter old wires gates sensors
    = Ok (Some (mkCircuit (Nat.max (List.length wires) 1)
                  (Nat.max (List.length wires) 1)
                  (flat_map (fun i =>
                     Reset i ::
                     flat_map (fun g => gate_ops (List.length wires) i
                                                 (gate_type (fst g)))
                       (sort_by_key
                          (matched_gates gates (nth i wires (mkWire [])))))
                     (flat_map (group_order iter connections) seeds)
                   ++ measurement_part wires sensors))) /\
    incl seeds (seq 0 (List.length wires)) /\
    (forall i, i < List.length wires ->
               In i (flat_map (group_order iter connections) seeds)).
Proof.
  intros Hne Hall.
  destruct (@compile_ok iter iter_perm old wires gates sensors Hne Hall)
    as (conns & seeds & H1 & H2 & H3 & H4).
  exists conns, seeds. auto.
Qed.

Lemma compile_emits_blocks_witness :
  exists connections seeds,
    find_wire_connections junction_wires = Ok connections /\
    compile ascending None junction_wires [cnot_gate] []
    = Ok (Some (mkCircuit 2 2
                  (flat_map (fun i =>
                     Reset i ::
                     flat_map (fun g => gate_ops 2 i (gate_type (fst g)))
                       (sort_by_key
                          (matched_gates [cnot_gate]
                             (nth i junction_wires (mkWire [])))))
                     (flat_map (group_order ascending connections) seeds)
                   ++ measurement_part junction_wires []))) /\
    incl seeds (seq 0 2) /\
    (forall i, i < 2 ->
               In i (flat_map (group_order ascending connections) seeds)).
Proof.
  apply (@compile_emits_blocks ascending ascending_perm None junction_wires
           [cnot_gate] []).
  - discriminate.
  - exact junction_wires_ok.
Defined.

Lemma gate_ops_not_measurement (n idx : nat) (ty : string) :
  forallb (fun o => negb (is_measurement o)) (gate_ops n idx ty) = true.
Proof.
  unfold gate_ops.
  repeat match goal with
         | |- context [if ?b then _ else _] => destruct b
         end; reflexivity.
Qed.

Lemma forallb_flat_map {A B : Type} (p : B -> bool) (f : A -> list B)
  (l : list A) :
  (forall a, In a l -> forallb p (f a) = true) ->
  forallb p (flat_map f l) = true.
Proof.
  intros H. induction l as [| a l IH]; cbn [flat_map]; [reflexivity |].
  rewrite forallb_app, H by (left; reflexivity).
  apply IH. intros b Hb. apply H. right; exact Hb.
Qed.

Lemma wire_block_not_measurement (wires : list Wire) (gates : list Gate)
  (idx : nat) :
  forallb (fun o => negb (is_measurement o)) (wire_block wires gates idx)
  = true.
Proof.
  unfold wire_block. cbn [forallb is_measurement negb andb].
  apply forallb_flat_map. intros g _. apply gate_ops_not_measurement.
Qed.

Lemma measure_ops_In (wires : list Wire) (sensors : list point) (o : op) :
  In o (measure_ops wires sensors) <->
  exists i w s, o = Measure i i /\ nth_error wires i = Some w /\
                In s sensors /\ lies_on s w = true.
Proof.
  unfold measure_ops, sensor_measurements. rewrite in_flat_map. split.
  - intros (s & Hs & Ho). apply in_flat_map in Ho.
    destruct Ho as ([i w] & Hiw & Ho). cbn [fst snd] in Ho.
    destruct (lies_on s w) eqn:E; [| contradiction].
    destruct Ho as [<- | []]. exists i, w, s.
    apply enumerate_In in Hiw. auto.
  - intros (i & w & s & -> & Hw & Hs & Hl). exists s. split; [exact Hs |].
    apply in_flat_map. exists (i, w). split; [apply enumerate_In; exact Hw |].
    cbn [fst snd]. rewrite Hl. left; reflexivity.
Qed.

(** Calls that are not measurements leave the classical bits and the
    measurements of a circuit as they are. *)
Lemma measured_skip (n : nat) (body rest : list op) :
  forallb (fun o => negb (is_measurement o)) body = true ->
  forall clbits,
    clbits_after n clbits (body ++ rest) = clbits_after n clbits rest /\
    measured n clbits (body ++ rest) = measured n clbits rest.
Proof.
  induction body as [| o body IH]; intros Hb clbits; [split; reflexivity |].
  cbn [forallb] in Hb. apply andb_true_iff in Hb. destruct Hb as [Ho Hb].
  destruct o; cbn [is_measurement negb] in Ho; try discriminate;
    cbn [app clbits_after measured]; apply IH; exact Hb.
Qed.

(** Calls of [measure] add no bit, and each is one measurement. *)
Lemma measured_measure_calls (n : nat) (ms : list op) :
  (forall o, In o ms -> exists q c, o = Measure q c) ->
  forall clbits,
    clbits_after n clbits ms = clbits /\
    forall q c, In (q, c) (measured n clbits ms) <-> In (Measure q c) ms.
Proof.
  induction ms as [| o ms IH]; intros Hms clbits.
  - split; [reflexivity |]. intros q c. cbn. tauto.
  - destruct (Hms o (or_introl eq_refl)) as (q0 & c0 & ->).
    destruct (IH (fun o Ho => Hms o (or_intror Ho)) clbits) as [Hc Hm].
    cbn [clbits_after measured]. split; [exact Hc |].
    intros q c. cbn [In]. rewrite Hm. split.
    + intros [E | H]; [left; inversion E; reflexivity | right; exact H].
    + intros [E | H]; [left; inversion E; reflexivity | right; exact H].
Qed.

(** The fallback on a circuit of [n] qubits and [n] classical bits. *)
Lemma measured_measure_all (n : nat) :
  clbits_after n n [MeasureAll] = n + n /\
  measured n n [MeasureAll] = map (fun i => (i, n + i)) (seq 0 n).
Proof. cbn [clbits_after measured]. rewrite app_nil_r. split; reflexivity. Qed.

Lemma max_length_nonempty {A : Type} (l : list A) :
  l <> [] -> Nat.max (List.length l) 1 = List.length l.
Proof. destruct l; [congruence |]. intros _. cbn [List.length]. lia. Qed.

(** C4: when no sensor lies on any wire (in particular when there is no
    sensor), the compiled circuit ends with the single fallback call
    [measure_all()] and holds no other measurement; this call measures
    every qubit [i], not into bit [i] of the classical register allocated
    with the circuit, but into bit [i] of a register it adds behind that
    one, so that the circuit has twice as many classical bits as wires.
    When some sensor lies on some wire, [measure_all()] is not called, the
    measurements are exactly those of the wires [i] some sensor lies on,
    each into bit [i] of the register allocated with the circuit, and no
    bit is added. *)
Theorem measurement_fallback (iter : list nat -> list nat)
  (iter_perm : forall l, Permutation (iter l) l)
  (old : option QuantumCircuit) (wires : list Wire) (gates : list Gate)
  (sensors : list point) :
  wires <> [] -> Forall wire_ok wires ->
  exists qc body calls,
    compile iter old wires gates sensors = Ok (Some qc) /\
    num_qubits qc = List.length wires /\
    cr qc = List.length wires /\
    data qc = body ++ calls /\
    forallb (fun o => negb (is_measurement o)) body = true /\
    ((forall s w, In s sensors -> In w wires -> lies_on s w = false) ->
     calls = [MeasureAll] /\
     num_clbits qc = List.length wires + List.length wires /\
     measurements qc
     = map (fun i => (i, List.length wires + i))
           (seq 0 (List.length wires))) /\
    ((exists s w, In s sensors /\ In w wires /\ lies_on s w = true) ->
     (forall o, In o calls <->
        exists i w s, o = Measure i i /\ nth_error wires i = Some w /\
                      In s sensors /\ lies_on s w = true) /\
     num_clbits qc = List.length wires /\
     (forall q c, In (q, c) (measurements qc) <->
        c = q /\
        exists w s, nth_error wires q = Some w /\ In s sensors /\
                    lies_on s w = true)).
Proof.
  intros Hne Hall.
  destruct (@compile_ok iter iter_perm old wires gates sensors Hne Hall)
    as (conns & seeds & _ & Hc & _ & _).
  rewrite (max_length_nonempty Hne) in Hc.
  set (body := flat_map (wire_block wires gates)
                 (flat_map (group_order iter conns) seeds)) in *.
  assert (Hbody : forallb (fun o => negb (is_measurement o)) body = true).
  { apply forallb_flat_map. intros i _. apply wire_block_not_measurement. }
  eexists; exists body, (measurement_part wires sensors).
  split; [exact Hc |].
  unfold num_qubits, num_clbits, measurements. cbn [qr cr data].
  split; [reflexivity |]. split; [reflexivity |]. split; [reflexivity |].
  split; [exact Hbody |].
  destruct (@measured_skip (List.length wires) body
              (measurement_part wires sensors) Hbody (List.length wires))
    as [-> ->].
  split.
  - intros Hnone.
    assert (E : measurement_part wires sensors = [MeasureAll]).
    { unfold measurement_part.
      destruct (measure_ops wires sensors) as [| o ms] eqn:E; [reflexivity |].
      exfalso. assert (Ho : In o (measure_ops wires sensors))
        by (rewrite E; left; reflexivity).
      apply measure_ops_In in Ho.
      destruct Ho as (i & w & s & _ & Hw & Hs & Hl).
      rewrite (Hnone s w Hs (nth_error_In _ _ Hw)) in Hl. discriminate. }
    rewrite E. split; [reflexivity |]. apply measured_measure_all.
  - intros (s & w & Hs & Hw & Hl).
    assert (E : measurement_part wires sensors = measure_ops wires sensors).
    { unfold measurement_part.
      destruct (measure_ops wires sensors) as [| o' ms] eqn:E;
        [| reflexivity].
      exfalso. apply In_nth_error in Hw. destruct Hw as [i Hi].
      assert (Ho : In (Measure i i) (measure_ops wires sensors))
        by (apply measure_ops_In; exists i, w, s; auto).
      rewrite E in Ho. exact Ho. }
    rewrite E.
    assert (Hms : forall o, In o (measure_ops wires sensors) ->
                            exists q c, o = Measure q c).
    { intros o Ho. apply measure_ops_In in Ho.
      destruct Ho as (i & _ & _ & -> & _). exists i, i. reflexivity. }
    destruct (@measured_measure_calls (List.length wires) _ Hms
                (List.length wires)) as [Hcl Hm].
    split; [apply measure_ops_In |]. split; [exact Hcl |].
    intros q c. rewrite Hm, measure_ops_In. split.
    + intros (i & w' & s' & E' & Hw' & Hs' & Hl'). inversion E'; subst.
      split; [reflexivity |]. exists w', s'. auto.
    + intros (-> & w' & s' & Hw' & Hs' & Hl').
      exists q, w', s'. auto.
Qed.

(** C4 on the two joined wires without any sensor. *)
Lemma measurement_fallback_witness :
  exists qc,
    compile ascending None junction_wires [cnot_gate] [] = Ok (Some qc) /\
    num_qubits qc = 2 /\
    num_clbits qc = 4 /\
    measurements qc = [(0, 2); (1, 3)].
Proof.
  destruct (@measurement_fallback ascending ascending_perm None
              junction_wires [cnot_gate] []
              ltac:(discriminate) junction_wires_ok)
    as (qc & body & ms & H1 & H2 & H3 & H4 & H5 & H6 & _).
  exists qc. split; [exact H1 |]. split; [exact H2 |].
  destruct (H6 (fun s w (H : In s []) => match H with end))
    as (_ & Hcl & Hm).
  split; [exact Hcl | exact Hm].
Defined.

(** C4, as the claim words it, fails on the two joined wires without any
    sensor: the fallback does not measure qubit 0 into bit 0 and qubit 1
    into bit 1 of the classical register allocated with the circuit, which
    has the bits 0 and 1; it measures them into the bits 2 and 3, which
    the call of [measure_all()] adds. *)
Lemma fallback_register_counterexample :
  exists qc,
    compile ascending None junction_wires [cnot_gate] [] = Ok (Some qc) /\
    cr qc = 2 /\
    measurements qc = [(0, 2); (1, 3)] /\
    measurements qc <> [(0, 0); (1, 1)] /\
    num_clbits qc = 4.
Proof.
  eexists. split; [apply compile_junction |].
  unfold measurements, num_clbits. cbn [qr cr data].
  rewrite !app_assoc.
  destruct (@measured_skip 2
              (wire_block junction_wires [cnot_gate] 0
               ++ wire_block junction_wires [cnot_gate] 1)
              (measurement_part junction_wires [])) with (clbits := 2)
    as [-> ->].
  { rewrite forallb_app, !wire_block_not_measurement. reflexivity. }
  change (measurement_part junction_wires []) with [MeasureAll].
  cbn [clbits_after measured map seq app Nat.add].
  repeat split; discriminate.
Qed.

Lemma insert_by_key_perm (x : Gate * R) (l : list (Gate * R)) :
  Permutation (insert_by_key x l) (x :: l).
Proof.
  induction l as [| y t IH]; cbn [insert_by_key]; [apply Permutation_refl |].
  destruct (Rle_dec (snd x) (snd y)); [apply Permutation_refl |].
  rewrite IH. apply perm_swap.
Qed.

Lemma sort_by_key_perm (l : list (Gate * R)) : Permutation (sort_by_key l) l.
Proof.
  induction l as [| x t IH]; cbn [sort_by_key fold_right]; [constructor |].
  rewrite insert_by_key_perm. apply perm_skip. exact IH.
Qed.

Lemma sort_by_key_In (l : list (Gate * R)) (x : Gate * R) :
  In x (sort_by_key l) <-> In x l.
Proof.
  split; apply Permutation_in;
    [apply sort_by_key_perm | apply Permutation_sym, sort_by_key_perm].
Qed.

Lemma last_match_lies_on (pt : point) (w : Wire) :
  lies_on pt w = true <->
  exists i, last_match pt (segments (points w)) = Some i.
Proof.
  unfold lies_on. induction (segments (points w)) as [| s segs IH];
    cbn [existsb last_match].
  - split; [discriminate | intros [i H]; discriminate].
  - destruct (last_match pt segs) as [j |].
    + split; [eauto |]. intros _. apply orb_true_iff. right.
      apply IH. eauto.
    + destruct (on_segment pt (fst s) (snd s)); cbn [orb].
      * split; eauto.
      * rewrite IH. split; intros [i H]; discriminate.
Qed.

Lemma gates_on_In (gates : list Gate) (w : Wire) (g : Gate) :
  In g (gates_on gates w) <-> In g gates /\ lies_on (pos g) w = true.
Proof.
  unfold gates_on, lies_on. rewrite in_flat_map. split.
  - intros (g' & Hg' & Hin). pose proof (gates_on_same _ _ _ Hin) as ->.
    split; [exact Hg' |]. apply in_flat_map in Hin.
    destruct Hin as (seg & Hseg & Hin). apply existsb_exists. exists seg.
    split; [exact Hseg |].
    destruct (on_segment (pos g') (fst seg) (snd seg));
      [reflexivity | contradiction].
  - intros [Hg Hl]. exists g. split; [exact Hg |].
    apply existsb_exists in Hl. destruct Hl as (seg & Hseg & Hon).
    apply in_flat_map. exists seg. split; [exact Hseg |]. rewrite Hon.
    left; reflexivity.
Qed.

(** C2, as amended: on a wire of nonzero length, [wire_gates] holds the
    gates lying on some segment of the wire and no other, each keyed by
    its position along the wire, which is measured on the LAST segment, in
    point order, the gate lies on; after the reset of the wire, the
    operations appended are those of these gates and no other. *)
Theorem gates_on_wire (wires : list Wire) (gates : list Gate) (idx : nat)
  (c : QuantumCircuit) (processed : list nat) :
  Forall wire_ok wires -> idx < List.length wires ->
  exists wire_gates ops,
    collect_wire_gates gates (nth idx wires (mkWire [])) = Ok wire_gates /\
    process_wire wires gates idx (Some c, processed)
    = Ok (Some (append_ops (Reset idx :: ops) c), set_add idx processed) /\
    (forall g r, In (g, r) wire_gates <->
       In g gates /\ lies_on (pos g) (nth idx wires (mkWire [])) = true /\
       get_position_along_wire (pos g) (nth idx wires (mkWire [])) = Ok r) /\
    (forall g, lies_on (pos g) (nth idx wires (mkWire [])) = true ->
       exists i,
         last_match (pos g) (segments (points (nth idx wires (mkWire []))))
         = Some i /\
         get_position_along_wire (pos g) (nth idx wires (mkWire []))
         = Ok (fraction_at (pos g)
                 (segments (points (nth idx wires (mkWire [])))) i)) /\
    (forall o, In o ops <->
       exists g, In g gates /\
                 lies_on (pos g) (nth idx wires (mkWire [])) = true /\
                 In o (gate_ops (List.length wires) idx (gate_type g))).
Proof.
  intros Hall Hlt.
  destruct (wire_ok_nth Hall Hlt) as (w & Hn & Hd & Hw). rewrite Hd.
  exists (matched_gates gates w).
  exists (flat_map (fun g => gate_ops (List.length wires) idx
                                      (gate_type (fst g)))
            (sort_by_key (matched_gates gates w))).
  split; [apply collect_wire_gates_ok; exact Hw |].
  split; [rewrite (process_wire_ok gates c processed Hall Hlt);
          unfold wire_block; rewrite Hd; reflexivity |].
  split; [| split].
  - intros g r. rewrite matched_gates_keys, in_map_iff.
    rewrite (get_position_along_wire_ok (pos g) Hw). split.
    + intros (g' & Heq & Hin). inversion Heq; subst.
      apply (proj1 (gates_on_In _ _ _)) in Hin. tauto.
    + intros (Hg & Hl & Hr). inversion Hr; subst. exists g.
      split; [reflexivity |]. apply (proj2 (gates_on_In _ _ _)). tauto.
  - intros g Hl. apply (proj1 (last_match_lies_on _ _)) in Hl. destruct Hl as [i Hi].
    exists i. split; [exact Hi |].
    rewrite (get_position_along_wire_ok (pos g) Hw). unfold position_on.
    rewrite Hi. reflexivity.
  - intros o. rewrite in_flat_map. split.
    + intros ([g r] & Hin & Ho). apply (proj1 (sort_by_key_In _ _)) in Hin.
      rewrite matched_gates_keys in Hin. apply in_map_iff in Hin.
      destruct Hin as (g' & Heq & Hin). inversion Heq; subst.
      apply (proj1 (gates_on_In _ _ _)) in Hin. exists g. cbn [fst] in Ho. tauto.
    + intros (g & Hg & Hl & Ho). exists (g, position_on (pos g) w).
      split; [| exact Ho]. apply (proj2 (sort_by_key_In _ _)).
      rewrite matched_gates_keys. apply in_map_iff. exists g.
      split; [reflexivity |]. apply (proj2 (gates_on_In _ _ _)). tauto.
Qed.

Lemma retraced_wire_ok : Forall wire_ok [retraced_wire].
Proof.
  repeat constructor. unfold wire_ok. rewrite retraced_length.
  apply Rgt_not_eq. lra.
Qed.

(** C2 on the wire that passes its start again, with a gate on the
    start. *)
Lemma gates_on_wire_witness :
  exists wire_gates ops,
    collect_wire_gates [h_gate] (nth 0 [retraced_wire] (mkWire []))
    = Ok wire_gates /\
    process_wire [retraced_wire] [h_gate] 0
                 (Some (mkCircuit 1 1 []), [])
    = Ok (Some (append_ops (Reset 0 :: ops) (mkCircuit 1 1 [])),
          set_add 0 []) /\
    (forall o, In o ops <->
       exists g, In g [h_gate] /\
                 lies_on (pos g) (nth 0 [retraced_wire] (mkWire [])) = true /\
                 In o (gate_ops 1 0 (gate_type g))).
Proof.
  destruct (@gates_on_wire [retraced_wire] [h_gate] 0 (mkCircuit 1 1 []) []
              retraced_wire_ok ltac:(simpl; lia))
    as (wg & ops & H1 & H2 & _ & _ & H5).
  exists wg, ops. auto.
Defined.

(** C2 fails as stated: on the wire (0,0), (20,0), (0,0), (0,20) a gate on
    (0,0) lies on three segments; it is entered three times, so three
    Hadamard operations are emitted for the one gate, and its key is 2/3,
    measured on the last of the three segments, where the first would
    give 0. *)
Lemma gate_on_several_segments_counterexample :
  collect_wire_gates [h_gate] retraced_wire
  = Ok [(h_gate, (2 / 3)%R); (h_gate, (2 / 3)%R); (h_gate, (2 / 3)%R)] /\
  process_wire [retraced_wire] [h_gate] 0 (Some (mkCircuit 1 1 []), [])
  = Ok (Some (mkCircuit 1 1 [Reset 0; Hgate 0; Hgate 0; Hgate 0]), [0]) /\
  position_first_match (pos h_gate) retraced_wire = Some 0%R /\
  get_position_along_wire (pos h_gate) retraced_wire = Ok (2 / 3)%R.
Proof.
  pose proof retraced_start_position as Hpos.
  assert (Hw : wire_ok retraced_wire)
    by (apply (Forall_inv retraced_wire_ok)).
  assert (Hk : position_on (0, 0)%Z retraced_wire = (2 / 3)%R).
  { pose proof (get_position_along_wire_ok (0, 0)%Z Hw) as H.
    rewrite Hpos in H. inversion H. reflexivity. }
  assert (Hg : gates_on [h_gate] retraced_wire = [h_gate; h_gate; h_gate])
    by (vm_compute; reflexivity).
  assert (Hm : matched_gates [h_gate] retraced_wire
               = [(h_gate, (2 / 3)%R); (h_gate, (2 / 3)%R);
                  (h_gate, (2 / 3)%R)]).
  { rewrite matched_gates_keys, Hg. cbn [map pos h_gate]. rewrite Hk.
    reflexivity. }
  split; [| split; [| split]].
  - rewrite (collect_wire_gates_ok [h_gate] Hw). rewrite Hm. reflexivity.
  - rewrite (process_wire_ok [h_gate] (mkCircuit 1 1 []) []
               retraced_wire_ok) by (simpl; lia).
    unfold wire_block. cbn [nth]. rewrite Hm.
    cbn [sort_by_key fold_right insert_by_key snd].
    repeat (destruct (Rle_dec (2 / 3) (2 / 3)) as [_ | Hn];
            [| exfalso; lra]; cbn [insert_by_key snd]).
    reflexivity.
  - unfold position_first_match.
    replace (first_match (pos h_gate) (segments (points retraced_wire)))
      with (Some 0) by (vm_compute; reflexivity).
    cbn [option_map]. f_equal. unfold fraction_at.
    rewrite retraced_length.
    unfold retraced_wire. cbn [points segments firstn nth length_sum fst snd pos h_gate].
    rewrite euclid_self. lra.
  - exact Hpos.
Qed.

Lemma vertex_wires_ok : Forall wire_ok vertex_wires.
Proof.
  unfold vertex_wires, wire_ok.
  repeat constructor; cbn [points segments length_sum fst snd];
    eval_euclid; lra.
Qed.

(** The entries of [wire_gates] for one gate that lies on two segments of
    a wire are two entries of this gate with the same key, and sorting
    leaves them as they are. *)
Lemma sort_two_equal_keys (g : Gate) (k : R) :
  sort_by_key [(g, k); (g, k)] = [(g, k); (g, k)].
Proof.
  cbn [sort_by_key fold_right insert_by_key snd].
  destruct (Rle_dec k k) as [_ | Hn]; [reflexivity |].
  exfalso. apply Hn. apply Rle_refl.
Qed.

(** C8 on a diagram of two wires, the first (0,0), (20,0), (40,0), with
    one CNOT on its middle point (20,0) and no sensor: the gate lies on
    both segments of the wire, the gate loop has no [break], and the one
    gate is compiled to [cx(0, 1)] twice, where the claim has exactly one
    two-qubit operation. *)
Theorem cnot_on_vertex_emitted_twice :
  compile ascending None vertex_wires [vertex_cnot] []
  = Ok (Some (mkCircuit 2 2
                [Reset 0; CX 0 1; CX 0 1; Reset 1; MeasureAll])).
Proof.
  unfold compile.
  replace (find_wire_connections vertex_wires) with (Ok [[]; []] : result (list (list nat)))
    by (vm_compute; reflexivity).
  cbn [bind]. unfold process_groups.
  change (enumerate vertex_wires)
    with [(0, nth 0 vertex_wires (mkWire []));
          (1, nth 1 vertex_wires (mkWire []))].
  cbn [for_each fst snd mem existsb].
  replace (get_connected_wires ascending 0 [[]; []]) with (Ok [0])
    by (vm_compute; reflexivity).
  cbn [bind]. change (ascending [0]) with [0]. cbn [for_each].
  rewrite (@initialize_circuit_nonempty vertex_wires None) by discriminate.
  rewrite process_wire_ok by (apply vertex_wires_ok || (simpl; lia)).
  cbn [bind fst snd].
  replace (mem 1 (set_add 0 [])) with false by reflexivity.
  replace (get_connected_wires ascending 1 [[]; []]) with (Ok [1])
    by (vm_compute; reflexivity).
  cbn [bind]. change (ascending [1]) with [1]. cbn [for_each].
  rewrite process_wire_ok by (apply vertex_wires_ok || (simpl; lia)).
  cbn [bind fst snd for_each].
  rewrite finish_measurements, !append_ops_app.
  unfold wire_block. rewrite !matched_gates_keys.
  replace (gates_on [vertex_cnot] (nth 0 vertex_wires (mkWire [])))
    with [vertex_cnot; vertex_cnot] by (vm_compute; reflexivity).
  replace (gates_on [vertex_cnot] (nth 1 vertex_wires (mkWire [])))
    with (@nil Gate) by (vm_compute; reflexivity).
  cbn [map]. rewrite sort_two_equal_keys.
  reflexivity.
Qed.

End CompilerFacts.

Module AggregatorFacts.
Import Reference Aggregator.
Local Open Scope Q_scope.

Lemma has_key_lookup (k : nat) (t : table) :
  has_key k t = true <-> lookup k t <> None.
Proof.
  induction t as [| [k' v] t IH]; cbn [has_key existsb lookup fst].
  - split; [discriminate | congruence].
  - destruct (Nat.eqb k' k); cbn [orb].
    + split; [discriminate | reflexivity].
    + exact IH.
Qed.

Lemma lookup_update (k i : nat) (f : Q * Q -> Q * Q) (t : table) :
  lookup i (update k f t)
  = if Nat.eqb k i then option_map f (lookup i t) else lookup i t.
Proof.
  induction t as [| [k' v] t IH]; cbn [update lookup].
  - destruct (Nat.eqb k i); reflexivity.
  - destruct (Nat.eqb_spec k' k) as [-> | Hne]; cbn [lookup].
    + destruct (Nat.eqb k i); reflexivity.
    + destruct (Nat.eqb_spec k' i) as [-> | Hne'].
      * destruct (Nat.eqb_spec k i); [congruence | reflexivity].
      * exact IH.
Qed.

Lemma lookup_snoc (k i : nat) (v : Q * Q) (t : table) :
  lookup i (t ++ [(k, v)])
  = match lookup i t with
    | Some u => Some u
    | None => if Nat.eqb k i then Some v else None
    end.
Proof.
  induction t as [| [k' u] t IH]; cbn [app lookup]; [reflexivity |].
  destruct (Nat.eqb k' i); [reflexivity | exact IH].
Qed.

(** One bit of one bitstring: its bucket exists afterwards and has gained
    the probability; the other buckets are as before. *)
Lemma add_bit_total (p : Q) (t : table) (idx : nat) (bit : ascii) (i : nat) :
  is_bit bit ->
  bucket_total (add_bit p t (idx, bit)) i
    == bucket_total t i + (if Nat.eqb idx i then p else 0) /\
  (lookup i (add_bit p t (idx, bit)) = None <->
   lookup i t = None /\ idx <> i).
Proof.
  intros Hbit. unfold add_bit, bucket_total.
  set (t1 := if has_key idx t then t else t ++ [(idx, (0, 0))]).
  assert (H1 : lookup i t1
               = match lookup i t with
                 | Some u => Some u
                 | None => if Nat.eqb idx i then Some (0, 0) else None
                 end).
  { unfold t1. destruct (has_key idx t) eqn:E.
    - destruct (lookup i t) eqn:El; [reflexivity |].
      destruct (Nat.eqb_spec idx i) as [-> | _]; [| reflexivity].
      apply has_key_lookup in E. congruence.
    - apply lookup_snoc. }
  destruct Hbit as [-> | ->]; cbn [Ascii.eqb Bool.eqb andb];
    rewrite lookup_update, H1;
    destruct (Nat.eqb_spec idx i) as [-> | Hne];
    destruct (lookup i t) as [[a b] |]; cbn [option_map fst snd];
    (split; [ring | split; [try discriminate; tauto |
                             intros [H ?]; try discriminate; congruence]]).
Qed.

(** The loop over the bits of one bitstring, from position [a]. *)
Lemma add_bits_total (p : Q) (bits : list ascii) : forall (a : nat) (t : table)
  (i : nat),
  Forall is_bit bits ->
  bucket_total
    (fold_left (add_bit p) (combine (seq a (List.length bits)) bits) t) i
    == bucket_total t i
       + (if ((a <=? i)%nat && (i <? a + List.length bits)%nat)%bool
          then p else 0) /\
  (lookup i (fold_left (add_bit p)
               (combine (seq a (List.length bits)) bits) t) = None <->
   lookup i t = None /\ ~ (a <= i < a + List.length bits)%nat).
Proof.
  induction bits as [| b bits IH]; intros a t i Hbits;
    cbn [List.length seq combine fold_left].
  - rewrite Nat.add_0_r.
    replace ((a <=? i)%nat && (i <? a)%nat)%bool with false
      by (destruct (Nat.leb_spec a i), (Nat.ltb_spec i a); simpl; lia || reflexivity).
    split; [ring | split; [intros H; split; [exact H | lia] | tauto]].
  - inversion Hbits as [| ? ? Hb Hrest]; subst.
    destruct (IH (S a) (add_bit p t (a, b)) i Hrest) as [Hsum Hnone].
    destruct (@add_bit_total p t a b i Hb) as [Hs1 Hn1].
    split.
    + rewrite Hsum, Hs1.
      destruct (Nat.eqb_spec a i) as [-> | Hne].
      * replace ((S i <=? i)%nat && (i <? S i + List.length bits)%nat)%bool
          with false
          by (destruct (Nat.leb_spec (S i) i); simpl; lia || reflexivity).
        replace ((i <=? i)%nat && (i <? i + S (List.length bits))%nat)%bool
          with true
          by (destruct (Nat.leb_spec i i),
                       (Nat.ltb_spec i (i + S (List.length bits)));
              simpl; lia || reflexivity).
        ring.
      * replace ((a <=? i)%nat && (i <? a + S (List.length bits))%nat)%bool
          with ((S a <=? i)%nat && (i <? S a + List.length bits)%nat)%bool.
        -- ring.
        -- destruct (Nat.leb_spec (S a) i), (Nat.leb_spec a i),
                    (Nat.ltb_spec i (S a + List.length bits)),
                    (Nat.ltb_spec i (a + S (List.length bits)));
             simpl; lia || reflexivity.
    + rewrite Hnone, Hn1. split.
      * intros [[H1 H2] H3]. split; [exact H1 | lia].
      * intros [H1 H2]. split; [split; [exact H1 | lia] | lia].
Qed.

Lemma fold_left_Zadd (l : list Z) (a : Z) :
  fold_left Z.add l a = (a + fold_right Z.add 0 l)%Z.
Proof.
  revert a. induction l as [| x l IH]; intros a; cbn [fold_left fold_right].
  - lia.
  - rewrite IH. lia.
Qed.

(** The loop over the bitstrings: every bucket below the width gains the
    probabilities of all bitstrings. *)
Lemma process_counts_total (total : Z) (width : nat)
  (counts : list (string * Z)) : forall (t : table) (i : nat),
  Forall (bitstring_ok width) counts ->
  bucket_total
    (fold_left (fun t bc =>
       fold_left (add_bit (inject_Z (snd bc) / inject_Z total))
                 (enumerate (bits_of (fst bc))) t) counts t) i
  == bucket_total t i
     + (if (i <? width)%nat
        then inject_Z (fold_right Z.add 0%Z (map snd counts)) / inject_Z total
        else 0) /\
  (lookup i (fold_left (fun t bc =>
       fold_left (add_bit (inject_Z (snd bc) / inject_Z total))
                 (enumerate (bits_of (fst bc))) t) counts t) = None <->
   lookup i t = None /\ (counts = [] \/ (width <= i)%nat)).
Proof.
  induction counts as [| [bs c] counts IH]; intros t i Hok;
    cbn [fold_left map fold_right fst snd].
  - split.
    + destruct (i <? width)%nat; unfold Qdiv; cbn; ring.
    + split; [intros H; split; [exact H | left; reflexivity] | tauto].
  - inversion Hok as [| ? ? Hbc Hrest]; subst.
    destruct Hbc as [Hlen Hbits]. cbn [fst] in Hlen, Hbits.
    destruct (IH (fold_left (add_bit (inject_Z c / inject_Z total))
                            (enumerate (bits_of bs)) t) i Hrest)
      as [Hsum Hnone].
    unfold enumerate in *.
    destruct (@add_bits_total (inject_Z c / inject_Z total) (bits_of bs) 0 t i
                Hbits) as [Hs1 Hn1].
    cbn [Nat.add] in Hs1, Hn1. split.
    + rewrite Hsum, Hs1. cbn [Nat.leb andb].
      rewrite Hlen. destruct (i <? width)%nat; [| ring].
      rewrite inject_Z_plus. unfold Qdiv. ring.
    + rewrite Hnone, Hn1. split.
      * intros [[H1 H2] H3]. split; [exact H1 | right].
        destruct H3 as [_ | H3]; [lia | exact H3].
      * intros [H1 [H2 | H2]]; [discriminate |].
        split; [split; [exact H1 | lia] | right; exact H2].
Qed.

Lemma process_measurement_results_nonzero (counts : list (string * Z)) :
  total_of counts <> 0%Z ->
  process_measurement_results counts
  = fold_left (fun t bc =>
      fold_left (add_bit (inject_Z (snd bc) / inject_Z (total_of counts)))
                (enumerate (bits_of (fst bc))) t) counts [].
Proof.
  intros Hnz. unfold process_measurement_results.
  destruct (Z.eqb_spec (total_of counts) 0) as [Hz | _]; [contradiction |].
  destruct counts; [exfalso; apply Hnz; reflexivity | reflexivity].
Qed.

(** The bits the aggregator reads from a key of [width] measured bits:
    the blanks are dropped, [width] characters '0' or '1' remain. *)
Lemma key_ok_bits (width : nat) (bc : string * Z) :
  key_ok width bc -> bitstring_ok width bc.
Proof.
  destruct bc as [key n]. unfold key_ok, bitstring_ok. cbn [fst].
  intros [Hch Hw]. subst width. unfold bits_of.
  induction key as [| c key IH]; cbn [list_ascii_of_string filter count_bits].
  - split; [reflexivity | constructor].
  - cbn [list_ascii_of_string] in Hch.
    pose proof (Forall_inv Hch) as Hc.
    destruct (IH (Forall_inv_tail Hch)) as [Hl Hb].
    destruct Hc as [-> | [-> | ->]].
    + change (negb (is_space "0")) with true.
      change (Ascii.eqb "0" "0" || Ascii.eqb "0" "1")%bool with true.
      cbn [List.length]. split; [f_equal; exact Hl |].
      constructor; [left; reflexivity | exact Hb].
    + change (negb (is_space "1")) with true.
      change (Ascii.eqb "1" "0" || Ascii.eqb "1" "1")%bool with true.
      cbn [List.length]. split; [f_equal; exact Hl |].
      constructor; [right; reflexivity | exact Hb].
    + change (negb (is_space " ")) with false.
      change (Ascii.eqb " " "0" || Ascii.eqb " " "1")%bool with false.
      split; [exact Hl | exact Hb].
Qed.

(** C9: empty counts or a zero total give an empty result, nothing being
    divided; otherwise, for counts as the engine returns them, every key
    made of the characters '0' and '1' and of blanks and holding [width]
    of the former, the result has exactly the buckets [0 .. width-1] and
    in each of them [prob_0 + prob_1] is 1.  The divisions are exact here;
    the source computes them in floating point. *)
Theorem probabilities_sum_to_one (counts : list (string * Z)) (width : nat) :
  (counts = [] \/ total_of counts = 0%Z ->
   process_measurement_results counts = []) /\
  (total_of counts <> 0%Z ->
   Forall (key_ok width) counts ->
   forall i,
     ((i < width)%nat ->
      exists prob_0 prob_1,
        lookup i (process_measurement_results counts)
          = Some (prob_0, prob_1) /\
        prob_0 + prob_1 == 1) /\
     ((width <= i)%nat ->
      lookup i (process_measurement_results counts) = None)).
Proof.
  split.
  - intros [-> | Hz]; [reflexivity |].
    unfold process_measurement_results. rewrite Hz.
    destruct counts; reflexivity.
  - intros Hnz Hkeys i.
    assert (Hok : Forall (bitstring_ok width) counts).
    { eapply Forall_impl; [| exact Hkeys]. intros bc. apply key_ok_bits. }
    rewrite (@process_measurement_results_nonzero counts Hnz).
    destruct (@process_counts_total (total_of counts) width counts [] i Hok)
      as [Hsum Hnone].
    match type of Hnone with
    | (lookup i ?x = None <-> _) => set (t := x) in *
    end.
    assert (Hne : counts <> []) by (intros ->; apply Hnz; reflexivity).
    split.
    + intros Hi.
      assert (Hsome : lookup i t <> None).
      { intros Hn. apply (proj1 Hnone) in Hn.
        destruct Hn as [_ [H | H]]; [contradiction | lia]. }
      destruct (lookup i t) as [[p0 p1] |] eqn:El.
      * exists p0, p1. split; [reflexivity |].
        unfold bucket_total in Hsum. rewrite El in Hsum. cbn [lookup fst snd] in Hsum.
        rewrite Hsum.
        replace (i <? width)%nat with true by (symmetry; apply Nat.ltb_lt; exact Hi).
        unfold total_of in *. rewrite fold_left_Zadd in *. cbn [Z.add] in *.
        field. intros H. apply Hnz.
        unfold Qeq in H. simpl in H. lia.
      * congruence.
    + intros Hi. apply Hnone. split; [reflexivity | right; exact Hi].
Qed.

(** C9 on counts of a circuit with two registers of one bit each, whose
    keys hold a blank: the bucket of the second bit. *)
Lemma probabilities_sum_to_one_witness :
  exists prob_0 prob_1,
    lookup 1 (process_measurement_results
                [("0 1"%string, 500%Z); ("1 0"%string, 500%Z)])
      = Some (prob_0, prob_1) /\
    prob_0 + prob_1 == 1.
Proof.
  apply (proj2 (@probabilities_sum_to_one
                  [("0 1"%string, 500%Z); ("1 0"%string, 500%Z)] 2%nat)).
  - vm_compute. discriminate.
  - unfold key_ok, key_char. cbn [fst list_ascii_of_string count_bits].
    constructor; [| constructor; [| constructor]];
      (split; [| reflexivity]);
      repeat (constructor; [tauto |]); constructor.
  - lia.
Defined.

End AggregatorFacts.

Module SessionFacts.
Import Geometry Reference Examples Connectivity Compiler Aggregator Session.
Import GeometryFacts ConnectivityFacts CompilerFacts.
Local Open Scope nat_scope.
Local Open Scope string_scope.

(** C5: when the simulate cycle raises, the error message is written to
    the [circuit_info] widget, and [sensor_data] and the text of the
    sensor report are what they were before the call. *)
Theorem simulation_error_keeps_statistics
  (iter : list nat -> list nat)
  (exn_message : exn -> string)
  (render : option QuantumCircuit -> string)
  (open_viewer : option QuantumCircuit -> result unit)
  (run : option QuantumCircuit -> result (list (string * Z)))
  (format_report : table -> string)
  (old : option QuantumCircuit) (d : diagram) (v : display) (e : exn) :
  wires d <> [] ->
  simulate_try iter open_viewer run old d = Raise e ->
  circuit_info (simulate_circuit iter exn_message render open_viewer run
                  format_report old d v)
    = "Simulation error: " ++ exn_message e /\
  sensor_data (simulate_circuit iter exn_message render open_viewer run
                 format_report old d v)
    = sensor_data v /\
  sensor_text (simulate_circuit iter exn_message render open_viewer run
                 format_report old d v)
    = sensor_text v.
Proof.
  intros Hne Hraise. unfold simulate_circuit. rewrite Hraise.
  destruct (wires d); [congruence |]. repeat split.
Qed.

(** An engine failure is an exception of the simulate cycle. *)
Lemma engine_failure_raises (iter : list nat -> list nat)
  (open_viewer : option QuantumCircuit -> result unit)
  (run : option QuantumCircuit -> result (list (string * Z)))
  (old : option QuantumCircuit) (d : diagram) (c : option QuantumCircuit)
  (e : exn) :
  compile iter old (wires d) (gates d) (sensors d) = Ok c ->
  open_viewer c = Ok tt ->
  run c = Raise e ->
  simulate_try iter open_viewer run old d = Raise e.
Proof.
  intros Hc Hv Hr. unfold simulate_try. rewrite Hc. cbn [bind].
  rewrite Hv. cbn [bind]. rewrite Hr. reflexivity.
Qed.

(** C5 with an engine that raises on the two joined wires. *)
Lemma simulation_error_keeps_statistics_witness :
  circuit_info (simulate_circuit ascending message_of (fun _ => "")
                  (fun _ => Ok tt) failing_engine (fun _ => "") None
                  junction_diagram previous_display)
    = "Simulation error: engine failure" /\
  sensor_data (simulate_circuit ascending message_of (fun _ => "")
                 (fun _ => Ok tt) failing_engine (fun _ => "") None
                 junction_diagram previous_display)
    = sensor_data previous_display /\
  sensor_text (simulate_circuit ascending message_of (fun _ => "")
                 (fun _ => Ok tt) failing_engine (fun _ => "") None
                 junction_diagram previous_display)
    = sensor_text previous_display.
Proof.
  apply (@simulation_error_keeps_statistics ascending message_of
           (fun _ => "") (fun _ => Ok tt) failing_engine (fun _ => "") None
           junction_diagram previous_display (EngineError "engine failure")).
  - discriminate.
  - eapply engine_failure_raises.
    + apply compile_junction.
    + reflexivity.
    + reflexivity.
Defined.

End SessionFacts.

Module SnapFacts.
Import Geometry Editor Invariants.
Local Open Scope Z_scope.



Lemma snap_on_grid (pos : point) : on_grid (snap_to_grid pos).
Proof.
  unfold on_grid, snap_to_grid. cbn [fst snd].
  split; apply Z.mod_mul; discriminate.
Qed.



End SnapFacts.

Module EditorFacts.
Import Geometry Compiler Editor Invariants Reference.
Import GeometryFacts ConnectivityFacts CompilerFacts SnapFacts.
Local Open Scope nat_scope.

Lemma points_eqb_eq (l1 l2 : list point) :
  points_eqb l1 l2 = true <-> l1 = l2.
Proof.
  unfold points_eqb. revert l2.
  induction l1 as [| a l1 IH]; intros [| b l2]; cbn [List.length combine forallb].
  - split; reflexivity.
  - split; discriminate.
  - split; discriminate.
  - cbn [Nat.eqb fst snd]. split.
    + intros H. apply andb_true_iff in H. destruct H as [Hl H].
      apply andb_true_iff in H. destruct H as [Hab H].
      apply point_eqb_eq in Hab. subst b. f_equal. apply IH.
      rewrite Hl, H. reflexivity.
    + intros H. inversion H; subst.
      assert (Hp : point_eqb b b = true) by (now apply point_eqb_eq).
      rewrite Hp. apply (IH l2). reflexivity.
Qed.

Lemma wire_eqb_eq (w1 w2 : Wire) : wire_eqb w1 w2 = true <-> w1 = w2.
Proof.
  unfold wire_eqb. rewrite points_eqb_eq. destruct w1, w2; cbn [points].
  split; [intros ->; reflexivity | intros H; inversion H; reflexivity].
Qed.

Lemma gate_eqb_eq (g1 g2 : Gate) : gate_eqb g1 g2 = true <-> g1 = g2.
Proof.
  unfold gate_eqb. rewrite andb_true_iff, String.eqb_eq, point_eqb_eq.
  destruct g1, g2; cbn [gate_type pos].
  split; [intros [-> ->]; reflexivity | intros H; inversion H; auto].
Qed.

(** [xs.remove(x)] when no item before the first [x] satisfies a test
    that [x] satisfies. *)
Lemma list_remove_after {A : Type} (eqb : A -> A -> bool)
  (test : A -> bool) (x : A) (kept rest : list A) :
  (forall a b, eqb a b = true <-> a = b) ->
  test x = true ->
  Forall (fun a => test a = false) kept ->
  list_remove eqb x (kept ++ x :: rest) = Returned (kept ++ rest).
Proof.
  intros Heq Hx. induction 1 as [| a kept Ha _ IH]; cbn [app list_remove].
  - replace (eqb x x) with true by (symmetry; apply Heq; reflexivity).
    reflexivity.
  - destruct (eqb a x) eqn:E.
    + apply Heq in E. subst a. congruence.
    + rewrite IH. reflexivity.
Qed.

Lemma remove_where_from {A : Type} (eqb : A -> A -> bool)
  (test : A -> bool) :
  (forall a b, eqb a b = true <-> a = b) ->
  forall copy kept,
  Forall (fun a => test a = false) kept ->
  remove_where eqb test copy (kept ++ copy)
  = Returned (kept ++ filter (fun a => negb (test a)) copy).
Proof.
  intros Heq. induction copy as [| x copy IH]; intros kept Hk;
    cbn [remove_where filter].
  - reflexivity.
  - destruct (test x) eqn:E; cbn [negb].
    + rewrite (list_remove_after eqb test x copy Heq E Hk).
      cbn [and_then]. apply IH. exact Hk.
    + replace (kept ++ x :: copy) with ((kept ++ [x]) ++ copy)
        by (rewrite <- app_assoc; reflexivity).
      rewrite IH.
      * rewrite <- app_assoc. reflexivity.
      * apply Forall_app. split; [exact Hk | repeat constructor; exact E].
Qed.

(** The delete loop [for x in xs[:]: if test(x): xs.remove(x)] never
    raises and leaves the items that fail the test, in their order. *)
Lemma remove_where_filter {A : Type} (eqb : A -> A -> bool)
  (test : A -> bool) (xs : list A) :
  (forall a b, eqb a b = true <-> a = b) ->
  remove_where eqb test xs xs
  = Returned (filter (fun a => negb (test a)) xs).
Proof.
  intros Heq. apply (remove_where_from eqb test Heq xs (kept := [])).
  constructor.
Qed.

(** The delete tool removes exactly the gates and the sensors within 20
    of the snapped position and the wires that have it on a segment; what
    is left keeps its order, and no [ValueError] is raised even when equal
    items occur several times. *)
Theorem delete_removes_hit_items (pos : point) (s : state) :
  selected_tool s = Some "DELETE"%string ->
  handle_mouse_down pos s
  = Returned
      (mkState
         (filter (fun w => negb (wire_hit (snap_to_grid pos) w)) (wires s))
         (filter (fun g => negb (point_near_pos (Compiler.pos g)
                                   (snap_to_grid pos) 20)) (gates s))
         (filter (fun p => negb (point_near_pos p (snap_to_grid pos) 20))
                 (sensors s))
         (drawing_wire s) (current_wire_points s) (selected_tool s)).
Proof.
  intros Htool. unfold handle_mouse_down, tool_is. rewrite Htool.
  cbn [String.eqb Ascii.eqb Bool.eqb andb].
  rewrite (remove_where_filter gate_eqb _ (gates s) gate_eqb_eq).
  cbn [and_then].
  rewrite (remove_where_filter point_eqb _ (sensors s) point_eqb_eq).
  cbn [and_then].
  rewrite (remove_where_filter wire_eqb _ (wires s) wire_eqb_eq).
  cbn [and_then]. reflexivity.
Qed.

(** Two equal gates near the click and one far from it. *)
Lemma delete_removes_hit_items_witness :
  handle_mouse_down (3, 4)%Z
    (mkState [] [mkGate "H" (0, 0)%Z; mkGate "X" (100, 0)%Z;
                 mkGate "H" (0, 0)%Z] [] false [] (Some "DELETE"%string))
  = Returned (mkState [] [mkGate "X" (100, 0)%Z] [] false []
                      (Some "DELETE"%string)).
Proof.
  exact (@delete_removes_hit_items (3, 4)%Z
           (mkState [] [mkGate "H" (0, 0)%Z; mkGate "X" (100, 0)%Z;
                        mkGate "H" (0, 0)%Z] [] false []
                    (Some "DELETE"%string)) eq_refl).
Defined.

Lemma point_eqb_sym (a b : point) : point_eqb a b = point_eqb b a.
Proof.
  unfold point_eqb. rewrite (Z.eqb_sym (fst a)), (Z.eqb_sym (snd a)).
  reflexivity.
Qed.

Lemma chain_distinct_snoc (l : list point) (a b : point) :
  chain_distinct (l ++ [a]) -> point_eqb a b = false ->
  chain_distinct ((l ++ [a]) ++ [b]).
Proof.
  intros Hl Hab. induction l as [| p l IH].
  - cbn. auto.
  - destruct l as [| q l].
    + cbn in *. destruct Hl as [Hpa _]. auto.
    + cbn [app chain_distinct] in *. destruct Hl as [Hpq Hl].
      split; [exact Hpq | apply IH; exact Hl].
Qed.

Lemma rev_last_split {A : Type} (l : list A) (x : A) (r : list A) :
  rev l = x :: r -> l = rev r ++ [x].
Proof.
  intros H. rewrite <- (rev_involutive l), H. reflexivity.
Qed.

Lemma sensor_not_reached (s : state) :
  tool_in_gate_colors s = false -> tool_is s "SENSOR" = false.
Proof.
  unfold tool_in_gate_colors, tool_is, GATE_COLORS.
  destruct (selected_tool s) as [t |]; [| reflexivity].
  cbn [existsb]. intros H.
  repeat (apply orb_false_iff in H; destruct H as [? H]).
  assumption.
Qed.

Lemma handle_mouse_down_inv (pos : point) (s : state) :
  editor_inv s ->
  exists s', handle_mouse_down pos s = Returned s' /\ editor_inv s'.
Proof.
  intros Hinv. pose proof Hinv as (Hw & Hg & Hs & Hc & Hcg & Hd).
  unfold handle_mouse_down.
  destruct (tool_is s "DELETE") eqn:Edel.
  - rewrite (remove_where_filter gate_eqb _ (gates s) gate_eqb_eq).
    cbn [and_then].
    rewrite (remove_where_filter point_eqb _ (sensors s) point_eqb_eq).
    cbn [and_then].
    rewrite (remove_where_filter wire_eqb _ (wires s) wire_eqb_eq).
    cbn [and_then]. eexists; split; [reflexivity |].
    unfold editor_inv; cbn [wires gates sensors current_wire_points
                            drawing_wire].
    refine (conj _ (conj _ (conj _ (conj Hc (conj Hcg Hd))))).
    + apply Forall_forall. intros w Hin. apply filter_In in Hin.
      rewrite Forall_forall in Hw. apply Hw, Hin.
    + apply Forall_forall. intros g Hin. apply filter_In in Hin.
      rewrite Forall_forall in Hg. apply Hg, Hin.
    + rewrite Hs. reflexivity.
  - destruct (tool_is s "WIRE") eqn:Ewire.
    + eexists; split; [reflexivity |].
      unfold editor_inv; cbn [wires gates sensors current_wire_points
                              drawing_wire].
      refine (conj Hw (conj Hg (conj Hs (conj I (conj _ _))))).
      * constructor; [apply snap_on_grid | constructor].
      * discriminate.
    + destruct (tool_in_gate_colors s) eqn:Egate.
      * destruct (selected_tool s) as [t |] eqn:Et.
        -- eexists; split; [reflexivity |].
           unfold editor_inv; cbn [wires gates sensors current_wire_points
                                   drawing_wire].
           refine (conj Hw (conj _ (conj Hs (conj Hc (conj Hcg Hd))))).
           apply Forall_app. split; [exact Hg |].
           constructor; [apply snap_on_grid | constructor].
        -- exists s. split; [reflexivity | exact Hinv].
      * rewrite (sensor_not_reached s Egate).
        exists s. split; [reflexivity | exact Hinv].
Qed.

Lemma handle_mouse_up_inv (pos : point) (s : state) :
  editor_inv s ->
  exists s', handle_mouse_up pos s = Returned s' /\ editor_inv s'.
Proof.
  intros Hinv. pose proof Hinv as (Hw & Hg & Hs & Hc & Hcg & Hd).
  unfold handle_mouse_up. destruct (drawing_wire s) eqn:Edraw.
  - eexists; split; [reflexivity |].
    unfold editor_inv; cbn [wires gates sensors current_wire_points
                            drawing_wire].
    refine (conj _ (conj Hg (conj Hs (conj I (conj _ _))))).
    + destruct (Nat.ltb_spec 1 (List.length (current_wire_points s)));
        [| exact Hw].
      apply Forall_app. split; [exact Hw |].
      constructor; [| constructor].
      unfold wire_wf; cbn [points]. split; [lia | split; assumption].
    + constructor.
    + discriminate.
  - exists s. split; [reflexivity | exact Hinv].
Qed.

Lemma handle_mouse_motion_inv (pos : point) (s : state) :
  editor_inv s ->
  exists s', handle_mouse_motion pos s = Returned s' /\ editor_inv s'.
Proof.
  intros Hinv. pose proof Hinv as (Hw & Hg & Hs & Hc & Hcg & Hd).
  unfold handle_mouse_motion. destruct (drawing_wire s) eqn:Edraw.
  - destruct (rev (current_wire_points s)) as [| lastp r] eqn:Erev.
    + exfalso. apply (Hd eq_refl).
      rewrite <- (rev_involutive (current_wire_points s)), Erev.
      reflexivity.
    + apply rev_last_split in Erev.
      destruct (point_eqb (snap_to_grid pos) lastp) eqn:Eeq; cbn [negb].
      * exists s. split; [reflexivity | exact Hinv].
      * eexists; split; [reflexivity |].
        unfold editor_inv; cbn [wires gates sensors current_wire_points
                                drawing_wire].
        refine (conj Hw (conj Hg (conj Hs (conj _ (conj _ _))))).
        -- rewrite Erev in *. apply chain_distinct_snoc; [exact Hc |].
           rewrite point_eqb_sym. exact Eeq.
        -- apply Forall_app. split; [exact Hcg |].
           constructor; [apply snap_on_grid | constructor].
        -- intros _ H. apply app_eq_nil in H. destruct H; discriminate.
  - exists s. split; [reflexivity | exact Hinv].
Qed.

Lemma dispatch_inv (e : event) (s : state) :
  editor_inv s ->
  exists s', dispatch e s = Returned s' /\ editor_inv s'.
Proof.
  intros Hinv. pose proof Hinv as (Hw & Hg & Hs & Hc & Hcg & Hd).
  destruct e as [b pos | b pos | pos | tool |]; cbn [dispatch].
  - destruct (b =? 1)%Z; [apply handle_mouse_down_inv; exact Hinv |].
    exists s. auto.
  - destruct (b =? 1)%Z; [apply handle_mouse_up_inv; exact Hinv |].
    exists s. auto.
  - apply handle_mouse_motion_inv; exact Hinv.
  - eexists; split; [reflexivity |].
    unfold editor_inv, select_tool;
      cbn [wires gates sensors current_wire_points drawing_wire].
    refine (conj Hw (conj Hg (conj Hs (conj I (conj _ _))))).
    + constructor.
    + discriminate.
  - eexists; split; [reflexivity |].
    unfold editor_inv, clear_board;
      cbn [wires gates sensors current_wire_points drawing_wire].
    refine (conj _ (conj _ (conj eq_refl (conj Hc (conj Hcg Hd)))));
      constructor.
Qed.

Lemma initial_inv : editor_inv initial.
Proof.
  unfold editor_inv, initial;
    cbn [wires gates sensors current_wire_points drawing_wire].
  refine (conj _ (conj _ (conj eq_refl (conj I (conj _ _)))));
    try constructor. discriminate.
Qed.

Lemma run_events_inv (es : list event) : forall s,
  editor_inv s ->
  exists s', run_events es s = Returned s' /\ editor_inv s'.
Proof.
  induction es as [| e es IH]; intros s Hinv; cbn [run_events].
  - exists s. auto.
  - destruct (dispatch_inv e Hinv) as (s1 & H1 & Hinv1).
    rewrite H1. cbn [and_then]. apply IH. exact Hinv1.
Qed.

Lemma euclid_distinct_pos (a b : point) :
  point_eqb a b = false -> (0 < euclid a b)%R.
Proof.
  intros Hne. unfold euclid. apply sqrt_lt_R0. apply IZR_lt.
  destruct a as [x1 y1], b as [x2 y2]. cbn [fst snd].
  assert (Hs : (0 <= (x2 - x1) ^ 2 + (y2 - y1) ^ 2)%Z) by nia.
  destruct (Z.eq_dec ((x2 - x1) ^ 2 + (y2 - y1) ^ 2) 0) as [E | E]; [| lia].
  exfalso. apply sq_sum_zero in E. destruct E as [Ex Ey].
  assert (Heq : (x1, y1) = (x2, y2)) by (f_equal; lia).
  apply point_eqb_eq in Heq. congruence.
Qed.

(** A wire the editor stores has a polyline of nonzero length. *)
Lemma wire_wf_ok (w : Wire) : wire_wf w -> wire_ok w.
Proof.
  intros (Hlen & Hd & _). unfold wire_ok.
  destruct (points w) as [| p1 [| p2 rest]]; cbn [List.length] in Hlen;
    try lia.
  destruct Hd as [Hne _].
  change (segments (p1 :: p2 :: rest))
    with ((p1, p2) :: segments (p2 :: rest)).
  cbn [length_sum fst snd].
  pose proof (euclid_distinct_pos _ _ Hne).
  pose proof (length_sum_nonneg (segments (p2 :: rest))).
  apply Rgt_not_eq. lra.
Qed.

(** Whatever the user does, starting from the empty editor, no handler
    raises, every stored wire has at least two points, no two consecutive
    points of a wire are equal, and wires and gates sit on the grid. *)
Theorem editor_keeps_wires_well_formed (es : list event) :
  exists s,
    run_events es initial = Returned s /\
    Forall (fun w => (2 <= List.length (points w))%nat /\
                     chain_distinct (points w) /\
                     Forall on_grid (points w)) (wires s) /\
    Forall (fun g => on_grid (pos g)) (gates s).
Proof.
  destruct (run_events_inv es initial_inv) as (s & Hrun & Hw & Hg & _).
  exists s. auto.
Qed.

Lemma filter_incl_In {A : Type} (f : A -> bool) (l : list A) (x : A) :
  In x (filter f l) -> In x l.
Proof. intros H. apply filter_In in H. tauto. Qed.

(** No event adds a sensor: whatever the tool, the sensors after an event
    are among those before it.  With the tool "SENSOR" selected a click
    appends a gate of type "SENSOR" instead, "SENSOR" being a key of
    [GATE_COLORS]; so from the empty editor the sensor list stays empty. *)
Theorem sensors_are_never_added :
  (forall e s s', dispatch e s = Returned s' ->
                  forall p, In p (sensors s') -> In p (sensors s)) /\
  (forall pos s, selected_tool s = Some "SENSOR"%string ->
     handle_mouse_down pos s
     = Returned (mkState (wires s)
                   (gates s ++ [mkGate "SENSOR" (snap_to_grid pos)])
                   (sensors s) (drawing_wire s) (current_wire_points s)
                   (selected_tool s))) /\
  (forall es s, run_events es initial = Returned s -> sensors s = []).
Proof.
  split; [| split].
  - intros e s s' Hd p Hp.
    destruct e as [b pos | b pos | pos | tool |]; cbn [dispatch] in Hd.
    + destruct (b =? 1)%Z; [| inversion Hd; subst; exact Hp].
      unfold handle_mouse_down in Hd.
      destruct (tool_is s "DELETE").
      * rewrite (remove_where_filter gate_eqb _ (gates s) gate_eqb_eq) in Hd.
        cbn [and_then] in Hd.
        rewrite (remove_where_filter point_eqb _ (sensors s) point_eqb_eq)
          in Hd.
        cbn [and_then] in Hd.
        rewrite (remove_where_filter wire_eqb _ (wires s) wire_eqb_eq) in Hd.
        cbn [and_then] in Hd. inversion Hd; subst. cbn [sensors] in Hp.
        apply filter_incl_In in Hp. exact Hp.
      * destruct (tool_is s "WIRE"); [inversion Hd; subst; exact Hp |].
        destruct (tool_in_gate_colors s) eqn:Eg.
        -- destruct (selected_tool s); inversion Hd; subst; exact Hp.
        -- rewrite (sensor_not_reached s Eg) in Hd.
           inversion Hd; subst; exact Hp.
    + destruct (b =? 1)%Z; [| inversion Hd; subst; exact Hp].
      unfold handle_mouse_up in Hd.
      destruct (drawing_wire s); inversion Hd; subst; exact Hp.
    + unfold handle_mouse_motion in Hd.
      destruct (drawing_wire s); [| inversion Hd; subst; exact Hp].
      destruct (rev (current_wire_points s)); [discriminate |].
      destruct (negb _); inversion Hd; subst; exact Hp.
    + inversion Hd; subst. exact Hp.
    + inversion Hd; subst. cbn [clear_board sensors] in Hp. contradiction.
  - intros pos s Ht. unfold handle_mouse_down, tool_is, tool_in_gate_colors.
    rewrite Ht. reflexivity.
  - intros es s Hrun.
    destruct (run_events_inv es initial_inv) as (s' & Hrun' & _ & _ & Hs & _).
    rewrite Hrun in Hrun'. inversion Hrun'; subst. exact Hs.
Qed.

Lemma sensors_are_never_added_witness :
  handle_mouse_down (17, 23)%Z
    (mkState [] [] [] false [] (Some "SENSOR"%string))
  = Returned (mkState [] [mkGate "SENSOR" (20, 20)%Z] [] false []
                      (Some "SENSOR"%string)).
Proof.
  exact (proj1 (proj2 sensors_are_never_added) (17, 23)%Z
               (mkState [] [] [] false [] (Some "SENSOR"%string))
               eq_refl).
Defined.

Lemma measurement_part_no_sensor (ws : list Wire) :
  measurement_part ws [] = [MeasureAll].
Proof. reflexivity. Qed.

(** Every diagram the user can draw compiles: from the empty editor,
    after any events, if there is a wire then compilation raises nothing,
    resets each wire at least once, and ends with the [measure_all]
    fallback as its only measurement (no sensor can have been placed). *)
Theorem drawn_diagram_compiles (iter : list nat -> list nat)
  (iter_perm : forall l, Permutation (iter l) l)
  (old : option QuantumCircuit) (es : list event) :
  exists s,
    run_events es initial = Returned s /\
    (wires s <> [] ->
     exists qc body,
       compile iter old (wires s) (gates s) (sensors s) = Ok (Some qc) /\
       data qc = body ++ [MeasureAll] /\
       forallb (fun o => negb (is_measurement o)) body = true /\
       (forall i, i < List.length (wires s) -> In (Reset i) body)).
Proof.
  destruct (run_events_inv es initial_inv) as (s & Hrun & Hw & _ & Hs & _).
  exists s. split; [exact Hrun |]. intros Hne.
  assert (Hok : Forall wire_ok (wires s)).
  { eapply Forall_impl; [| exact Hw]. intros w. apply wire_wf_ok. }
  destruct (@compile_ok iter iter_perm old (wires s) (gates s) (sensors s)
              Hne Hok) as (conns & seeds & _ & Hc & _ & Hall).
  rewrite Hs in *. rewrite measurement_part_no_sensor in Hc.
  eexists; eexists. split; [exact Hc |]. cbn [data].
  split; [reflexivity |]. split.
  - apply forallb_flat_map. intros i _. apply wire_block_not_measurement.
  - intros i Hi. apply in_flat_map. exists i. split; [apply Hall; exact Hi |].
    unfold wire_block. left; reflexivity.
Qed.

(** One wire drawn from (0,0) to (20,0). *)
Lemma drawn_diagram_compiles_witness :
  exists s,
    run_events [ToolSelected "WIRE"; MouseButtonDown 1 (0, 0)%Z;
                MouseMotion (20, 0)%Z; MouseButtonUp 1 (20, 0)%Z]
               initial = Returned s /\
    (wires s <> [] ->
     exists qc body,
       compile ascending None (wires s) (gates s) (sensors s)
         = Ok (Some qc) /\
       data qc = body ++ [MeasureAll] /\
       forallb (fun o => negb (is_measurement o)) body = true /\
       (forall i, i < List.length (wires s) -> In (Reset i) body)).
Proof.
  apply (@drawn_diagram_compiles ascending ascending_perm None).
Defined.

End EditorFacts.

Module GroupFacts.
Import Geometry Reference Connectivity Compiler Graph.
Import GeometryFacts ConnectivityFacts CompilerFacts.
Local Open Scope nat_scope.

Lemma set_add_NoDup (x : nat) (s : list nat) :
  NoDup s -> NoDup (set_add x s).
Proof.
  intros H. unfold set_add. destruct (mem x s) eqn:E; [exact H |].
  apply mem_false in E. apply NoDup_app; [exact H | repeat constructor; intros [] |].
  intros a Ha [<- | []]. exact (E Ha).
Qed.

Lemma visit_neighbors_NoDup (ns : list nat) : forall st,
  NoDup (fst st) -> NoDup (fst (fold_left visit_neighbor ns st)).
Proof.
  induction ns as [| n ns IH]; intros st H; cbn [fold_left]; [exact H |].
  apply IH. unfold visit_neighbor. destruct (mem n (fst st)); [exact H |].
  cbn [fst]. apply set_add_NoDup. exact H.
Qed.

Section Exact.

Variable iter : list nat -> list nat.
Hypothesis iter_perm : forall l, Permutation (iter l) l.

(** The search only collects nodes reached from the start, each once. *)
Lemma dfs_loop_sound (connections : list (list nat)) (start : nat) :
  forall fuel connected stack visited c v,
  NoDup connected ->
  (forall x, In x connected -> reach connections start x) ->
  incl stack connected ->
  dfs_loop iter fuel connections connected stack visited = Ok (c, v) ->
  NoDup c /\ (forall x, In x c -> reach connections start x).
Proof.
  induction fuel as [| fuel IH];
    intros connected stack visited c v Hnd Hreach Hstack Hrun;
    cbn [dfs_loop] in Hrun; [discriminate |].
  destruct stack as [| current rest].
  - inversion Hrun; subst. auto.
  - destruct (nth_error connections current) as [nb |] eqn:Hnb;
      [| discriminate].
    destruct (visit_neighbors (iter nb) connected rest)
      as (new & Hs & _ & Hnew & Hf & _).
    apply IH in Hrun; [exact Hrun | | |].
    + apply (visit_neighbors_NoDup (iter nb) (connected, rest)). exact Hnd.
    + intros x Hx. apply Hf in Hx. destruct Hx as [Hx | Hx];
        [apply Hreach; exact Hx |].
      apply Hnew in Hx. destruct Hx as [Hx _].
      apply reach_step with current.
      * apply Hreach, Hstack. left; reflexivity.
      * exists nb. split; [exact Hnb |].
        apply (Permutation_in _ (iter_perm nb)). exact Hx.
    + rewrite Hs. intros x Hx. apply Hf. apply in_app_iff in Hx.
      destruct Hx as [Hx | Hx]; [right; exact Hx |].
      left. apply Hstack. right; exact Hx.
Qed.

(** The group [get_connected_wires] returns is exactly the set of nodes
    reached from the start wire through chains of recorded neighbours,
    without repetition. *)
Lemma get_connected_wires_reach (start : nat)
  (connections : list (list nat)) (group : list nat) :
  get_connected_wires iter start connections = Ok group ->
  NoDup group /\
  (forall x, In x group <-> reach connections start x).
Proof.
  unfold get_connected_wires, get_connected_wires_log. intros Hget.
  destruct (dfs_loop iter (S (List.length connections)) connections
              [start] [start] []) as [[c v] | e] eqn:Hrun;
    [| discriminate].
  cbn [bind fst] in Hget. inversion Hget; subst c.
  pose proof (@dfs_loop_correct iter iter_perm connections
                (S (List.length connections)) _ _ _
                (dfs_inv_init connections start)) as Hc.
  cbn [List.length] in Hc. specialize (Hc ltac:(lia)).
  rewrite Hrun in Hc. destruct Hc as [(Hnd & Hcv & Hkey & Hcl) Hincl].
  rewrite app_nil_r in Hcv.
  assert (Hnd0 : NoDup [start])
    by (constructor; [intros [] | constructor]).
  assert (Hr0 : forall x, In x [start] -> reach connections start x)
    by (intros x [<- | []]; constructor).
  destruct (@dfs_loop_sound connections start _ _ _ _ _ _
              Hnd0 Hr0 (incl_refl _) Hrun) as [Hnd' Hsound].
  split; [exact Hnd' |]. intros x. split; [apply Hsound |].
  induction 1 as [| y z _ IHy (nb & Hnb & Hz)].
  - apply Hincl. left; reflexivity.
  - apply (Hcl y nb z); [apply Hcv; exact IHy | exact Hnb | exact Hz].
Qed.

End Exact.

(** The group computed for a wire is exactly the set of wires reached
    from it through chains of recorded neighbours, each listed once,
    whatever the order in which sets are iterated. *)
Theorem connected_group_is_reachable_set (iter : list nat -> list nat)
  (iter_perm : forall l, Permutation (iter l) l)
  (start : nat) (connections : list (list nat)) (group : list nat) :
  get_connected_wires iter start connections = Ok group ->
  NoDup group /\
  (forall x, In x group <-> reach connections start x).
Proof. apply get_connected_wires_reach; exact iter_perm. Qed.

Lemma connected_group_is_reachable_set_witness :
  NoDup [0; 1; 2] /\
  (forall x, In x [0; 1; 2] <-> reach [[1]; [0; 2]; [1]; []] 0 x).
Proof.
  apply (@connected_group_is_reachable_set ascending ascending_perm 0
           [[1]; [0; 2]; [1]; []] [0; 1; 2]).
  reflexivity.
Defined.

Lemma reach_prepend (connections : list (list nat)) (x y z : nat) :
  edge connections x y -> reach connections y z -> reach connections x z.
Proof.
  intros Hxy. induction 1 as [| u v _ IH Huv].
  - apply reach_step with x; [constructor | exact Hxy].
  - apply reach_step with u; [exact IH | exact Huv].
Qed.

Lemma reach_sym (connections : list (list nat)) :
  (forall x y, edge connections x y -> edge connections y x) ->
  forall x y, reach connections x y -> reach connections y x.
Proof.
  intros Hsym x y. induction 1 as [| u v _ IH Huv]; [constructor |].
  apply reach_prepend with u; [apply Hsym; exact Huv | exact IH].
Qed.

Lemma closed_reach (connections : list (list nat)) (P : nat -> Prop) :
  (forall x y, P x -> edge connections x y -> P y) ->
  forall x y, P x -> reach connections x y -> P y.
Proof.
  intros Hcl x y Hx. induction 1 as [| u v _ IH Huv]; [exact Hx |].
  apply (Hcl u v IH Huv).
Qed.

(** The adjacency [find_wire_connections] records is symmetric. *)
Lemma find_wire_connections_edge_sym (wires : list Wire)
  (connections : list (list nat)) :
  Forall (fun w => points w <> []) wires ->
  find_wire_connections wires = Ok connections ->
  forall x y, edge connections x y -> edge connections y x.
Proof.
  intros Hw Hc.
  destruct (find_wire_connections_spec Hw) as (c' & Hc' & Hlen & Hrow).
  assert (c' = connections) by congruence. subst c'.
  intros x y (nb & Hnb & Hy). apply (Hrow _ _ Hnb) in Hy.
  destruct Hy as (wx & wy & Hx & Hwy & Hne & Hco).
  destruct (nth_error connections y) as [ry |] eqn:Ey.
  - exists ry. split; [exact Ey |]. apply (Hrow _ _ Ey).
    exists wy, wx. rewrite coincide_sym. auto.
  - apply nth_error_None in Ey. rewrite Hlen in Ey.
    assert (y < List.length wires) by (apply nth_error_Some; congruence).
    lia.
Qed.

Section Partition.

Variable iter : list nat -> list nat.
Hypothesis iter_perm : forall l, Permutation (iter l) l.

(** The wire loop of [simulate_circuit] processes no wire twice. *)
Lemma process_groups_once (wires : list Wire) (gates : list Gate)
  (connections : list (list nat)) (l : list (nat * Wire)) :
  Forall wire_ok wires ->
  well_keyed connections ->
  List.length connections = List.length wires ->
  (forall x y, edge connections x y -> edge connections y x) ->
  Forall (fun iw => fst iw < List.length wires) l ->
  forall c processed,
  (forall x y, In x processed -> edge connections x y -> In y processed) ->
  exists order processed',
    for_each l (fun iw st =>
      if mem (fst iw) (snd st) then Ok st
      else
        connected_group <- get_connected_wires iter (fst iw) connections ;;
        for_each (iter connected_group) (process_wire wires gates) st)
      (Some c, processed)
    = Ok (Some (append_ops (flat_map (wire_block wires gates) order) c),
          processed') /\
    NoDup order /\
    (forall x, In x order -> ~ In x processed /\ x < List.length wires) /\
    (forall x, In x processed' <-> In x processed \/ In x order) /\
    (forall iw, In iw l -> In (fst iw) processed').
Proof.
  intros Hall Hwk Hlen Hsym.
  induction 1 as [| [i w] l Hi _ IH]; intros c processed Hclosed.
  - exists [], processed. cbn [for_each flat_map]. rewrite append_ops_nil.
    split; [reflexivity |]. split; [constructor |].
    split; [intros x [] |]. split; [intros x; simpl; tauto | intros iw []].
  - cbn [for_each fst snd]. cbn [fst] in Hi.
    destruct (mem i processed) eqn:E.
    + cbn [bind].
      destruct (IH c processed Hclosed)
        as (order & p' & Hrun & Hnd & Hnew & Hin & Hdone).
      exists order, p'. split; [exact Hrun |]. split; [exact Hnd |].
      split; [exact Hnew |]. split; [exact Hin |].
      intros iw [<- | Hiw]; [| apply Hdone; exact Hiw].
      cbn [fst]. apply Hin. left. apply mem_In. exact E.
    + apply mem_false in E.
      destruct (@get_connected_wires_closed iter iter_perm i connections Hwk
                  ltac:(lia))
        as (group & visited & _ & Hget & Hstart & _ & _ & Hbound & _).
      destruct (@get_connected_wires_reach iter iter_perm i connections
                  group Hget) as [Hndg Hreach].
      rewrite Hget. cbn [bind].
      assert (HinI : forall x, In x (iter group) <-> In x group).
      { intros x; split; apply Permutation_in;
          [apply iter_perm | apply Permutation_sym, iter_perm]. }
      assert (Hord : Forall (fun k => k < List.length wires) (iter group)).
      { apply Forall_forall. intros x Hx. apply HinI in Hx.
        rewrite <- Hlen. apply Hbound. exact Hx. }
      assert (Hfresh : forall x, In x (iter group) -> ~ In x processed).
      { intros x Hx Hp. apply HinI in Hx. apply Hreach in Hx.
        apply E.
        apply (closed_reach (fun z => In z processed) Hclosed Hp).
        apply reach_sym; assumption. }
      destruct (@process_group_ok wires gates (iter group) Hall Hord c
                  processed) as (p1 & Hp1 & Hin1).
      rewrite Hp1. cbn [bind].
      assert (Hclosed1 : forall x y, In x p1 -> edge connections x y ->
                                     In y p1).
      { intros x y Hx Hxy. apply Hin1. apply Hin1 in Hx.
        destruct Hx as [Hx | Hx]; [left; apply (Hclosed x y Hx Hxy) |].
        right. apply HinI. apply Hreach. apply reach_step with x;
          [apply Hreach, HinI; exact Hx | exact Hxy]. }
      destruct (IH (append_ops (flat_map (wire_block wires gates)
                                         (iter group)) c) p1 Hclosed1)
        as (order & p' & Hrun & Hnd & Hnew & Hin & Hdone).
      exists (iter group ++ order), p'.
      rewrite Hrun, append_ops_app, <- flat_map_app.
      split; [reflexivity |]. split; [| split; [| split]].
      * apply NoDup_app.
        -- apply (Permutation_NoDup (Permutation_sym (iter_perm group))).
           exact Hndg.
        -- exact Hnd.
        -- intros a Ha Ho. apply Hnew in Ho. destruct Ho as [Ho _].
           apply Ho. apply Hin1. right; exact Ha.
      * intros x Hx. apply in_app_iff in Hx. destruct Hx as [Hx | Hx].
        -- split; [apply Hfresh; exact Hx |].
           rewrite Forall_forall in Hord. apply Hord; exact Hx.
        -- destruct (Hnew x Hx) as [Hn Hb]. split; [| exact Hb].
           intros Hp. apply Hn. apply Hin1. left; exact Hp.
      * intros x. rewrite Hin, Hin1, in_app_iff. tauto.
      * intros iw [<- | Hiw]; [| apply Hdone; exact Hiw].
        cbn [fst]. apply Hin. left. apply Hin1. right.
        apply HinI. exact Hstart.
Qed.

End Partition.

(** The circuit is the blocks of the wires in some order without
    repetition or omission, then the measurements. *)
Lemma compile_in_some_order (iter : list nat -> list nat)
  (iter_perm : forall l, Permutation (iter l) l)
  (old : option QuantumCircuit) (wires : list Wire) (gates : list Gate)
  (sensors : list point) :
  wires <> [] -> Forall wire_ok wires ->
  exists order,
    Permutation order (seq 0 (List.length wires)) /\
    compile iter old wires gates sensors
    = Ok (Some (mkCircuit (Nat.max (List.length wires) 1)
                  (Nat.max (List.length wires) 1)
                  (flat_map (wire_block wires gates) order
                   ++ measurement_part wires sensors))).
Proof.
  intros Hne Hall.
  pose proof (wires_have_points Hall) as Hpts.
  destruct (find_wire_connections_spec Hpts)
    as (conns & Hconns & Hlen & Hrow).
  destruct (find_wire_connections_well_keyed Hpts Hconns) as [Hwk _].
  pose proof (find_wire_connections_edge_sym Hpts Hconns) as Hsym.
  assert (Hfst : Forall (fun iw : nat * Wire => fst iw < List.length wires)
                        (enumerate wires)).
  { apply Forall_forall. intros [i w] Hin. apply enumerate_In in Hin.
    cbn [fst]. apply nth_error_Some. congruence. }
  destruct (@process_groups_once iter iter_perm wires gates conns
              (enumerate wires) Hall Hwk Hlen Hsym Hfst
              (mkCircuit (Nat.max (List.length wires) 1)
                         (Nat.max (List.length wires) 1) []) []
              ltac:(intros x y []))
    as (order & p' & Hrun & Hnd & Hnew & Hin & Hdone).
  exists order. split.
  - apply NoDup_Permutation; [exact Hnd | apply seq_NoDup |].
    intros x. rewrite in_seq. split.
    + intros Hx. apply Hnew in Hx. lia.
    + intros [_ Hx]. cbn in Hx.
      destruct (nth_error wires x) as [w |] eqn:E;
        [| apply nth_error_None in E; lia].
      assert (Hiw : In (x, w) (enumerate wires))
        by (apply enumerate_In; exact E).
      specialize (Hdone _ Hiw). cbn [fst] in Hdone. apply Hin in Hdone.
      destruct Hdone as [[] | H]; exact H.
  - unfold compile. rewrite Hconns. cbn [bind]. unfold process_groups.
    rewrite (initialize_circuit_nonempty old Hne), Hrun. cbn [bind fst].
    rewrite finish_measurements, append_ops_app. reflexivity.
Qed.

(** Compilation resets and processes every wire exactly once: the circuit
    is the blocks of the wires, taken in an order that is a permutation of
    the wire indices, followed by the measurements. *)
Theorem every_wire_processed_once (iter : list nat -> list nat)
  (iter_perm : forall l, Permutation (iter l) l)
  (old : option QuantumCircuit) (wires : list Wire) (gates : list Gate)
  (sensors : list point) :
  wires <> [] -> Forall wire_ok wires ->
  exists order,
    Permutation order (seq 0 (List.length wires)) /\
    compile iter old wires gates sensors
    = Ok (Some (mkCircuit (Nat.max (List.length wires) 1)
                  (Nat.max (List.length wires) 1)
                  (flat_map (fun i =>
                     Reset i ::
                     flat_map (fun g => gate_ops (List.length wires) i
                                                 (gate_type (fst g)))
                       (sort_by_key
                          (matched_gates gates (nth i wires (mkWire [])))))
                     order
                   ++ measurement_part wires sensors))).
Proof.
  intros Hne Hall.
  exact (@compile_in_some_order iter iter_perm old wires gates sensors
           Hne Hall).
Qed.

(** The two joined wires. *)
Lemma every_wire_processed_once_witness :
  exists order,
    Permutation order (seq 0 2) /\
    compile ascending None Examples.junction_wires [Examples.cnot_gate] []
    = Ok (Some (mkCircuit 2 2
                  (flat_map (wire_block Examples.junction_wires
                               [Examples.cnot_gate]) order
                   ++ measurement_part Examples.junction_wires []))).
Proof.
  apply (@every_wire_processed_once ascending ascending_perm None
           Examples.junction_wires [Examples.cnot_gate] []).
  - discriminate.
  - exact junction_wires_ok.
Defined.

Lemma gate_ops_in_range (n idx : nat) (ty : string) :
  idx < n -> forallb (op_in_range n) (gate_ops n idx ty) = true.
Proof.
  intros Hlt. apply Nat.ltb_lt in Hlt. unfold gate_ops.
  destruct (String.eqb ty "H"); [cbn [forallb op_in_range]; rewrite Hlt; reflexivity |].
  destruct (String.eqb ty "X"); [cbn [forallb op_in_range]; rewrite Hlt; reflexivity |].
  destruct (String.eqb ty "Y"); [cbn [forallb op_in_range]; rewrite Hlt; reflexivity |].
  destruct (String.eqb ty "Z"); [cbn [forallb op_in_range]; rewrite Hlt; reflexivity |].
  destruct (String.eqb ty "CNOT"); cbn [andb]; [| reflexivity].
  destruct (idx + 1 <? n) eqn:E; [| reflexivity].
  cbn [forallb op_in_range]. rewrite Hlt, E.
  replace (idx =? idx + 1) with false
    by (symmetry; apply Nat.eqb_neq; lia).
  reflexivity.
Qed.

Lemma wire_block_in_range (wires : list Wire) (gates : list Gate)
  (idx : nat) :
  idx < List.length wires ->
  forallb (op_in_range (List.length wires)) (wire_block wires gates idx)
  = true.
Proof.
  intros Hlt. unfold wire_block. cbn [forallb op_in_range].
  replace (idx <? List.length wires) with true
    by (symmetry; apply Nat.ltb_lt; exact Hlt).
  cbn [andb]. apply forallb_flat_map. intros g _.
  apply gate_ops_in_range. exact Hlt.
Qed.

Lemma measurement_part_in_range (wires : list Wire) (sensors : list point) :
  forallb (op_in_range (List.length wires)) (measurement_part wires sensors)
  = true.
Proof.
  unfold measurement_part.
  destruct (measure_ops wires sensors) as [| o ms] eqn:E; [reflexivity |].
  rewrite <- E. apply forallb_forall. intros o' Ho.
  apply measure_ops_In in Ho. destruct Ho as (i & w & s & -> & Hw & _).
  assert (Hi : i < List.length wires) by (apply nth_error_Some; congruence).
  apply Nat.ltb_lt in Hi. cbn [op_in_range]. rewrite Hi. reflexivity.
Qed.

(** Compilation never addresses a qubit or a classical bit outside the
    circuit: every call names qubit indices below the number of wires, a
    [cx] has two different qubits, and every measurement, those of the
    [measure_all()] fallback included, is of a qubit of the circuit into
    a classical bit the circuit has when compilation ends. *)
Theorem compiled_operations_in_range (iter : list nat -> list nat)
  (iter_perm : forall l, Permutation (iter l) l)
  (old : option QuantumCircuit) (wires : list Wire) (gates : list Gate)
  (sensors : list point) :
  wires <> [] -> Forall wire_ok wires ->
  exists qc,
    compile iter old wires gates sensors = Ok (Some qc) /\
    num_qubits qc = List.length wires /\
    forallb (op_in_range (List.length wires)) (data qc) = true /\
    (forall q c, In (q, c) (measurements qc) ->
                 q < num_qubits qc /\ c < num_clbits qc).
Proof.
  intros Hne Hall.
  destruct (@compile_in_some_order iter iter_perm old wires gates sensors
              Hne Hall) as (order & Hperm & Hc).
  rewrite (max_length_nonempty Hne) in Hc.
  eexists. split; [exact Hc |].
  unfold num_qubits, num_clbits, measurements. cbn [qr cr data].
  split; [reflexivity |]. split.
  - rewrite forallb_app, measurement_part_in_range, andb_true_r.
    apply forallb_flat_map. intros i Hi. apply wire_block_in_range.
    apply (Permutation_in _ Hperm) in Hi. apply in_seq in Hi. lia.
  - assert (Hbody : forallb (fun o => negb (is_measurement o))
                      (flat_map (wire_block wires gates) order) = true).
    { apply forallb_flat_map. intros i _. apply wire_block_not_measurement. }
    destruct (@measured_skip (List.length wires) _
                (measurement_part wires sensors) Hbody (List.length wires))
      as [-> ->].
    unfold measurement_part.
    destruct (measure_ops wires sensors) as [| o ms] eqn:E.
    + destruct (measured_measure_all (List.length wires)) as [-> ->].
      intros q c Hqc. apply in_map_iff in Hqc.
      destruct Hqc as (i & Ei & Hi). inversion Ei; subst.
      apply in_seq in Hi. lia.
    + rewrite <- E.
      assert (Hms : forall o, In o (measure_ops wires sensors) ->
                              exists q c, o = Measure q c).
      { intros o' Ho. apply measure_ops_In in Ho.
        destruct Ho as (i & _ & _ & -> & _). exists i, i. reflexivity. }
      destruct (@measured_measure_calls (List.length wires) _ Hms
                  (List.length wires)) as [-> Hm].
      intros q c Hqc. apply (proj1 (Hm q c)) in Hqc.
      apply measure_ops_In in Hqc.
      destruct Hqc as (i & w & s & Ei & Hw & _). inversion Ei; subst.
      assert (Hi : i < List.length wires)
        by (apply nth_error_Some; congruence).
      lia.
Qed.

(** The two joined wires with a CNOT on the first and no sensor: the
    fallback measures into the bits 2 and 3 of four. *)
Lemma compiled_operations_in_range_witness :
  exists qc,
    compile ascending None Examples.junction_wires [Examples.cnot_gate] []
      = Ok (Some qc) /\
    num_qubits qc = 2 /\
    forallb (op_in_range 2) (data qc) = true /\
    (forall q c, In (q, c) (measurements qc) ->
                 q < num_qubits qc /\ c < num_clbits qc).
Proof.
  apply (@compiled_operations_in_range ascending ascending_perm None
           Examples.junction_wires [Examples.cnot_gate] []).
  - discriminate.
  - exact junction_wires_ok.
Defined.

Lemma insert_by_key_In (x y : Gate * R) (l : list (Gate * R)) :
  In y (insert_by_key x l) <-> y = x \/ In y l.
Proof.
  split.
  - intros H. apply (Permutation_in _ (insert_by_key_perm x l)) in H.
    destruct H as [<- | H]; auto.
  - intros H.
    apply (Permutation_in _ (Permutation_sym (insert_by_key_perm x l))).
    destruct H as [-> | H]; [left; reflexivity | right; exact H].
Qed.

Lemma insert_by_key_sorted (x : Gate * R) (l : list (Gate * R)) :
  StronglySorted (fun a b => (snd a <= snd b)%R) l ->
  StronglySorted (fun a b => (snd a <= snd b)%R) (insert_by_key x l).
Proof.
  induction 1 as [| y t Ht IH Hy]; cbn [insert_by_key].
  - constructor; constructor.
  - destruct (Rle_dec (snd x) (snd y)) as [Hle | Hnle].
    + constructor; [constructor; assumption |].
      constructor; [exact Hle |].
      rewrite Forall_forall in *. intros z Hz. specialize (Hy z Hz). lra.
    + constructor; [exact IH |].
      apply Forall_forall. intros z Hz. apply insert_by_key_In in Hz.
      destruct Hz as [-> | Hz]; [lra |].
      rewrite Forall_forall in Hy. apply Hy; exact Hz.
Qed.

Lemma insert_by_key_filter (r : R) (x : Gate * R) (l : list (Gate * R)) :
  filter (key_is r) (insert_by_key x l)
  = if key_is r x then x :: filter (key_is r) l else filter (key_is r) l.
Proof.
  induction l as [| y t IH]; cbn [insert_by_key filter].
  - reflexivity.
  - destruct (Rle_dec (snd x) (snd y)) as [Hle | Hnle]; cbn [filter].
    + reflexivity.
    + rewrite IH. unfold key_is.
      destruct (Req_dec_T (snd x) r) as [Ex | Ex];
        destruct (Req_dec_T (snd y) r) as [Ey | Ey]; try reflexivity.
      exfalso. apply Hnle. lra.
Qed.

(** [wire_gates.sort(key=...)] arranges the gates of a wire by
    non-decreasing position without adding or losing any, and gates at
    the same position keep the order in which they were collected. *)
Theorem gates_sorted_by_position (l : list (Gate * R)) :
  Permutation (sort_by_key l) l /\
  StronglySorted (fun a b => (snd a <= snd b)%R) (sort_by_key l) /\
  (forall r, filter (key_is r) (sort_by_key l) = filter (key_is r) l).
Proof.
  split; [apply sort_by_key_perm | split].
  - induction l as [| x t IH]; cbn [sort_by_key fold_right].
    + constructor.
    + apply insert_by_key_sorted. exact IH.
  - intros r. induction l as [| x t IH]; cbn [sort_by_key fold_right].
    + reflexivity.
    + rewrite insert_by_key_filter. fold (sort_by_key t). rewrite IH.
      cbn [filter]. reflexivity.
Qed.

Lemma for_each_ok_all {A S : Type} (body : A -> S -> result S)
  (l : list A) : forall s s',
  for_each l body s = Ok s' ->
  forall x, In x l -> exists s1 s2, body x s1 = Ok s2.
Proof.
  induction l as [| a l IH]; intros s s' H x Hx; [contradiction |].
  cbn [for_each] in H. destruct (body a s) as [s1 |] eqn:E; [| discriminate].
  cbn [bind] in H. destruct Hx as [<- | Hx]; [eauto |].
  eapply IH; eassumption.
Qed.

Lemma for_each_raise {A S : Type} (body : A -> S -> result S)
  (l : list A) : forall s e,
  for_each l body s = Raise e ->
  exists x s1, In x l /\ body x s1 = Raise e.
Proof.
  induction l as [| a l IH]; intros s e H; [discriminate |].
  cbn [for_each] in H. destruct (body a s) as [s1 |] eqn:E.
  - cbn [bind] in H. destruct (IH _ _ H) as (x & s2 & Hx & Hb).
    exists x, s2. split; [right; exact Hx | exact Hb].
  - cbn [bind] in H. inversion H; subst. exists a, s.
    split; [left; reflexivity | exact E].
Qed.

Lemma endpoints_raise (w : Wire) (e : exn) :
  endpoints w = Raise e -> e = IndexError /\ points w = [].
Proof.
  unfold endpoints. destruct (points w); [| discriminate].
  intros H; inversion H; auto.
Qed.

Lemma connect_pair_raise (w1 w2 : Wire) (j : nat) (s : list nat) (e : exn) :
  connect_pair w1 w2 j s = Raise e -> e = IndexError.
Proof.
  unfold connect_pair. destruct (endpoints w1) as [e1 |] eqn:E1.
  - cbn [bind]. intros H. apply for_each_raise in H.
    destruct H as (p1 & s1 & _ & H).
    destruct (endpoints w2) as [e2 |] eqn:E2.
    + cbn [bind] in H. apply for_each_raise in H.
      destruct H as (p2 & s2 & _ & H). discriminate.
    + cbn [bind] in H. inversion H; subst.
      apply endpoints_raise in E2. tauto.
  - cbn [bind]. intros H. inversion H; subst.
    apply endpoints_raise in E1. tauto.
Qed.

Lemma connect_pair_ok (w1 w2 : Wire) (j : nat) (s s' : list nat) :
  connect_pair w1 w2 j s = Ok s' -> points w1 <> [] /\ points w2 <> [].
Proof.
  unfold connect_pair, endpoints.
  destruct (points w1) as [| p1 r1]; [discriminate |].
  destruct (points w2) as [| p2 r2]; [| split; discriminate].
  cbn [bind for_each]. discriminate.
Qed.

(** [find_wire_connections] can only raise [IndexError]. *)
Lemma find_wire_connections_raise (wires : list Wire) (e : exn) :
  find_wire_connections wires = Raise e -> e = IndexError.
Proof.
  unfold find_wire_connections. intros H. apply for_each_raise in H.
  destruct H as ([i wi] & c & _ & H). cbn [fst snd] in H.
  match type of H with
  | bind ?m _ = _ => destruct m as [s |] eqn:E; [discriminate |]
  end.
  cbn [bind] in H. inversion H; subst.
  apply for_each_raise in E. destruct E as ([j wj] & s1 & _ & E).
  cbn [fst snd] in E. destruct (i =? j); [discriminate |].
  apply connect_pair_raise in E. exact E.
Qed.

(** If [find_wire_connections] returns, then either there is at most one
    wire or every wire has a point. *)
Lemma find_wire_connections_ok_points (wires : list Wire)
  (c : list (list nat)) :
  find_wire_connections wires = Ok c ->
  2 <= List.length wires -> Forall (fun w => points w <> []) wires.
Proof.
  unfold find_wire_connections. intros H Hlen.
  apply Forall_forall. intros w Hw.
  apply In_nth_error in Hw. destruct Hw as [k Hk].
  (* another wire [j] *)
  assert (Hj : exists j wj, j <> k /\ nth_error wires j = Some wj).
  { destruct wires as [| w0 [| w1 rest]]; cbn [List.length] in Hlen; try lia.
    destruct k as [| k].
    - exists 1, w1. split; [lia | reflexivity].
    - exists 0, w0. split; [lia | reflexivity]. }
  destruct Hj as (j & wj & Hne & Hj).
  assert (Hin : In (k, w) (enumerate wires)) by (apply enumerate_In; exact Hk).
  destruct (for_each_ok_all _ _ _ H _ Hin) as (c1 & c2 & Hrow).
  cbn [fst snd] in Hrow.
  match type of Hrow with
  | bind ?m _ = _ => destruct m as [s |] eqn:E; [| discriminate]
  end.
  assert (Hinj : In (j, wj) (enumerate wires))
    by (apply enumerate_In; exact Hj).
  destruct (for_each_ok_all _ _ _ E _ Hinj) as (s1 & s2 & Hpair).
  cbn [fst snd] in Hpair.
  destruct (Nat.eqb_spec k j) as [-> | _]; [congruence |].
  apply connect_pair_ok in Hpair. tauto.
Qed.

(** [find_wire_connections] returns one row per wire, in which no wire is
    its own neighbour and every neighbour is the index of a wire, when
    there is at most one wire or every wire has a point; with two or more
    wires, one of them without any point, it raises [IndexError]. *)
Theorem find_wire_connections_outcome (wires : list Wire) :
  (List.length wires <= 1 \/ Forall (fun w => points w <> []) wires ->
   exists connections,
     find_wire_connections wires = Ok connections /\
     List.length connections = List.length wires /\
     forall i row j, nth_error connections i = Some row -> In j row ->
                     j <> i /\ j < List.length wires) /\
  (2 <= List.length wires ->
   Exists (fun w => points w = []) wires ->
   find_wire_connections wires = Raise IndexError).
Proof.
  split.
  - intros [Hlen | Hall].
    + destruct wires as [| w [| w' rest]]; cbn [List.length] in Hlen;
        try lia.
      * exists []. split; [reflexivity | split; [reflexivity |]].
        intros [| i]; discriminate.
      * exists [[]]. split; [reflexivity | split; [reflexivity |]].
        intros [| [| i]] row j Hrow Hj; try discriminate.
        inversion Hrow; subst. contradiction.
    + destruct (find_wire_connections_spec Hall)
        as (c & Hc & Hlen & Hrow).
      exists c. split; [exact Hc | split; [exact Hlen |]].
      intros i row j Hi Hj. apply (Hrow _ _ Hi) in Hj.
      destruct Hj as (wi & wj & _ & Hwj & Hne & _).
      split; [congruence |]. apply nth_error_Some. congruence.
  - intros Hlen Hex.
    destruct (find_wire_connections wires) as [c | e] eqn:E.
    + exfalso. pose proof (find_wire_connections_ok_points _ E Hlen) as Hall.
      apply Exists_exists in Hex. destruct Hex as (w & Hw & He).
      rewrite Forall_forall in Hall. exact (Hall w Hw He).
    + f_equal. apply (find_wire_connections_raise _ E).
Qed.

(** Two wires, the second without points. *)
Lemma find_wire_connections_outcome_witness :
  find_wire_connections [mkWire [(0, 0); (20, 0)]%Z; mkWire []]
  = Raise IndexError.
Proof.
  apply (proj2 (find_wire_connections_outcome
                  [mkWire [(0, 0); (20, 0)]%Z; mkWire []])).
  - cbn [List.length]. lia.
  - right. left. reflexivity.
Defined.

End GroupFacts.

Module SegmentFacts.
Import ListNotations Geometry Reference Editor.
Import GeometryFacts EditorFacts.
Local Open Scope nat_scope.

(** Every point of a polyline of two points or more is an end point of
    one of its segments. *)
Lemma point_is_segment_end (p : point) : forall pts : list point,
  2 <= List.length pts -> In p pts ->
  exists seg, In seg (segments pts) /\ (p = fst seg \/ p = snd seg).
Proof.
  induction pts as [| p1 pts IH]; intros Hlen Hin; [inversion Hin |].
  destruct pts as [| p2 rest]; [cbn in Hlen; lia |].
  cbn [segments]. destruct Hin as [<- | Hin].
  - exists (p1, p2). split; [left; reflexivity | left; reflexivity].
  - destruct rest as [| p3 rest'].
    + destruct Hin as [<- | []]. exists (p1, p2).
      split; [left; reflexivity | right; reflexivity].
    + destruct (IH ltac:(cbn [List.length]; lia) Hin) as (seg & Hseg & Hp).
      exists seg. split; [right; exact Hseg | exact Hp].
Qed.

(** Both end points of a segment pass the hit test of the segment, and so
    every point of a wire of two points or more passes the hit test of
    the wire: a click of the delete tool on any point a wire was drawn
    through finds the wire. *)
Theorem wire_holds_its_points :
  (forall a b : point,
      point_on_line_segment a a b = true /\
      point_on_line_segment b a b = true) /\
  (forall (w : Wire) (p : point),
      2 <= List.length (points w) -> In p (points w) ->
      wire_hit p w = true).
Proof.
  split.
  - intros a b. rewrite !point_on_line_segment_decide.
    split; [apply on_segment_start | apply on_segment_end].
  - intros w p Hlen Hin. unfold wire_hit. apply existsb_exists.
    destruct (point_is_segment_end p (points w) Hlen Hin)
      as ([a b] & Hseg & Hp).
    exists (a, b). split; [exact Hseg |]. cbn [fst snd] in *.
    rewrite point_on_line_segment_decide.
    destruct Hp as [-> | ->]; [apply on_segment_start | apply on_segment_end].
Qed.

End SegmentFacts.

Module DistanceFacts.
Import Geometry Reference Editor Compiler.
Import GeometryFacts CompilerFacts EditorFacts.
Local Open Scope R_scope.

Lemma wire_hit_lies_on (pt : point) (w : Wire) :
  wire_hit pt w = lies_on pt w.
Proof. unfold wire_hit. symmetry. apply lies_on_code. Qed.

(** What [get_position_along_wire] does in every case: 0 for a point on
    no segment of the wire; [ZeroDivisionError] for a point on a segment
    of a wire whose total length is zero; otherwise a fraction between 0
    and 1. *)
Theorem position_along_wire_outcome (pt : point) (w : Wire) :
  (wire_hit pt w = false -> get_position_along_wire pt w = Ok 0) /\
  (wire_hit pt w = true -> length_sum (segments (points w)) = 0 ->
   get_position_along_wire pt w = Raise ZeroDivisionError) /\
  (wire_hit pt w = true -> length_sum (segments (points w)) <> 0 ->
   exists r, get_position_along_wire pt w = Ok r /\ 0 <= r <= 1).
Proof.
  rewrite wire_hit_lies_on, get_position_along_wire_last_match.
  split; [| split].
  - intros Hno. destruct (last_match pt (segments (points w))) as [i |] eqn:E;
      [| reflexivity].
    assert (H : lies_on pt w = true)
      by (apply last_match_lies_on; exists i; exact E).
    congruence.
  - intros Hyes Hz. apply last_match_lies_on in Hyes.
    destruct Hyes as [i Hi]. rewrite Hi.
    destruct (Req_dec_T _ 0); [reflexivity | contradiction].
  - intros Hyes Hnz. apply last_match_lies_on in Hyes.
    destruct Hyes as [i Hi]. rewrite Hi.
    destruct (Req_dec_T _ 0); [contradiction |].
    eexists. split; [reflexivity |].
    pose proof (numerator_bounds _ _ Hi) as [H1 H2].
    pose proof (length_sum_nonneg (firstn i (segments (points w)))) as H0.
    pose proof (length_sum_firstn_le (segments (points w)) (S i)) as H3.
    pose proof (length_sum_nonneg (segments (points w))) as HT.
    unfold fraction_at.
    assert (Hpos : 0 < length_sum (segments (points w))) by lra.
    split.
    + unfold Rdiv. apply Rmult_le_pos; [lra |].
      apply Rlt_le, Rinv_0_lt_compat. exact Hpos.
    + apply Rmult_le_reg_r with (length_sum (segments (points w)));
        [exact Hpos |].
      unfold Rdiv. rewrite Rmult_assoc, Rinv_l by lra. lra.
Qed.

(** A wire of zero length with a gate on it. *)
Lemma position_along_wire_outcome_witness :
  get_position_along_wire (0, 0)%Z (mkWire [(0, 0); (0, 0)]%Z)
  = Raise ZeroDivisionError.
Proof.
  apply (proj1 (proj2 (position_along_wire_outcome
                         (0, 0)%Z (mkWire [(0, 0); (0, 0)]%Z)))).
  - rewrite wire_hit_lies_on. reflexivity.
  - cbn [points segments length_sum fst snd]. rewrite euclid_self. lra.
Defined.

Lemma sqrt_le_threshold (u t : R) :
  0 <= u -> 0 <= t -> (sqrt u <= t <-> u <= t * t).
Proof.
  intros Hu Ht. rewrite <- (sqrt_square t Ht) at 1. split; intros H.
  - apply sqrt_le_0 in H; [exact H | exact Hu | nra].
  - apply sqrt_le_1; [exact Hu | nra | exact H].
Qed.

(** [point_near_pos] does not depend on the order of the two positions
    nor on the sign of the threshold, holds of a position and itself, and
    for a threshold that is not negative says that the Euclidean distance
    is at most the threshold. *)
Theorem point_near_pos_is_distance_test (p q : point) (t : Z) :
  point_near_pos p q t = point_near_pos q p t /\
  point_near_pos p q (- t) = point_near_pos p q t /\
  point_near_pos p p t = true /\
  ((0 <= t)%Z -> (point_near_pos p q t = true <-> euclid p q <= IZR t)).
Proof.
  split; [| split; [| split]].
  - unfold point_near_pos. f_equal. ring.
  - unfold point_near_pos. f_equal. ring.
  - unfold point_near_pos. apply Z.leb_le.
    replace (fst p - fst p)%Z with 0%Z by ring.
    replace (snd p - snd p)%Z with 0%Z by ring.
    pose proof (Z.square_nonneg t). lia.
  - intros Ht. unfold point_near_pos, euclid. rewrite Z.leb_le.
    rewrite sqrt_le_threshold;
      [| apply IZR_le; nia | apply IZR_le; exact Ht].
    rewrite <- mult_IZR. split; intros H.
    + apply IZR_le. nia.
    + apply le_IZR in H. nia.
Qed.

Lemma point_near_pos_is_distance_test_witness :
  point_near_pos (0, 0)%Z (3, 4)%Z 5 = true <->
  euclid (0, 0)%Z (3, 4)%Z <= IZR 5.
Proof.
  apply (proj2 (proj2 (proj2 (point_near_pos_is_distance_test
                                (0, 0)%Z (3, 4)%Z 5)))).
  lia.
Defined.

End DistanceFacts.

Module TableFacts.

Import ListNotations Aggregator Reference Tables AggregatorFacts.
Local Open Scope nat_scope.

Lemma update_keys (k : nat) (f : Q * Q -> Q * Q) (t : table) :
  map fst (update k f t) = map fst t.
Proof.
  induction t as [| [k' v] t IH]; cbn [update map]; [reflexivity |].
  destruct (Nat.eqb k' k); cbn [map fst]; [reflexivity |].
  rewrite IH. reflexivity.
Qed.

Lemma has_key_In (k : nat) (t : table) :
  has_key k t = true <-> In k (map fst t).
Proof.
  unfold has_key. rewrite existsb_exists, in_map_iff. split.
  - intros (e & He & Hk). apply Nat.eqb_eq in Hk. exists e. auto.
  - intros (e & Hk & He). exists e. split; [exact He |].
    apply Nat.eqb_eq. exact Hk.
Qed.

(** One bit: the key of its position is appended when it is new. *)
Lemma add_bit_keys (p : Q) (t : table) (idx : nat) (bit : ascii) :
  map fst (add_bit p t (idx, bit))
  = if has_key idx t then map fst t else map fst t ++ [idx].
Proof.
  unfold add_bit.
  assert (H : map fst (if has_key idx t then t else t ++ [(idx, (0, 0)%Q)])
              = if has_key idx t then map fst t else map fst t ++ [idx]).
  { destruct (has_key idx t); [reflexivity |]. rewrite map_app. reflexivity. }
  destruct (Ascii.eqb bit "0"); [rewrite update_keys; exact H |].
  destruct (Ascii.eqb bit "1"); [rewrite update_keys; exact H |].
  exact H.
Qed.

Lemma add_bits_keys (p : Q) (bits : list ascii) : forall (a k : nat)
  (t : table),
  a <= k -> map fst t = seq 0 k ->
  map fst (fold_left (add_bit p)
             (combine (seq a (List.length bits)) bits) t)
  = seq 0 (Nat.max k (a + List.length bits)).
Proof.
  induction bits as [| b bits IH]; intros a k t Hak Hk;
    cbn [List.length seq combine fold_left].
  - rewrite Nat.add_0_r, Nat.max_l by lia. exact Hk.
  - destruct (has_key a t) eqn:E.
    + assert (Ha : a < k).
      { apply has_key_In in E. rewrite Hk in E. apply in_seq in E. lia. }
      rewrite (IH (S a) k); [f_equal; lia | lia |].
      rewrite add_bit_keys, E. exact Hk.
    + assert (Ha : a = k).
      { destruct (Nat.eq_dec a k) as [-> | Hne]; [reflexivity |].
        exfalso. assert (Hin : In a (map fst t))
          by (rewrite Hk; apply in_seq; lia).
        apply has_key_In in Hin. congruence. }
      subst a.
      rewrite (IH (S k) (S k)); [f_equal; lia | lia |].
      rewrite add_bit_keys, E, Hk, seq_S. reflexivity.
Qed.

Lemma process_counts_keys (total : Z) (counts : list (string * Z)) :
  forall (k : nat) (t : table),
  map fst t = seq 0 k ->
  map fst (fold_left (fun t bc =>
       fold_left (add_bit (inject_Z (snd bc) / inject_Z total))
                 (enumerate (bits_of (fst bc))) t) counts t)
  = seq 0 (Nat.max k (max_width counts)).
Proof.
  induction counts as [| [bs c] counts IH]; intros k t Hk;
    cbn [fold_left].
  - unfold max_width. cbn [map fold_right]. rewrite Nat.max_0_r. exact Hk.
  - rewrite (IH (Nat.max k (List.length (bits_of bs)))).
    + f_equal. unfold max_width. cbn [map fold_right fst]. lia.
    + unfold enumerate. cbn [fst snd].
      rewrite (@add_bits_keys _ (bits_of bs) 0 k t (Nat.le_0_l k) Hk).
      reflexivity.
Qed.

(** The keys of the result are "Sensor 0", "Sensor 1", ... up to the
    largest number of bits of a bitstring, each once and in this order,
    whatever characters the bitstrings hold. *)
Theorem result_keys_are_contiguous (counts : list (string * Z)) :
  total_of counts <> 0%Z ->
  map fst (process_measurement_results counts)
  = seq 0 (max_width counts).
Proof.
  intros Hnz.
  rewrite (@process_measurement_results_nonzero counts Hnz).
  rewrite (@process_counts_keys (total_of counts) counts 0 [] eq_refl).
  reflexivity.
Qed.

(** Bitstrings of two registers, of different widths, one with a
    character that is not a bit. *)
Lemma result_keys_are_contiguous_witness :
  map fst (process_measurement_results
             [("0 1"%string, 3%Z); ("1x0"%string, 1%Z)])
  = [0; 1; 2].
Proof.
  apply (@result_keys_are_contiguous
           [("0 1"%string, 3%Z); ("1x0"%string, 1%Z)]).
  vm_compute. discriminate.
Defined.

End TableFacts.

Module GlyphFacts.

Import ListNotations Glyphs.
Local Open Scope N_scope.

Lemma replace_chain_pointwise (line : text) :
  simplify_line line = map plain_of line.
Proof.
  unfold simplify_line, replace. rewrite !map_map.
  apply map_ext. intros c. unfold plain_of, glyph_table.
  cbn [find fst snd].
  repeat match goal with
         | |- context [N.eqb ?k c] =>
             rewrite (N.eqb_sym k c);
             destruct (N.eqb_spec c k) as [-> | ?]; [reflexivity |]
         end.
  repeat match goal with
         | H : c <> ?k |- _ =>
             apply N.eqb_neq in H; rewrite H; clear H
         end.
  reflexivity.
Qed.

Lemma plain_of_newline (c : N) : plain_of c = newline <-> c = newline.
Proof.
  unfold plain_of, glyph_table, newline. cbn [find fst snd].
  repeat match goal with
         | |- context [N.eqb ?k c] =>
             destruct (N.eqb_spec k c) as [<- | ?];
             [cbn [snd]; split; discriminate |]
         end.
  tauto.
Qed.

Lemma split_lines_nonempty (s : text) : split_lines s <> [].
Proof.
  induction s as [| c s IH]; cbn [split_lines]; [discriminate |].
  destruct (N.eqb c newline); [discriminate |].
  destruct (split_lines s); [congruence | discriminate].
Qed.

Lemma join_split (s : text) : join_lines (split_lines s) = s.
Proof.
  induction s as [| c s IH]; cbn [split_lines]; [reflexivity |].
  destruct (N.eqb_spec c newline) as [-> | Hc].
  - pose proof (split_lines_nonempty s) as Hne.
    cbn [join_lines]. destruct (split_lines s) as [| l ls] eqn:E;
      [congruence |].
    cbn [app]. rewrite IH. reflexivity.
  - pose proof (split_lines_nonempty s) as Hne.
    destruct (split_lines s) as [| l ls] eqn:E; [congruence |].
    cbn [join_lines] in *. destruct ls; rewrite <- IH; reflexivity.
Qed.

Lemma join_map_split (f : N -> N) (s : text) :
  (forall c, f c = newline <-> c = newline) ->
  join_lines (map (map f) (split_lines s)) = map f s.
Proof.
  intros Hf. induction s as [| c s IH]; cbn [split_lines]; [reflexivity |].
  pose proof (split_lines_nonempty s) as Hne.
  destruct (N.eqb_spec c newline) as [-> | Hc].
  - destruct (split_lines s) as [| l ls] eqn:E; [congruence |].
    cbn [map join_lines app] in *. rewrite IH.
    rewrite (proj2 (Hf newline) eq_refl). reflexivity.
  - destruct (split_lines s) as [| l ls] eqn:E; [congruence |].
    cbn [map join_lines] in *. destruct ls; rewrite <- IH; reflexivity.
Qed.

Lemma plain_of_not_glyph (c : N) : ~ In (plain_of c) (map fst glyph_table).
Proof.
  unfold plain_of, glyph_table. cbn [find fst snd map].
  repeat match goal with
         | |- context [N.eqb ?k c] =>
             destruct (N.eqb_spec k c) as [<- | ?];
             [cbn [snd In]; intuition discriminate |]
         end.
  cbn [In]. intuition congruence.
Qed.

Lemma plain_of_other (c : N) :
  ~ In c (map fst glyph_table) -> plain_of c = c.
Proof.
  unfold plain_of, glyph_table. cbn [find fst snd map In]. intros H.
  repeat match goal with
         | |- context [N.eqb ?k c] =>
             destruct (N.eqb_spec k c) as [<- | ?]; [exfalso; tauto |]
         end.
  reflexivity.
Qed.

(** The text shown for a circuit drawing is the drawing with each
    character looked up once in the table of box-drawing characters: the
    17 replacements do not feed one another, and taking the lines apart
    and joining them again changes nothing.  So the text has as many
    characters as the drawing, its line breaks are where they were, no
    box-drawing character of the table is left, every other character is
    kept, and simplifying twice is simplifying once. *)
Theorem simplified_circuit_is_pointwise (circuit_str : text) :
  simplified_circuit circuit_str = map plain_of circuit_str /\
  List.length (simplified_circuit circuit_str) = List.length circuit_str /\
  (forall k, nth_error (simplified_circuit circuit_str) k = Some newline <->
             nth_error circuit_str k = Some newline) /\
  (forall c, In c (simplified_circuit circuit_str) ->
             ~ In c (map fst glyph_table)) /\
  (forall k c, nth_error circuit_str k = Some c ->
               ~ In c (map fst glyph_table) ->
               nth_error (simplified_circuit circuit_str) k = Some c) /\
  simplified_circuit (simplified_circuit circuit_str)
  = simplified_circuit circuit_str /\
  join_lines (split_lines circuit_str) = circuit_str.
Proof.
  assert (E : forall s, simplified_circuit s = map plain_of s).
  { intros s. unfold simplified_circuit.
    rewrite (map_ext _ _ replace_chain_pointwise).
    apply join_map_split. exact plain_of_newline. }
  refine (conj (E _) (conj _ (conj _ (conj _ (conj _ (conj _ _)))))).
  - rewrite E. apply length_map.
  - intros k. rewrite E, nth_error_map.
    destruct (nth_error circuit_str k) as [c |]; cbn [option_map].
    + split; intros H.
      * injection H as H1. apply (proj1 (plain_of_newline _)) in H1. subst.
        reflexivity.
      * injection H as ->. reflexivity.
    + tauto.
  - intros c. rewrite E, in_map_iff. intros [c0 [<- _]].
    apply plain_of_not_glyph.
  - intros k c Hk Hc. rewrite E, nth_error_map, Hk. cbn [option_map].
    f_equal. apply plain_of_other. exact Hc.
  - rewrite !E, map_map. apply map_ext. intros c.
    apply plain_of_other. apply plain_of_not_glyph.
  - apply join_split.
Qed.

End GlyphFacts.

Module NearestFacts.

Import ListNotations Geometry Nearest.
Import GeometryFacts ConnectivityFacts.
Local Open Scope R_scope.

Lemma segment_distance_eq (pt : point) (seg : point * point) :
  point_to_line_distance pt (fst seg) (snd seg)
  = Finite (segment_distance pt seg).
Proof.
  unfold segment_distance.
  destruct (point_to_line_distance pt (fst seg) (snd seg)) eqn:E;
    [reflexivity |].
  exfalso. revert E. destruct pt as [x0 y0], seg as [[x1 y1] [x2 y2]].
  cbn [fst snd]. unfold point_to_line_distance.
  destruct (point_eqb (x1, y1) (x2, y2)) eqn:Hp; [discriminate |].
  destruct (Req_dec_T _ 0) as [Hz | Hz]; [| discriminate].
  intros _. exact (denominator_nonzero _ _ _ _ Hp Hz).
Qed.

Lemma scan_segment_first_least (pt : point) (k : nat)
  (seg : point * point) (l : list (nat * (point * point)))
  (st : fdist * option nat) :
  first_least pt l st ->
  (forall j s, In (j, s) l -> (j <= k)%nat) ->
  first_least pt (l ++ [(k, seg)]) (scan_segment pt k st seg).
Proof.
  intros Hl Hk. unfold scan_segment. cbv zeta.
  rewrite segment_distance_eq.
  destruct l as [| x l'].
  - cbn [first_least] in Hl. subst st. cbn [app fst float_lt first_least].
    exists k, seg. refine (conj _ (conj eq_refl (conj _ _))).
    + left; reflexivity.
    + intros j s [H | []]. inversion H; subst. lra.
    + intros j s [H | []] Hlt. inversion H; subst. lia.
  - set (l := x :: l') in *.
    assert (Hl' : exists i seg0,
               In (i, seg0) l /\
               st = (Finite (segment_distance pt seg0), Some i) /\
               (forall j s, In (j, s) l ->
                  segment_distance pt seg0 <= segment_distance pt s) /\
               (forall j s, In (j, s) l -> (j < i)%nat ->
                  segment_distance pt seg0 < segment_distance pt s))
      by exact Hl.
    destruct Hl' as [i [seg0 [Hin [Hst [Hle Hlt]]]]].
    assert (Hgoal : forall st',
               (exists i seg1,
                   In (i, seg1) (l ++ [(k, seg)]) /\
                   st' = (Finite (segment_distance pt seg1), Some i) /\
                   (forall j s, In (j, s) (l ++ [(k, seg)]) ->
                      segment_distance pt seg1 <= segment_distance pt s) /\
                   (forall j s, In (j, s) (l ++ [(k, seg)]) -> (j < i)%nat ->
                      segment_distance pt seg1 < segment_distance pt s)) ->
               first_least pt (l ++ [(k, seg)]) st').
    { intros st' H. unfold l. cbn [app first_least]. exact H. }
    apply Hgoal. subst st. cbn [fst float_lt].
    destruct (Rlt_dec (segment_distance pt seg) (segment_distance pt seg0))
      as [Hd | Hd].
    + exists k, seg. refine (conj _ (conj eq_refl (conj _ _))).
      * apply in_or_app. right. left. reflexivity.
      * intros j s Hjs. apply in_app_or in Hjs. destruct Hjs as [Hjs | [E | []]].
        -- pose proof (Hle _ _ Hjs). lra.
        -- inversion E; subst. lra.
      * intros j s Hjs Hj. apply in_app_or in Hjs.
        destruct Hjs as [Hjs | [E | []]].
        -- pose proof (Hle _ _ Hjs). lra.
        -- inversion E; subst. lia.
    + exists i, seg0. refine (conj _ (conj eq_refl (conj _ _))).
      * apply in_or_app. left. exact Hin.
      * intros j s Hjs. apply in_app_or in Hjs. destruct Hjs as [Hjs | [E | []]].
        -- exact (Hle _ _ Hjs).
        -- inversion E; subst. lra.
      * intros j s Hjs Hj. apply in_app_or in Hjs.
        destruct Hjs as [Hjs | [E | []]].
        -- exact (Hlt _ _ Hjs Hj).
        -- inversion E; subst. pose proof (Hk _ _ Hin). lia.
Qed.

Lemma scan_wire_first_least (pt : point) (k : nat) :
  forall (segs : list (point * point)) (l : list (nat * (point * point)))
         (st : fdist * option nat),
  first_least pt l st ->
  (forall j s, In (j, s) l -> (j <= k)%nat) ->
  first_least pt (l ++ map (pair k) segs)
              (fold_left (scan_segment pt k) segs st).
Proof.
  induction segs as [| seg segs IH]; intros l st Hl Hk.
  - cbn [map fold_left]. rewrite app_nil_r. exact Hl.
  - cbn [map fold_left].
    replace (l ++ (k, seg) :: map (pair k) segs)
      with ((l ++ [(k, seg)]) ++ map (pair k) segs)
      by (rewrite <- app_assoc; reflexivity).
    apply IH.
    + apply scan_segment_first_least; assumption.
    + intros j s Hjs. apply in_app_or in Hjs. destruct Hjs as [Hjs | [E | []]].
      * exact (Hk _ _ Hjs).
      * inversion E; subst. lia.
Qed.

Lemma scan_wires_first_least (pt : point) :
  forall (ws : list Wire) (k : nat) (l : list (nat * (point * point)))
         (st : fdist * option nat),
  first_least pt l st ->
  (forall j s, In (j, s) l -> (j < k)%nat) ->
  first_least pt (l ++ scanned (combine (seq k (List.length ws)) ws))
              (fold_left (scan_wire pt)
                         (combine (seq k (List.length ws)) ws) st).
Proof.
  induction ws as [| w ws IH]; intros k l st Hl Hk.
  - cbn. rewrite app_nil_r. exact Hl.
  - cbn [List.length seq combine fold_left scanned flat_map fst snd].
    rewrite app_assoc. apply IH.
    + unfold scan_wire. cbn [fst snd]. apply scan_wire_first_least.
      * exact Hl.
      * intros j s Hjs. pose proof (Hk _ _ Hjs). lia.
    + intros j s Hjs. apply in_app_or in Hjs. destruct Hjs as [Hjs | Hjs].
      * pose proof (Hk _ _ Hjs). lia.
      * apply in_map_iff in Hjs. destruct Hjs as [s' [E _]].
        inversion E; subst. lia.
Qed.

Lemma scanned_In (wires : list Wire) (i : nat) (seg : point * point) :
  In (i, seg) (scanned (enumerate wires)) <->
  exists w, nth_error wires i = Some w /\ In seg (segments (points w)).
Proof.
  unfold scanned. rewrite in_flat_map. split.
  - intros [[j w] [Hjw Hin]]. cbn [fst snd] in Hin.
    apply in_map_iff in Hin. destruct Hin as [s [E Hs]].
    inversion E; subst. exists w. split; [| exact Hs].
    apply enumerate_In. exact Hjw.
  - intros [w [Hw Hs]]. exists (i, w). split.
    + apply enumerate_In. exact Hw.
    + cbn [fst snd]. apply in_map. exact Hs.
Qed.

Lemma distance_of_scanned (wires : list Wire) (pt : point) (i : nat) (d : R) :
  distance_of wires pt i d <->
  exists seg, In (i, seg) (scanned (enumerate wires)) /\
              d = segment_distance pt seg.
Proof.
  unfold distance_of. split.
  - intros [w [seg [Hw [Hs Hd]]]]. exists seg. split.
    + apply scanned_In. exists w. split; assumption.
    + rewrite segment_distance_eq in Hd. inversion Hd. reflexivity.
  - intros [seg [Hin Hd]]. apply scanned_In in Hin.
    destruct Hin as [w [Hw Hs]]. exists w, seg.
    refine (conj Hw (conj Hs _)). rewrite Hd. apply segment_distance_eq.
Qed.

(** [find_nearest_wire_index] returns the index of the first wire that has
    a segment at the least distance from the point, when that distance is
    less than the cell size, and [None] when no segment of any wire is
    that close (in particular when there is no segment at all).  Every
    segment has a distance, a finite number. *)
Theorem nearest_wire_is_first_least (wires : list Wire) (pt : point) :
  (forall i w seg,
      nth_error wires i = Some w -> In seg (segments (points w)) ->
      exists e, distance_of wires pt i e) /\
  match find_nearest_wire_index wires pt with
  | Some i =>
      exists d,
        distance_of wires pt i d /\ d < IZR grid_size /\
        (forall j e, distance_of wires pt j e -> d <= e) /\
        (forall j e, distance_of wires pt j e -> (j < i)%nat -> d < e)
  | None => forall j e, distance_of wires pt j e -> IZR grid_size <= e
  end.
Proof.
  split.
  - intros i w seg Hw Hs. exists (segment_distance pt seg), w, seg.
    refine (conj Hw (conj Hs _)). apply segment_distance_eq.
  - pose proof (@scan_wires_first_least pt wires 0 [] (PosInf, None)
                  eq_refl (fun j s (H : In (j, s) []) => match H with end))
      as Hfl.
    cbn [app] in Hfl. fold (enumerate wires) in Hfl.
    unfold find_nearest_wire_index. cbv zeta.
    destruct (scanned (enumerate wires)) as [| x l'] eqn:El.
    + cbn [first_least] in Hfl. rewrite Hfl. cbn [fst float_lt].
      intros j e Hd. apply distance_of_scanned in Hd.
      destruct Hd as [seg [Hin _]]. rewrite El in Hin. destruct Hin.
    + cbn [first_least] in Hfl. rewrite <- El in Hfl.
      destruct Hfl as [i [seg [Hin [Hst [Hle Hlt]]]]].
      rewrite Hst. cbn [fst snd float_lt].
      destruct (Rlt_dec (segment_distance pt seg) (IZR grid_size))
        as [Hd | Hd].
      * exists (segment_distance pt seg).
        refine (conj _ (conj Hd (conj _ _))).
        -- apply distance_of_scanned. exists seg. split; [exact Hin | reflexivity].
        -- intros j e He. apply distance_of_scanned in He.
           destruct He as [s [Hs ->]]. exact (Hle _ _ Hs).
        -- intros j e He Hj. apply distance_of_scanned in He.
           destruct He as [s [Hs ->]]. exact (Hlt _ _ Hs Hj).
      * intros j e He. apply distance_of_scanned in He.
        destruct He as [s [Hs ->]]. pose proof (Hle _ _ Hs). lra.
Qed.

End NearestFacts.
